(** * Topology to OpenPipeline conversion: a shallow embedding

    The development follows the TypeScript module that converts the
    [topology] section of an extension manifest into OpenPipeline
    smartscape node and edge processors.

    Conventions of the embedding.
    - A JavaScript string is a [string] that holds the bytes of its UTF-8
      encoding: a character of ASCII is one byte, a character beyond
      ASCII two to four bytes above 127. Comparison, search, the regular
      expressions and [trim] are exact on every such string;
      [toUpperCase] and [toLowerCase] are exact on ASCII text, and what is
      stated of them beyond it says so.
    - An optional property ([x?: T], [T | undefined], [T | null]) is an
      [option]; a condition [if (x)] on an optional string is [truthy].
    - The three regular expressions of the module all have the shape
      [opener [^c]+ c]; [regexExec] and [regexMatchAll] give their matches.
    - [await inputCallback(...)] is a step of the monad [M], which threads
      the state of the callback and the [Map] of type names, and keeps a
      record of the calls of the callback and of the writes to the [Map];
      [throw Error(msg)] is [throw msg], and what was done before a throw
      stays done. *)

From Stdlib Require Import String Ascii List Bool Arith Lia.
From stdpp Require Import base option list strings pretty gmap.

Local Open Scope string_scope.
Local Open Scope list_scope.
Import ListNotations.

(* [set_solver] clears hypotheses that a substitution has already removed. *)
#[local] Set Warnings "-clear-no-such-hyp".

(** ** JavaScript strings *)

(** The double-quote character (code 34), which the templates of the module
    print around names and values. *)
Definition dq : string := String (ascii_of_nat 34) EmptyString.

(** [if (s)] for [s : string | undefined | null]: the empty string is falsy. *)
Definition truthy (s : option string) : bool :=
  match s with
  | Some (String _ _) => true
  | _ => false
  end.

Definition mapString (f : ascii -> ascii) : string -> string :=
  fix go (s : string) : string :=
    match s with
    | EmptyString => EmptyString
    | String c s' => String (f c) (go s')
    end.

Definition upperChar (c : ascii) : ascii :=
  let n := nat_of_ascii c in
  if ((97 <=? n) && (n <=? 122))%nat then ascii_of_nat (n - 32) else c.

Definition lowerChar (c : ascii) : ascii :=
  let n := nat_of_ascii c in
  if ((65 <=? n) && (n <=? 90))%nat then ascii_of_nat (n + 32) else c.

(** [s.toUpperCase()] and [s.toLowerCase()] as they act on ASCII text: the
    twenty-six letters change case and every other byte stays. On ASCII
    text this is what the engine does. The engine also maps the letters
    beyond ASCII, some to a text of another length, which these two
    definitions do not follow: a statement that depends on the case of
    the letters is made for ASCII text. *)
Definition toUpperCase : string -> string := mapString upperChar.
Definition toLowerCase : string -> string := mapString lowerChar.

(** [s.replace(/c/g, r)] for a one-character pattern and replacement. *)
Definition replaceAllChar (c r : ascii) : string -> string :=
  mapString (fun x => if Ascii.eqb x c then r else x).

(** The string of the given bytes. *)
Definition utf8 (bytes : list nat) : string :=
  fold_right (fun n s => String (ascii_of_nat n) s) EmptyString bytes.

(** The characters that [trim] removes, white space and line terminators,
    each as its UTF-8 encoding: U+0009 to U+000D, U+0020, U+00A0, U+1680,
    U+2000 to U+200A, U+2028, U+2029, U+202F, U+205F, U+3000 and U+FEFF. *)
Definition whiteSpaceCharacters : list string :=
  map utf8
    [ [9]; [10]; [11]; [12]; [13]; [32]; [194; 160]; [225; 154; 128];
      [226; 128; 128]; [226; 128; 129]; [226; 128; 130]; [226; 128; 131];
      [226; 128; 132]; [226; 128; 133]; [226; 128; 134]; [226; 128; 135];
      [226; 128; 136]; [226; 128; 137]; [226; 128; 138];
      [226; 128; 168]; [226; 128; 169]; [226; 128; 175]; [226; 129; 159];
      [227; 128; 128]; [239; 187; 191] ].

(** [t] is one of these characters. *)
Definition isWhiteSpace (t : string) : bool :=
  existsb (String.eqb t) whiteSpaceCharacters.

(** [s.trimStart()]: the characters of white space at the head of [s] are
    removed, of one, two or three bytes each. *)
Fixpoint trimStart (s : string) : string :=
  match s with
  | EmptyString => EmptyString
  | String a s1 =>
      if isWhiteSpace (String a EmptyString) then trimStart s1
      else
        match s1 with
        | EmptyString => s
        | String b s2 =>
            if isWhiteSpace (String a (String b EmptyString)) then trimStart s2
            else
              match s2 with
              | EmptyString => s
              | String c s3 =>
                  if isWhiteSpace (String a (String b (String c EmptyString)))
                  then trimStart s3
                  else s
              end
        end
  end.

(** [s.trimEnd()]: [s] is cut where what is left is white space only. *)
Fixpoint trimEnd (s : string) : string :=
  match s with
  | EmptyString => EmptyString
  | String c s' =>
      match trimStart s with
      | EmptyString => EmptyString
      | _ => String c (trimEnd s')
      end
  end.

Definition trim (s : string) : string := trimEnd (trimStart s).

(** [s.startsWith(p)], with what follows the prefix. *)
Fixpoint stripPrefix (p s : string) : option string :=
  match p, s with
  | EmptyString, _ => Some s
  | String a p', String b s' => if Ascii.eqb a b then stripPrefix p' s' else None
  | String _ _, EmptyString => None
  end.

Definition startsWith (s p : string) : bool :=
  match stripPrefix p s with Some _ => true | None => false end.

(** [s.includes(needle)]. *)
Fixpoint includes (s needle : string) : bool :=
  if startsWith s needle then true
  else match s with
       | EmptyString => false
       | String _ s' => includes s' needle
       end.

(** [s.replace(/^p/, empty)] for a literal prefix [p]. *)
Definition removePrefix (p s : string) : string :=
  match stripPrefix p s with Some rest => rest | None => s end.

(** [s.slice(1, -1)]. *)
Definition slice_1_m1 (s : string) : string :=
  substring 1 (String.length s - 2) s.

(** ** Regular expressions of the shape [opener [^close]+ close] *)

(** The longest run of characters other than [close] at the head of [s],
    and the rest of [s]. *)
Fixpoint spanUntil (close : ascii) (s : string) : string * string :=
  match s with
  | EmptyString => (EmptyString, EmptyString)
  | String c s' =>
      if Ascii.eqb c close then (EmptyString, s)
      else let '(run, rest) := spanUntil close s' in (String c run, rest)
  end.

(** A match anchored at the head of [s]: the capture group and the text
    after the match. The run [[^close]+] is greedy and must hold one
    character at least; it stops at the first [close]. *)
Definition matchHere (opener : string) (close : ascii) (s : string)
  : option (string * string) :=
  match stripPrefix opener s with
  | Some body =>
      match spanUntil close body with
      | (String c run, String _ rest) => Some (String c run, rest)
      | _ => None
      end
  | None => None
  end.

(** [s.match(re)] without the [g] flag: the leftmost match, as its capture
    group [m[1]] and the text after the match. *)
Fixpoint regexExec (opener : string) (close : ascii) (s : string)
  : option (string * string) :=
  match matchHere opener close s with
  | Some m => Some m
  | None =>
      match s with
      | EmptyString => None
      | String _ s' => regexExec opener close s'
      end
  end.

Definition regexCapture (opener : string) (close : ascii) (s : string)
  : option string :=
  match regexExec opener close s with
  | Some (capture, _) => Some capture
  | None => None
  end.

(** [s.match(re)] with the [g] flag: every match, left to right, each one
    searched after the end of the previous one; the matches are the whole
    matched texts. A match takes three characters at least, so a fuel of
    the length of [s] is never used up. *)
Fixpoint regexMatchAllFuel (fuel : nat) (opener : string) (close : ascii)
  (s : string) : list string :=
  match fuel with
  | O => []
  | S fuel' =>
      match regexExec opener close s with
      | Some (capture, rest) =>
          (opener +:+ capture +:+ String close EmptyString)
            :: regexMatchAllFuel fuel' opener close rest
      | None => []
      end
  end.

Definition regexMatchAll (opener : string) (close : ascii) (s : string)
  : list string :=
  regexMatchAllFuel (String.length s) opener close s.

(** [/\$prefix\(([^)]+)\)/], [/\$eq\(([^)]+)\)/] and [/\{([^}]+)\}/]. *)
Definition prefixRegex (s : string) : option string := regexCapture "$prefix(" ")" s.
Definition eqRegex (s : string) : option string := regexCapture "$eq(" ")" s.
Definition placeholderRegex (s : string) : option string := regexCapture "{" "}" s.

(** ** Extension name *)

Definition cleanExtensionName (extensionName : string) : string :=
  removePrefix "custom:"
    (removePrefix "com.dynatrace."
       (removePrefix "custom:com.dynatrace." extensionName)).

(** ** Type names *)

Definition suggestNewTypeName (currentName : string) : string :=
  replaceAllChar ":" "_" (toUpperCase currentName).

(** ** Conditions and required dimensions *)

Record RequiredDimension := {
  dim_key : string;
  valuePattern : option string;
}.

Definition dimensionCondition (dim : RequiredDimension) : string :=
  match valuePattern dim with
  | Some (String _ _ as pattern) =>
      match eqRegex pattern with
      | Some value => dim_key dim +:+ " == " +:+ dq +:+ value +:+ dq
      | None =>
          match prefixRegex pattern with
          | Some prefix =>
              "matchesValue(" +:+ dim_key dim +:+ ", " +:+ dq +:+ prefix +:+ "*" +:+ dq +:+ ")"
          | None => dim_key dim +:+ " == " +:+ dq +:+ pattern +:+ dq
          end
      end
  | _ => "isNotNull(" +:+ dim_key dim +:+ ")"
  end.

Definition convertRequiredDimensionsToMatcher
  (requiredDimensions : option (list RequiredDimension)) : string :=
  match requiredDimensions with
  | None | Some [] => "isNotNull(content)"
  | Some dims => String.concat " and " (map dimensionCondition dims)
  end.

Definition convertConditionToMatcher (condition : option string) : string :=
  match condition with
  | None | Some EmptyString => "isNotNull(metric.key)"
  | Some condition =>
      if String.eqb (trim condition) EmptyString then "isNotNull(metric.key)"
      else
        match prefixRegex condition with
        | Some prefix => "matchesValue(metric.key, " +:+ dq +:+ prefix +:+ "*" +:+ dq +:+ ")"
        | None =>
            match eqRegex condition with
            | Some value => "metric.key == " +:+ dq +:+ value +:+ dq
            | None =>
                if includes condition "$exists()" then "isNotNull(metric.key)"
                else "matchesValue(metric.key, " +:+ dq +:+ condition +:+ dq +:+ ")"
            end
        end
  end.

(** ** The manifest: topology types, relationships, metrics *)

(** Modelled from the spec: the interfaces [TopologyType], [MetricMetadata]
    and [ExtensionStub] are declared in a module that is not part of the
    sources at hand. The records below hold the properties the converter
    reads, with the optionality its own tests on them show. *)
Record Source := {
  sourceType : string;
  condition : option string;
}.

Record Attribute := {
  attr_key : string;
  pattern : string;
}.

Record Rule := {
  idPattern : option string;
  instanceNamePattern : option string;
  requiredDimensions : option (list RequiredDimension);
  attributes : option (list Attribute);
  sources : list Source;
}.

Record TopologyType := {
  name : string;
  displayName : string;
  rules : list Rule;
}.

Record Relationship := {
  fromType : string;
  toType : string;
  typeOfRelation : string;
  rel_sources : list Source;
}.

Record MetricMetadata := {
  metric_key : string;
}.

Record Topology := {
  types : option (list TopologyType);
  relationships : option (list Relationship);
}.

Record ExtensionStub := {
  ext_name : string;
  topology : option Topology;
  metrics : option (list MetricMetadata);
}.

(** ** Processors *)

(** Modelled from the spec: the interfaces [OpenPipelineProcessor],
    [OpenPipelinePipeline] and [OpenPipeline] are declared outside the
    sources at hand; the records hold the properties the converter writes. *)
Record IdComponent := {
  idComponent : string;
  referencedFieldName : string;
}.

Record FieldToExtract := {
  fieldName : string;
  field_referencedFieldName : string;
}.

Inductive NodeName :=
| NodeNameConstant (constant : string)
| NodeNameField (sourceFieldName defaultValue : string).

Record SmartscapeNode := {
  nodeType : string;
  nodeIdFieldName : string;
  idComponents : list IdComponent;
  extractNode : bool;
  nodeName : NodeName;
  fieldsToExtract : option (list FieldToExtract);
}.

Record SmartscapeEdge := {
  edge_sourceType : string;
  sourceIdFieldName : string;
  edgeType : string;
  edge_targetType : string;
  targetIdFieldName : string;
}.

Record OpenPipelineProcessor := {
  id : string;
  processor_type : string;
  matcher : string;
  description : string;
  smartscapeNode : option SmartscapeNode;
  smartscapeEdge : option SmartscapeEdge;
}.

Definition BLOCKED_FIELDS : list string := ["dt.security_context"].

(** [list.includes(s)] on strings. *)
Definition listIncludes (l : list string) (s : string) : bool :=
  existsb (String.eqb s) l.

Definition findMatchingMetric (condition : option string)
  (metrics : option (list MetricMetadata)) : option string :=
  match condition with
  | None | Some EmptyString => None
  | Some condition =>
      match metrics with
      | None | Some [] => None
      | Some metrics =>
          match prefixRegex condition with
          | Some prefix =>
              match List.find (fun m => startsWith (metric_key m) prefix) metrics with
              | Some matchingMetric => Some (metric_key matchingMetric)
              | None => None
              end
          | None =>
              match eqRegex condition with
              | Some exactKey =>
                  match List.find (fun m => String.eqb (metric_key m) exactKey) metrics with
                  | Some matchingMetric => Some (metric_key matchingMetric)
                  | None => None
                  end
              | None =>
                  if includes condition "$exists()" then
                    match metrics with
                    | m :: _ => Some (metric_key m)
                    | [] => None
                    end
                  else None
              end
          end
      end
  end.

Definition extractIdComponentsFromPattern (idPattern : string) : list string :=
  map slice_1_m1 (regexMatchAll "{" "}" idPattern).

Definition sanitizeIdComponentName (fieldName : string) : string :=
  replaceAllChar "." "_" (toLowerCase fieldName).

Definition extractFieldNameFromPattern (pattern : string) : string :=
  match placeholderRegex pattern with
  | Some field => field
  | None => pattern
  end.

Definition extractNodeNameFromPattern (instanceNamePattern : option string)
  (defaultValue : string) : NodeName :=
  match instanceNamePattern with
  | Some (String _ _ as instanceNamePattern) =>
      match placeholderRegex instanceNamePattern with
      | Some fieldName => NodeNameField fieldName defaultValue
      | None => NodeNameConstant instanceNamePattern
      end
  | _ => NodeNameConstant defaultValue
  end.

Definition toIdComponent (fieldName : string) : IdComponent :=
  {| idComponent := sanitizeIdComponentName fieldName;
     referencedFieldName := fieldName |}.

(** The three steps that fill [idComponents] in
    [createSmartscapeNodeProcessor]. *)
Definition buildIdComponents (type : TopologyType) (rule : Rule)
  : list IdComponent :=
  let fromPattern :=
    match idPattern rule with
    | Some (String _ _ as idPattern) =>
        map toIdComponent (extractIdComponentsFromPattern idPattern)
    | _ => []
    end in
  let fromDimensions :=
    match fromPattern, requiredDimensions rule with
    | [], Some dims => map (fun dim => toIdComponent (dim_key dim)) dims
    | _, _ => fromPattern
    end in
  match fromDimensions with
  | [] => [toIdComponent (toLowerCase (name type) +:+ ".id")]
  | _ => fromDimensions
  end.

Definition createSmartscapeNodeProcessor (type : TopologyType)
  (newName : string) (source : Source) (rule : Rule) (extractNode : bool)
  (matcher : string) (counter : nat) : OpenPipelineProcessor :=
  let idComponents := buildIdComponents type rule in
  let fieldsToExtract :=
    map (fun attr =>
           {| fieldName := attr_key attr;
              field_referencedFieldName := extractFieldNameFromPattern (pattern attr) |})
      (List.filter (fun attr => negb (listIncludes BLOCKED_FIELDS (attr_key attr)))
         (default [] (attributes rule))) in
  let processorId :=
    newName +:+ "_" +:+ (if extractNode then "node" else "entity") +:+ "_"
      +:+ sourceType source +:+ "_" +:+ pretty counter in
  let description :=
    if extractNode
    then "Extract node for " +:+ displayName type
    else "Create entity for " +:+ displayName type in
  let nodeName := extractNodeNameFromPattern (instanceNamePattern rule) newName in
  {| id := processorId;
     processor_type := "smartscapeNode";
     matcher := matcher;
     description := description;
     smartscapeNode := Some
       {| nodeType := newName;
          nodeIdFieldName := "node_id";
          idComponents := idComponents;
          extractNode := extractNode;
          nodeName := nodeName;
          fieldsToExtract :=
            match fieldsToExtract with [] => None | _ => Some fieldsToExtract end |};
     smartscapeEdge := None |}.

Definition createSmartscapeEdgeProcessor (sourceTypeName targetTypeName
  edgeType matcher : string) (source : Source) (counter : nat)
  : OpenPipelineProcessor :=
  let processorId :=
    sourceTypeName +:+ "_to_" +:+ targetTypeName +:+ "_" +:+ edgeType +:+ "_"
      +:+ sourceType source +:+ "_" +:+ pretty counter in
  let description :=
    "Create " +:+ edgeType +:+ " relationship from " +:+ sourceTypeName
      +:+ " to " +:+ targetTypeName in
  {| id := processorId;
     processor_type := "smartscapeEdge";
     matcher := matcher;
     description := description;
     smartscapeNode := None;
     smartscapeEdge := Some
       {| edge_sourceType := sourceTypeName;
          sourceIdFieldName := "node_id";
          edgeType := edgeType;
          edge_targetType := targetTypeName;
          targetIdFieldName := "node_id" |} |}.

(** ** The relationship table *)

Definition RELATIONSHIP_TYPE_MAPPING : list (string * string) :=
  [ ("CHILD_OF", "belongs_to");
    ("RUNS_ON", "runs_on");
    ("INSTANCE_OF", "instance_of");
    ("PART_OF", "is_part_of");
    ("CALLS", "calls");
    ("SAME_AS", "same_as") ].

(** The table is a plain object, so [table[k]] also finds the members that
    every object inherits from [Object.prototype]; they are functions or
    objects, hence never falsy. *)
Definition objectPrototypeMembers : list string :=
  [ "constructor"; "__defineGetter__"; "__defineSetter__"; "hasOwnProperty";
    "__lookupGetter__"; "__lookupSetter__"; "isPrototypeOf";
    "propertyIsEnumerable"; "toString"; "valueOf"; "__proto__";
    "toLocaleString" ].

Inductive Property :=
| Own (value : string)
| Inherited (member : string)
| Undefined.

Fixpoint ownProperty (object : list (string * string)) (k : string)
  : option string :=
  match object with
  | [] => None
  | (k', v) :: object' => if String.eqb k k' then Some v else ownProperty object' k
  end.

(** [object[k]]. *)
Definition getProperty (object : list (string * string)) (k : string)
  : Property :=
  match ownProperty object k with
  | Some v => Own v
  | None => if listIncludes objectPrototypeMembers k then Inherited k else Undefined
  end.

(** [Object.keys(object)]. *)
Definition objectKeys (object : list (string * string)) : list string :=
  List.map fst object.

Definition userCancelled : string := "User cancelled the operation".

Definition unknownRelationshipType (typeOfRelation : string) : string :=
  "Unknown relationship type: " +:+ typeOfRelation +:+ ". Expected one of: "
    +:+ String.concat ", " (objectKeys RELATIONSHIP_TYPE_MAPPING).

(** ** The conversion, against an input callback *)

(** A call of the input callback: what it was asked and what it answered. *)
Record Call := {
  call_prompt : string;
  call_suggestedValue : string;
  call_answer : option string;
}.

Inductive Outcome (A : Type) :=
| Return (a : A)
| Throw (message : string).
Arguments Return {A} a.
Arguments Throw {A} message.

Section Conversion.

(** The input callback: a state of its own (a user, a script of answers)
    and the answer, [None] for [null], to a prompt and a suggested value. *)
Context {PortState : Type}.
Variable callback : PortState -> string -> string -> option string * PortState.

(** The text the engine gives, in a template, to a member inherited from
    [Object.prototype] (the source text of a function, never empty). The
    callback and the processors see such a member through this text. *)
Variable memberText : string -> string.

(** What a run of the conversion acts on: the callback and the [Map]
    object [typeNameMapping], with two records kept for the statements
    (oldest first): the calls of the callback and the calls of
    [typeNameMapping.set]. *)
Record World := {
  portState : PortState;
  calls : list Call;
  typeNameMapping : gmap string string;
  writes : list (string * string);
}.

Definition M (A : Type) : Type := World -> Outcome A * World.

Definition ret {A : Type} (a : A) : M A := fun w => (Return a, w).

Definition throw {A : Type} (message : string) : M A :=
  fun w => (Throw message, w).

Definition bind {A B : Type} (m : M A) (k : A -> M B) : M B :=
  fun w =>
    match m w with
    | (Return a, w') => k a w'
    | (Throw message, w') => (Throw message, w')
    end.

Notation "x <- m ;; k" := (bind m (fun x => k))
  (at level 100, m at next level, right associativity).
Notation "m ;;; k" := (bind m (fun _ => k))
  (at level 100, right associativity).

(** [await inputCallback(prompt, suggestedValue)]. *)
Definition inputCallback (prompt suggestedValue : string) : M (option string) :=
  fun w =>
    let '(answer, s) := callback (portState w) prompt suggestedValue in
    (Return answer,
     {| portState := s;
        calls := calls w ++ [ {| call_prompt := prompt;
                                 call_suggestedValue := suggestedValue;
                                 call_answer := answer |} ];
        typeNameMapping := typeNameMapping w;
        writes := writes w |}).

(** [if (!answer) throw Error("User cancelled the operation")]. *)
Definition throwIfCancelled (answer : option string) : M string :=
  match answer with
  | Some (String _ _ as value) => ret value
  | _ => throw userCancelled
  end.

(** [typeNameMapping.get(k)], [typeNameMapping.set(k, v)] and
    [new Map()]. *)
Definition mapGet (k : string) : M (option string) :=
  fun w => (Return (typeNameMapping w !! k), w).

Definition mapSet (k v : string) : M unit :=
  fun w =>
    (Return tt,
     {| portState := portState w;
        calls := calls w;
        typeNameMapping := <[k := v]> (typeNameMapping w);
        writes := writes w ++ [(k, v)] |}).

Definition newMap : M unit :=
  fun w =>
    (Return tt,
     {| portState := portState w; calls := calls w; typeNameMapping := ∅;
        writes := [] |}).

(** *** Relationships *)

Definition processMetricsRelationship (relationship : Relationship)
  (fromTypeName toTypeName edgeType : string) (source : Source)
  (counter : nat) : M OpenPipelineProcessor :=
  let suggestedMatcher := convertConditionToMatcher (condition source) in
  matcher <- inputCallback
    ("Enter matcher condition for relationship " +:+ dq +:+ fromType relationship
       +:+ dq +:+ " → " +:+ dq +:+ toType relationship +:+ dq
       +:+ " (" +:+ edgeType +:+ ")")
    suggestedMatcher ;;
  matcher <- throwIfCancelled matcher ;;
  ret (createSmartscapeEdgeProcessor fromTypeName toTypeName edgeType matcher
         source counter).

Definition processLogsRelationship (relationship : Relationship)
  (fromTypeName toTypeName edgeType : string) (source : Source)
  (counter : nat) : M OpenPipelineProcessor :=
  let suggestedMatcher :=
    if truthy (condition source)
    then convertConditionToMatcher (condition source)
    else "isNotNull(content)" in
  matcher <- inputCallback
    ("Enter matcher condition for relationship " +:+ dq +:+ fromType relationship
       +:+ dq +:+ " → " +:+ dq +:+ toType relationship +:+ dq
       +:+ " (" +:+ edgeType +:+ ") (Logs)")
    suggestedMatcher ;;
  matcher <- throwIfCancelled matcher ;;
  ret (createSmartscapeEdgeProcessor fromTypeName toTypeName edgeType matcher
         source counter).

(** What both conversions return. *)
Record Processors := {
  metricsProcessors : list OpenPipelineProcessor;
  logsProcessors : list OpenPipelineProcessor;
}.

(** The local variables of [createProcessorsFromRelationships]. *)
Record EdgeLoopState := {
  edge_metricsProcessors : list OpenPipelineProcessor;
  edge_logsProcessors : list OpenPipelineProcessor;
  edge_metricsCounter : nat;
  edge_logsCounter : nat;
}.

(** [for (const source of relationship.sources)]. *)
Fixpoint relationshipSourcesLoop (relationship : Relationship)
  (fromTypeName toTypeName edgeType : string) (sources : list Source)
  (st : EdgeLoopState) : M EdgeLoopState :=
  match sources with
  | [] => ret st
  | source :: sources' =>
      if String.eqb (sourceType source) "Metrics" then
        processor <- processMetricsRelationship relationship fromTypeName
          toTypeName edgeType source (edge_metricsCounter st) ;;
        relationshipSourcesLoop relationship fromTypeName toTypeName edgeType
          sources'
          {| edge_metricsProcessors := edge_metricsProcessors st ++ [processor];
             edge_logsProcessors := edge_logsProcessors st;
             edge_metricsCounter := S (edge_metricsCounter st);
             edge_logsCounter := edge_logsCounter st |}
      else if String.eqb (sourceType source) "Logs" then
        processor <- processLogsRelationship relationship fromTypeName
          toTypeName edgeType source (edge_logsCounter st) ;;
        relationshipSourcesLoop relationship fromTypeName toTypeName edgeType
          sources'
          {| edge_metricsProcessors := edge_metricsProcessors st;
             edge_logsProcessors := edge_logsProcessors st ++ [processor];
             edge_metricsCounter := edge_metricsCounter st;
             edge_logsCounter := S (edge_logsCounter st) |}
      else
        relationshipSourcesLoop relationship fromTypeName toTypeName edgeType
          sources' st
  end.

(** The name of one end of a relationship: the mapped name, or the answer
    of the callback, which is then recorded in the mapping. *)
Definition resolveEndName (role typeName : string) : M string :=
  mapped <- mapGet typeName ;;
  match mapped with
  | Some (String _ _ as mappedName) => ret mappedName
  | _ =>
      userInput <- inputCallback
        ("Enter new name for " +:+ role +:+ " type " +:+ dq +:+ typeName +:+ dq)
        (suggestNewTypeName typeName) ;;
      userInput <- throwIfCancelled userInput ;;
      mapSet typeName userInput ;;;
      ret userInput
  end.

(** The body of [for (const relationship of relationships)]. *)
Definition relationshipStep (relationship : Relationship)
  (st : EdgeLoopState) : M EdgeLoopState :=
  fromTypeName <- resolveEndName "source" (fromType relationship) ;;
  toTypeName <- resolveEndName "target" (toType relationship) ;;
  suggestedEdgeType <-
    match getProperty RELATIONSHIP_TYPE_MAPPING (typeOfRelation relationship) with
    | Own (String _ _ as edgeType) => ret edgeType
    | Inherited member => ret (memberText member)
    | _ => throw (unknownRelationshipType (typeOfRelation relationship))
    end ;;
  edgeTypeInput <- inputCallback
    ("Enter edge type for " +:+ dq +:+ fromType relationship +:+ dq +:+ " → "
       +:+ dq +:+ toType relationship +:+ dq +:+ " (was "
       +:+ typeOfRelation relationship +:+ ")")
    suggestedEdgeType ;;
  edgeType <- throwIfCancelled edgeTypeInput ;;
  relationshipSourcesLoop relationship fromTypeName toTypeName edgeType
    (rel_sources relationship) st.

Fixpoint relationshipsLoop (relationships : list Relationship)
  (st : EdgeLoopState) : M EdgeLoopState :=
  match relationships with
  | [] => ret st
  | relationship :: relationships' =>
      st' <- relationshipStep relationship st ;;
      relationshipsLoop relationships' st'
  end.

Definition createProcessorsFromRelationships
  (relationships : list Relationship) : M Processors :=
  st <- relationshipsLoop relationships
    {| edge_metricsProcessors := []; edge_logsProcessors := [];
       edge_metricsCounter := 0; edge_logsCounter := 0 |} ;;
  ret {| metricsProcessors := edge_metricsProcessors st;
         logsProcessors := edge_logsProcessors st |}.

(** *** Topology types *)

Definition processMetricsSource (type : TopologyType) (newName : string)
  (source : Source) (rule : Rule) (metrics : option (list MetricMetadata))
  (processorCounter : nat) (entityTypesWithNodeExtraction : gset string)
  : M (list OpenPipelineProcessor * gset string) :=
  let suggestedEntityMatcher := convertConditionToMatcher (condition source) in
  entityMatcher <- inputCallback
    ("Enter matcher condition for entity extraction (extractNode: false) for "
       +:+ dq +:+ displayName type +:+ dq)
    suggestedEntityMatcher ;;
  entityMatcher <- throwIfCancelled entityMatcher ;;
  let entityProcessor :=
    createSmartscapeNodeProcessor type newName source rule false entityMatcher
      processorCounter in
  if decide (newName ∈ entityTypesWithNodeExtraction) then
    ret ([entityProcessor], entityTypesWithNodeExtraction)
  else
    let matchingMetric := findMatchingMetric (condition source) metrics in
    let suggestedNodeMatcher :=
      match matchingMetric with
      | Some (String _ _ as matchingMetric) =>
          "matchesValue(metric.key, " +:+ dq +:+ matchingMetric +:+ dq +:+ ")"
      | _ => suggestedEntityMatcher
      end in
    nodeMatcher <- inputCallback
      ("Enter matcher condition for node extraction (extractNode: true) for "
         +:+ dq +:+ displayName type +:+ dq)
      suggestedNodeMatcher ;;
    nodeMatcher <- throwIfCancelled nodeMatcher ;;
    let nodeProcessor :=
      createSmartscapeNodeProcessor type newName source rule true nodeMatcher
        (S processorCounter) in
    ret ([entityProcessor; nodeProcessor],
         {[ newName ]} ∪ entityTypesWithNodeExtraction).

Definition processLogsSource (type : TopologyType) (newName : string)
  (source : Source) (rule : Rule) (processorCounter : nat)
  (entityTypesWithNodeExtraction : gset string)
  : M (list OpenPipelineProcessor * gset string) :=
  let suggestedEntityMatcher :=
    convertRequiredDimensionsToMatcher (requiredDimensions rule) in
  entityMatcher <- inputCallback
    ("Enter matcher condition for entity extraction (extractNode: false) for "
       +:+ dq +:+ displayName type +:+ dq +:+ " (Logs)")
    suggestedEntityMatcher ;;
  entityMatcher <- throwIfCancelled entityMatcher ;;
  let entityProcessor :=
    createSmartscapeNodeProcessor type newName source rule false entityMatcher
      processorCounter in
  if decide (newName ∈ entityTypesWithNodeExtraction) then
    ret ([entityProcessor], entityTypesWithNodeExtraction)
  else
    nodeMatcher <- inputCallback
      ("Enter matcher condition for node extraction (extractNode: true) for "
         +:+ dq +:+ displayName type +:+ dq +:+ " (Logs)")
      suggestedEntityMatcher ;;
    nodeMatcher <- throwIfCancelled nodeMatcher ;;
    let nodeProcessor :=
      createSmartscapeNodeProcessor type newName source rule true nodeMatcher
        (S processorCounter) in
    ret ([entityProcessor; nodeProcessor],
         {[ newName ]} ∪ entityTypesWithNodeExtraction).

(** The local variables of [createProcessorsFromTopology]. *)
Record NodeLoopState := {
  node_metricsProcessors : list OpenPipelineProcessor;
  node_logsProcessors : list OpenPipelineProcessor;
  metricsCounter : nat;
  logsCounter : nat;
  entityTypesWithNodeExtraction : gset string;
}.

(** [for (const source of rule.sources)]. *)
Fixpoint sourcesLoop (type : TopologyType) (newName : string) (rule : Rule)
  (metrics : option (list MetricMetadata)) (sources : list Source)
  (st : NodeLoopState) : M NodeLoopState :=
  match sources with
  | [] => ret st
  | source :: sources' =>
      if String.eqb (sourceType source) "Metrics" then
        r <- processMetricsSource type newName source rule metrics
          (metricsCounter st) (entityTypesWithNodeExtraction st) ;;
        let '(processors, withNodeExtraction) := r in
        sourcesLoop type newName rule metrics sources'
          {| node_metricsProcessors := node_metricsProcessors st ++ processors;
             node_logsProcessors := node_logsProcessors st;
             metricsCounter := metricsCounter st + length processors;
             logsCounter := logsCounter st;
             entityTypesWithNodeExtraction := withNodeExtraction |}
      else if String.eqb (sourceType source) "Logs" then
        r <- processLogsSource type newName source rule
          (logsCounter st) (entityTypesWithNodeExtraction st) ;;
        let '(processors, withNodeExtraction) := r in
        sourcesLoop type newName rule metrics sources'
          {| node_metricsProcessors := node_metricsProcessors st;
             node_logsProcessors := node_logsProcessors st ++ processors;
             metricsCounter := metricsCounter st;
             logsCounter := logsCounter st + length processors;
             entityTypesWithNodeExtraction := withNodeExtraction |}
      else sourcesLoop type newName rule metrics sources' st
  end.

(** [for (const rule of type.rules)]. *)
Fixpoint rulesLoop (type : TopologyType) (newName : string)
  (metrics : option (list MetricMetadata)) (rules : list Rule)
  (st : NodeLoopState) : M NodeLoopState :=
  match rules with
  | [] => ret st
  | rule :: rules' =>
      st' <- sourcesLoop type newName rule metrics (sources rule) st ;;
      rulesLoop type newName metrics rules' st'
  end.

(** The body of [for (const type of types)]. The argument
    [hasTypeNameMapping] tells whether the optional [typeNameMapping] was
    passed. *)
Definition typeStep (metrics : option (list MetricMetadata))
  (hasTypeNameMapping : bool) (type : TopologyType) (st : NodeLoopState)
  : M NodeLoopState :=
  let suggestedName := suggestNewTypeName (name type) in
  newName <- inputCallback
    ("Enter new name for type " +:+ dq +:+ name type +:+ dq) suggestedName ;;
  newName <- throwIfCancelled newName ;;
  (if hasTypeNameMapping then mapSet (name type) newName else ret tt) ;;;
  rulesLoop type newName metrics (rules type) st.

Fixpoint typesLoop (metrics : option (list MetricMetadata))
  (hasTypeNameMapping : bool) (types : list TopologyType)
  (st : NodeLoopState) : M NodeLoopState :=
  match types with
  | [] => ret st
  | type :: types' =>
      st' <- typeStep metrics hasTypeNameMapping type st ;;
      typesLoop metrics hasTypeNameMapping types' st'
  end.

Definition createProcessorsFromTopology (types : list TopologyType)
  (metrics : option (list MetricMetadata)) (hasTypeNameMapping : bool)
  : M Processors :=
  st <- typesLoop metrics hasTypeNameMapping types
    {| node_metricsProcessors := []; node_logsProcessors := [];
       metricsCounter := 0; logsCounter := 0;
       entityTypesWithNodeExtraction := ∅ |} ;;
  ret {| metricsProcessors := node_metricsProcessors st;
         logsProcessors := node_logsProcessors st |}.

(** *** The pipelines *)

Record ProcessorList := { processors : list OpenPipelineProcessor }.

Record OpenPipelinePipeline := {
  customId : string;
  pipeline_displayName : string;
  smartscapeNodeExtraction : option ProcessorList;
  smartscapeEdgeExtraction : option ProcessorList;
}.

Record OpenPipelineDocs := {
  metricPipeline : option OpenPipelinePipeline;
  logPipeline : option OpenPipelinePipeline;
}.

Record PipelineEntry := {
  entry_displayName : string;
  pipelinePath : string;
  pipeline_configScope : string;
}.

Record SourceEntry := {
  source_displayName : string;
  sourcePath : string;
  source_configScope : string;
}.

Record OpenPipeline := {
  pipelines : list PipelineEntry;
  pipeline_sources : list SourceEntry;
}.

Record Conversion := {
  pipelineExtensionYaml : OpenPipeline;
  pipelineDocs : OpenPipelineDocs;
}.

Definition METRIC_PIPELINE_FILE : string := "metrics.pipeline.json".
Definition METRIC_SOURCE_FILE : string := "metrics.source.json".
Definition LOG_PIPELINE_FILE : string := "logs.pipeline.json".
Definition LOG_SOURCE_FILE : string := "logs.source.json".

(** [list.length > 0 ? { processors: list } : absent]. *)
Definition extraction (l : list OpenPipelineProcessor) : option ProcessorList :=
  match l with [] => None | _ => Some {| processors := l |} end.

(** One scope (metrics or logs) of the result: the pipeline document with
    its entries in the manifest, when the scope has a processor. *)
Definition scopePipeline (cleanedName scope pipelineFile sourceFile : string)
  (nodeProcessors edgeProcessors : list OpenPipelineProcessor)
  : option (OpenPipelinePipeline * PipelineEntry * SourceEntry) :=
  match nodeProcessors, edgeProcessors with
  | [], [] => None
  | _, _ =>
      let customId := cleanedName +:+ "-" +:+ scope in
      let displayName := "ext:" +:+ cleanedName in
      Some ({| customId := customId;
               pipeline_displayName := displayName;
               smartscapeNodeExtraction := extraction nodeProcessors;
               smartscapeEdgeExtraction := extraction edgeProcessors |},
            {| entry_displayName := displayName;
               pipelinePath := "openpipeline/" +:+ pipelineFile;
               pipeline_configScope := scope |},
            {| source_displayName := displayName;
               sourcePath := "openpipeline/" +:+ sourceFile;
               source_configScope := scope |})
  end.

Definition assemble (extensionName : string) (nodes edges : Processors)
  : Conversion :=
  let cleanedName := cleanExtensionName extensionName in
  let metricsScope :=
    scopePipeline cleanedName "metrics" METRIC_PIPELINE_FILE METRIC_SOURCE_FILE
      (metricsProcessors nodes) (metricsProcessors edges) in
  let logsScope :=
    scopePipeline cleanedName "logs" LOG_PIPELINE_FILE LOG_SOURCE_FILE
      (logsProcessors nodes) (logsProcessors edges) in
  let present := omap (fun x => x) [metricsScope; logsScope] in
  {| pipelineExtensionYaml :=
       {| pipelines := List.map (fun x => snd (fst x)) present;
          pipeline_sources := List.map snd present |};
     pipelineDocs :=
       {| metricPipeline := option_map (fun x => fst (fst x)) metricsScope;
          logPipeline := option_map (fun x => fst (fst x)) logsScope |} |}.

Definition noProcessors : Processors :=
  {| metricsProcessors := []; logsProcessors := [] |}.

Definition convertTopologyToOpenPipeline (extension : ExtensionStub)
  : M Conversion :=
  match topology extension with
  | None => throw "Extension does not have a topology section."
  | Some topology =>
      newMap ;;;
      nodes <- match types topology with
               | Some types =>
                   createProcessorsFromTopology types (metrics extension) true
               | None => ret noProcessors
               end ;;
      edges <- match relationships topology with
               | Some relationships =>
                   createProcessorsFromRelationships relationships
               | None => ret noProcessors
               end ;;
      ret (assemble (ext_name extension) nodes edges)
  end.

End Conversion.

Arguments World : clear implicits.
Arguments M : clear implicits.

(** [autoInputCallback]: the suggested value, whatever the prompt. *)
Definition autoInputCallback (s : unit) (prompt suggestedValue : string)
  : option string * unit :=
  (Some suggestedValue, s).

(** * The files of the workflow *)

(** The file names that [writePipelineToFile] and
    [writePipelineSourceToFile] choose for a scope; the file system is left
    aside. *)
Definition pipelineFileName (scope : string) : string :=
  if String.eqb scope "logs" then LOG_PIPELINE_FILE else METRIC_PIPELINE_FILE.

Definition sourceFileName (scope : string) : string :=
  if String.eqb scope "logs" then LOG_SOURCE_FILE else METRIC_SOURCE_FILE.

(** The source configuration that [writePipelineSourceToFile] builds. *)
Record StaticRouting := { pipelineId : string }.

Record PipelineSource := {
  pipelineSource_displayName : string;
  staticRouting : StaticRouting;
}.

Definition pipelineSource (extension : ExtensionStub) (scope : string)
  : PipelineSource :=
  let scopeSuffix := if String.eqb scope "logs" then "-logs" else "-metrics" in
  let cleanedName := cleanExtensionName (ext_name extension) in
  {| pipelineSource_displayName := "ext:" +:+ cleanedName;
     staticRouting := {| pipelineId := cleanedName +:+ scopeSuffix |} |}.

(** The scopes for which [createSmartscapeTopologyWorkflow] writes a
    pipeline file and a source file, in the order of the writes. *)
Definition scopesWritten (docs : OpenPipelineDocs) : list string :=
  (match metricPipeline docs with Some _ => ["metrics"] | None => [] end)
  ++ (match logPipeline docs with Some _ => ["logs"] | None => [] end).

(** * The schema formatter *)

(** The three extractors of [schemaFormatter.ts], which walk a JSON
    schema. *)
Module SchemaFormatter.

Section Schema.

(** What the extractors copy without looking into it: the members of an
    [enum], of type [unknown], and the numbers of the constraints. *)
Context {Value Number : Type}.

(** [type?: string | string[]]. *)
Inductive SchemaType :=
| TypeName (name : string)
| TypeNames (names : list string).

(** The interface [SchemaProperty], with the properties that the
    extractors read; an absent property is [None]. [properties] holds the
    entries of the object in the order of [Object.entries]. *)
#[local] Unset Elimination Schemes.
Inductive SchemaProperty := {
  type : option SchemaType;
  description : option string;
  enum : option (list Value);
  items : option SchemaProperty;
  properties : option (list (string * SchemaProperty));
  required : option (list string);
  pattern : option string;
  minLength : option Number;
  maxLength : option Number;
  minimum : option Number;
  maximum : option Number;
}.
#[local] Set Elimination Schemes.

(** ** [extractEnums] *)

Record EnumInfo := {
  enum_path : string;
  enum_values : list Value;
  enum_description : option string;
}.

Fixpoint extractEnums (property : SchemaProperty) (propertyPath : string)
  {struct property} : list EnumInfo :=
  (match enum property with
   | Some values =>
       [ {| enum_path := propertyPath;
            enum_values := values;
            enum_description := description property |} ]
   | None => []
   end)
  ++ (match properties property with
      | Some entries =>
          (fix entriesLoop (entries : list (string * SchemaProperty)) :=
             match entries with
             | [] => []
             | (key, nestedProperty) :: entries' =>
                 extractEnums nestedProperty (propertyPath +:+ "." +:+ key)
                   ++ entriesLoop entries'
             end) entries
      | None => []
      end)
  ++ (match items property with
      | Some itemsProperty => extractEnums itemsProperty (propertyPath +:+ "[]")
      | None => []
      end).

(** ** [extractConstraints] *)

(** A value of [constraintInfo]: the pattern, or a number. *)
Inductive ConstraintValue :=
| PatternConstraint (pattern : string)
| NumberConstraint (number : Number).

(** The object [constraintInfo], as its entries in the order in which they
    are set. An empty pattern is falsy and is not set; the numbers are set
    when they are not [undefined]. *)
Definition constraintInfo (property : SchemaProperty)
  : list (string * ConstraintValue) :=
  (match pattern property with
   | Some (String _ _ as pattern) => [("pattern", PatternConstraint pattern)]
   | _ => []
   end)
  ++ (match minLength property with
      | Some n => [("minLength", NumberConstraint n)] | None => [] end)
  ++ (match maxLength property with
      | Some n => [("maxLength", NumberConstraint n)] | None => [] end)
  ++ (match minimum property with
      | Some n => [("minimum", NumberConstraint n)] | None => [] end)
  ++ (match maximum property with
      | Some n => [("maximum", NumberConstraint n)] | None => [] end).

(** [Array.isArray(type) ? type.join("|") : type || "unknown"]. *)
Definition typeText (property : SchemaProperty) : string :=
  match type property with
  | Some (TypeNames names) => String.concat "|" names
  | Some (TypeName (String _ _ as name)) => name
  | _ => "unknown"
  end.

Record ConstraintEntry := {
  constraint_path : string;
  constraint_type : string;
  constraints : list (string * ConstraintValue);
}.

Fixpoint extractConstraints (property : SchemaProperty) (propertyPath : string)
  {struct property} : list ConstraintEntry :=
  (match constraintInfo property with
   | [] => []
   | info =>
       [ {| constraint_path := propertyPath;
            constraint_type := typeText property;
            constraints := info |} ]
   end)
  ++ (match properties property with
      | Some entries =>
          (fix entriesLoop (entries : list (string * SchemaProperty)) :=
             match entries with
             | [] => []
             | (key, nestedProperty) :: entries' =>
                 extractConstraints nestedProperty (propertyPath +:+ "." +:+ key)
                   ++ entriesLoop entries'
             end) entries
      | None => []
      end)
  ++ (match items property with
      | Some itemsProperty =>
          extractConstraints itemsProperty (propertyPath +:+ "[]")
      | None => []
      end).

(** ** [extractRequiredFields] *)

Record RequiredField := {
  field_path : string;
  field_description : option string;
}.

(** [parentPath ? `${parentPath}.${fieldName}` : fieldName]. *)
Definition fieldPathOf (parentPath fieldName : string) : string :=
  match parentPath with
  | EmptyString => fieldName
  | _ => parentPath +:+ "." +:+ fieldName
  end.

(** [schema.required?.includes(key)]. *)
Definition requiredIncludes (schema : SchemaProperty) (key : string) : bool :=
  match required schema with
  | Some names => listIncludes names key
  | None => false
  end.

(** For a required name, the loop [lookupLoop] is
    [schema.properties[fieldName]] with what the body does of the property
    found: the field with its description and, when the property has
    properties, its own required fields; without a property of that name,
    the field without description. A member that the object of the
    properties inherits from [Object.prototype] has no [description] and no
    [properties], and so gives the field without description as well. *)
Fixpoint extractRequiredFields (schema : SchemaProperty) (parentPath : string)
  {struct schema} : list RequiredField :=
  match properties schema with
  | None => []
  | Some entries =>
      (match required schema with
       | Some names =>
           flat_map
             (fun fieldName =>
                let fieldPath := fieldPathOf parentPath fieldName in
                (fix lookupLoop (entries : list (string * SchemaProperty)) :=
                   match entries with
                   | [] => [ {| field_path := fieldPath;
                                field_description := None |} ]
                   | (key, property) :: entries' =>
                       if String.eqb key fieldName then
                         {| field_path := fieldPath;
                            field_description := description property |}
                         :: match properties property with
                            | Some _ => extractRequiredFields property fieldPath
                            | None => []
                            end
                       else lookupLoop entries'
                   end) entries)
             names
       | None => []
       end)
      ++ (fix entriesLoop (entries : list (string * SchemaProperty)) :=
            match entries with
            | [] => []
            | (key, property) :: entries' =>
                (match properties property with
                 | Some _ =>
                     if negb (requiredIncludes schema key)
                     then extractRequiredFields property
                            (fieldPathOf parentPath key)
                     else []
                 | None => []
                 end) ++ entriesLoop entries'
            end) entries
  end.

(** ** Vocabulary of the statements *)

(** From [property] at [path], the walk of [extractEnums] and
    [extractConstraints] comes to [q] at [path']: through the entries of
    [properties], adding a dot and the key, and through [items], adding
    [[]]. *)
Inductive reaches
  : SchemaProperty -> string -> SchemaProperty -> string -> Prop :=
| reaches_here property path : reaches property path property path
| reaches_property property path entries key nested q path' :
    properties property = Some entries ->
    In (key, nested) entries ->
    reaches nested (path +:+ "." +:+ key) q path' ->
    reaches property path q path'
| reaches_items property path itemsProperty q path' :
    items property = Some itemsProperty ->
    reaches itemsProperty (path +:+ "[]") q path' ->
    reaches property path q path'.

(** From [schema] at [path], going down through the entries of
    [properties] comes to [q] at [path']. *)
Inductive descends
  : SchemaProperty -> string -> SchemaProperty -> string -> Prop :=
| descends_here schema path : descends schema path schema path
| descends_property schema path entries key property q path' :
    properties schema = Some entries ->
    In (key, property) entries ->
    descends property (fieldPathOf path key) q path' ->
    descends schema path q path'.

(** The first entry of the name [fieldName]. *)
Fixpoint ownEntry (entries : list (string * SchemaProperty)) (fieldName : string)
  : option SchemaProperty :=
  match entries with
  | [] => None
  | (key, property) :: entries' =>
      if String.eqb key fieldName then Some property else ownEntry entries' fieldName
  end.

End Schema.

Arguments SchemaProperty : clear implicits.
Arguments EnumInfo : clear implicits.
Arguments ConstraintValue : clear implicits.
Arguments ConstraintEntry : clear implicits.

End SchemaFormatter.

(** * Vocabulary of the statements *)

(** What the sentence on name cleaning allows: the name itself, or the name
    without one of the three prefixes. *)
Definition oneOfThePrefixes : list string :=
  [ EmptyString; "custom:com.dynatrace."; "com.dynatrace."; "custom:" ].

(** [s] holds the character [c]. *)
Fixpoint hasChar (c : ascii) (s : string) : bool :=
  match s with
  | EmptyString => false
  | String x s' => Ascii.eqb x c || hasChar c s'
  end.

(** The text [opener X close] stands in [s] right after [pre], and [post]
    follows it; [X] is not empty and holds no [close]. *)
Definition occursAt (opener : string) (close : ascii) (s pre X post : string)
  : Prop :=
  s = pre +:+ opener +:+ X +:+ String close post
  /\ X <> EmptyString /\ hasChar close X = false.

(** [X] is the argument of the leftmost [opener X close] in [s]. *)
Definition firstOccurrence (opener : string) (close : ascii) (s X : string)
  : Prop :=
  exists pre post,
    occursAt opener close s pre X post
    /\ forall pre' X' post',
         occursAt opener close s pre' X' post' ->
         String.length pre <= String.length pre'.

(** [s] holds no [opener X close] at all. *)
Definition noOccurrence (opener : string) (close : ascii) (s : string) : Prop :=
  forall pre X post, ~ occursAt opener close s pre X post.

(** [s] is made of white space only (the empty string is): a sequence of
    the characters that [trim] removes. *)
Inductive onlyWhiteSpace : string -> Prop :=
| onlyWhiteSpace_empty : onlyWhiteSpace EmptyString
| onlyWhiteSpace_more (t s : string) :
    In t whiteSpaceCharacters -> onlyWhiteSpace s -> onlyWhiteSpace (t +:+ s).

(** A condition that rule 1 of the translation takes: absent, empty or
    made of white space only. *)
Definition blankCondition (condition : option string) : Prop :=
  match condition with
  | None => True
  | Some c => onlyWhiteSpace c
  end.

(** The expression [e] that one required dimension [dim] gives. *)
Definition dimensionRule (dim : RequiredDimension) (e : string) : Prop :=
  match valuePattern dim with
  | None | Some EmptyString => e = "isNotNull(" +:+ dim_key dim +:+ ")"
  | Some v =>
      (forall X, firstOccurrence "$eq(" ")" v X ->
         e = dim_key dim +:+ " == " +:+ dq +:+ X +:+ dq)
      /\ (noOccurrence "$eq(" ")" v ->
          forall X, firstOccurrence "$prefix(" ")" v X ->
            e = "matchesValue(" +:+ dim_key dim +:+ ", " +:+ dq +:+ X +:+ "*" +:+ dq +:+ ")")
      /\ (noOccurrence "$eq(" ")" v -> noOccurrence "$prefix(" ")" v ->
          e = dim_key dim +:+ " == " +:+ dq +:+ v +:+ dq)
  end.

(** The callback gave an answer to the call: neither [null] nor the empty
    string. *)
Definition answered (c : Call) : Prop := truthy (call_answer c) = true.

(** A node-variant processor with an identity component at least. *)
Definition hasIdentity (p : OpenPipelineProcessor) : Prop :=
  exists node, smartscapeNode p = Some node /\ idComponents node <> [].

(** What one Metrics or Logs source of a rule emits: the entity processor,
    and the node processor when the resolved name is not yet among the
    names with node extraction. *)
Definition emitted (type : TopologyType) (newName : string) (source : Source)
  (rule : Rule) (counter : nat) (withNodeExtraction : gset string)
  (entityMatcher nodeMatcher : string) : list OpenPipelineProcessor :=
  createSmartscapeNodeProcessor type newName source rule false entityMatcher counter
  :: (if decide (newName ∈ withNodeExtraction) then []
      else [createSmartscapeNodeProcessor type newName source rule true
              nodeMatcher (S counter)]).

(** Node extraction ([extractNode = true]) and entity extraction
    ([extractNode = false]) for the entity type [N]. *)
Definition isNodeExtraction (N : string) (p : OpenPipelineProcessor) : bool :=
  match smartscapeNode p with
  | Some node => extractNode node && String.eqb (nodeType node) N
  | None => false
  end.

Definition isEntityExtraction (N : string) (p : OpenPipelineProcessor) : bool :=
  match smartscapeNode p with
  | Some node => negb (extractNode node) && String.eqb (nodeType node) N
  | None => false
  end.

(** The number of elements of [l] that pass [f]. *)
Definition countIf {A : Type} (f : A -> bool) (l : list A) : nat :=
  length (List.filter f l).

(** The sources that the conversion of types handles. *)
Definition isExtractionSource (source : Source) : bool :=
  String.eqb (sourceType source) "Metrics" || String.eqb (sourceType source) "Logs".

Definition extractionSourcesOfRules (rules : list Rule) : nat :=
  list_sum (List.map (fun rule => countIf isExtractionSource (sources rule)) rules).

(** The number of Metrics and Logs sources, over the rules of the listed
    types, whose type was resolved to the name [N]. *)
Definition sourcesResolvedTo (N : string)
  (resolved : list (TopologyType * string)) : nat :=
  list_sum
    (List.map (fun tn => if String.eqb (snd tn) N
                         then extractionSourcesOfRules (rules (fst tn)) else 0)
       resolved).

(** A user who gives the listed answers in turn, and none once the list is
    used up. *)
Definition scriptedCallback (script : list (option string))
  (prompt suggestedValue : string) : option string * list (option string) :=
  match script with
  | answer :: script' => (answer, script')
  | [] => (None, [])
  end.

(** The prompt for the name of one end of a relationship. *)
Definition endNamePrompt (role typeName : string) : string :=
  "Enter new name for " +:+ role +:+ " type " +:+ dq +:+ typeName +:+ dq.

(** The prompts of a Metrics source, for the entity matcher and for the
    node matcher. *)
Definition entityMatcherPrompt (type : TopologyType) : string :=
  "Enter matcher condition for entity extraction (extractNode: false) for "
    +:+ dq +:+ displayName type +:+ dq.

Definition nodeMatcherPrompt (type : TopologyType) : string :=
  "Enter matcher condition for node extraction (extractNode: true) for "
    +:+ dq +:+ displayName type +:+ dq.

(** The world at the start of a run: no call made yet, an empty mapping. *)
Definition startWorld {PortState : Type} (s : PortState) : World PortState :=
  {| portState := s; calls := []; typeNameMapping := ∅; writes := [] |}.

(** The type of the scenario [custom:com.dynatrace.foo:bar]: one rule with
    the id pattern [bar-{id}] and one Metrics source with the condition
    [$prefix(foo.bar.)]; what the scenario leaves open is an argument. *)
Definition scenarioSource : Source :=
  {| sourceType := "Metrics"; condition := Some "$prefix(foo.bar.)" |}.

Definition scenarioRule (instanceNamePattern : option string)
  (requiredDimensions : option (list RequiredDimension))
  (attributes : option (list Attribute)) : Rule :=
  {| idPattern := Some "bar-{id}";
     instanceNamePattern := instanceNamePattern;
     requiredDimensions := requiredDimensions;
     attributes := attributes;
     sources := [scenarioSource] |}.

Definition scenarioType (displayName : string) (rule : Rule) : TopologyType :=
  {| name := "custom:com.dynatrace.foo:bar";
     displayName := displayName;
     rules := [rule] |}.

(** The node matcher that a Metrics source suggests. *)
Definition suggestedNodeMatcher (source : Source)
  (metrics : option (list MetricMetadata)) : string :=
  match findMatchingMetric (condition source) metrics with
  | Some (String _ _ as matchingMetric) =>
      "matchesValue(metric.key, " +:+ dq +:+ matchingMetric +:+ dq +:+ ")"
  | _ => convertConditionToMatcher (condition source)
  end.

(** ** Inputs of the examples *)

Definition metricsSource (condition : option string) : Source :=
  {| sourceType := "Metrics"; condition := condition |}.

Definition logsSource : Source :=
  {| sourceType := "Logs"; condition := None |}.

Definition eventsSource : Source :=
  {| sourceType := "Events"; condition := None |}.

Definition plainRule (sources : list Source) : Rule :=
  {| idPattern := None; instanceNamePattern := None;
     requiredDimensions := None; attributes := None; sources := sources |}.

(** Two types that the suggestions resolve to [CLOUDHUB_ORG] (five
    Metrics or Logs sources and one source of another kind, over three
    rules) and one type resolved to [CLOUDHUB_APP], without any source. *)
Definition exampleTypes : list TopologyType :=
  [ {| name := "cloudhub:org"; displayName := "Organization";
       rules := [ plainRule [ metricsSource (Some "$prefix(cloudhub.org.)");
                              logsSource; eventsSource ];
                  plainRule [ metricsSource None ] ] |};
    {| name := "cloudhub:app"; displayName := "Application"; rules := [] |};
    {| name := "Cloudhub:Org"; displayName := "Organization (legacy)";
       rules := [ plainRule [ logsSource; metricsSource (Some "$exists()") ] ] |} ].

Definition exampleExtension : ExtensionStub :=
  {| ext_name := "custom:com.dynatrace.cloudhub";
     topology := Some {| types := Some exampleTypes; relationships := None |};
     metrics := None |}.

(** A relationship of a kind outside the enumeration. *)
Definition followsRelationship : Relationship :=
  {| fromType := "A"; toType := "B"; typeOfRelation := "FOLLOWS";
     rel_sources := [ metricsSource None ] |}.

(** A relationship whose kind is the name of a member that every object
    inherits. *)
Definition constructorRelationship : Relationship :=
  {| fromType := "A"; toType := "B"; typeOfRelation := "constructor";
     rel_sources := [] |}.

(** Two listed types with the same name. *)
Definition repeatedTypes : list TopologyType :=
  [ {| name := "a"; displayName := "first"; rules := [] |};
    {| name := "a"; displayName := "second"; rules := [] |} ].

Definition repeatedExtension : ExtensionStub :=
  {| ext_name := "x";
     topology := Some {| types := Some repeatedTypes; relationships := None |};
     metrics := None |}.

(** The text of an inherited member as the engine of Node.js gives it in
    a template: [constructor] is the function [Object], [__proto__] is the
    object [Object.prototype], and every other member is a native function
    of its own name. *)
Definition exampleMemberText (member : string) : string :=
  if String.eqb member "constructor" then "function Object() { [native code] }"
  else if String.eqb member "__proto__" then "[object Object]"
  else "function " +:+ member +:+ "() { [native code] }".

(** Two relationships of kinds of the enumeration, between the example
    types: three Metrics or Logs sources and one source of another kind. *)
Definition exampleRelationships : list Relationship :=
  [ {| fromType := "cloudhub:app"; toType := "cloudhub:org";
       typeOfRelation := "RUNS_ON";
       rel_sources := [ metricsSource (Some "$prefix(cloudhub.app.)");
                        logsSource; eventsSource ] |};
    {| fromType := "cloudhub:app"; toType := "cloudhub:app";
       typeOfRelation := "CALLS";
       rel_sources := [ metricsSource None ] |} ].

(** ** Statements about runs *)

Section RunStatements.

Context {PortState : Type}.
Variable callback : PortState -> string -> string -> option string * PortState.

Local Abbreviation World := (World PortState).
Local Abbreviation M := (M PortState).

(** The world after a call of the callback. *)
Definition asked (w : World) (prompt suggestedValue : string) : World :=
  {| portState := snd (callback (portState w) prompt suggestedValue);
     calls := calls w
              ++ [ {| call_prompt := prompt;
                      call_suggestedValue := suggestedValue;
                      call_answer :=
                        fst (callback (portState w) prompt suggestedValue) |} ];
     typeNameMapping := typeNameMapping w;
     writes := writes w |}.

(** What a step of a run does to the record of the calls: it adds calls
    at the end; either all of them were answered and the step did not
    throw the cancellation error, or the last one was not answered, the
    ones before were, and the step threw the cancellation error. *)
Definition cancelSound {A : Type} (w : World) (r : Outcome A) (w' : World)
  : Prop :=
  exists new,
    calls w' = calls w ++ new
    /\ ((Forall answered new /\ r <> Throw userCancelled)
        \/ (exists init c,
              new = init ++ [c] /\ Forall answered init
              /\ truthy (call_answer c) = false /\ r = Throw userCancelled)).

(** A step that treats the calls that way, from every world. *)
Definition obeys {A : Type} (m : M A) : Prop :=
  forall w, cancelSound w (fst (m w)) (snd (m w)).

(** Every processor gathered so far has an identity component. *)
Definition allHaveIdentity (st : NodeLoopState) : Prop :=
  Forall hasIdentity (node_metricsProcessors st)
  /\ Forall hasIdentity (node_logsProcessors st).

(** The processors gathered so far, Metrics and Logs together, with node
    extraction and with entity extraction for [N]. *)
Definition nodeCount (N : string) (st : NodeLoopState) : nat :=
  countIf (isNodeExtraction N) (node_metricsProcessors st ++ node_logsProcessors st).

Definition entityCount (N : string) (st : NodeLoopState) : nat :=
  countIf (isEntityExtraction N) (node_metricsProcessors st ++ node_logsProcessors st).

(** 1 when [N] is in [X], else 0. *)
Definition member (N : string) (X : gset string) : nat :=
  if decide (N ∈ X) then 1 else 0.

(** From [st] to [st'], [k N] sources of types resolved to [N] were
    handled: each gave an entity processor; the name is among the names
    with node extraction once one source was handled; and a node processor
    came exactly when the name came among those names. *)
Definition advances (k : string -> nat) (st st' : NodeLoopState) : Prop :=
  forall N,
    entityCount N st' = entityCount N st + k N
    /\ (N ∈ entityTypesWithNodeExtraction st'
        <-> N ∈ entityTypesWithNodeExtraction st \/ 0 < k N)
    /\ nodeCount N st' + member N (entityTypesWithNodeExtraction st)
       = nodeCount N st + member N (entityTypesWithNodeExtraction st').

(** The mapping is the record of its writes: every key was written once,
    the mapping holds the written bindings, and no written name is empty. *)
Definition journal (w : World) : Prop :=
  NoDup (writes w).*1
  /\ typeNameMapping w = list_to_map (writes w)
  /\ Forall (fun kv => kv.2 <> EmptyString) (writes w).

(** [w'] has the writes of [w], and maybe more after them. *)
Definition extends (w w' : World) : Prop :=
  exists new, writes w' = writes w ++ new.

(** A step that keeps the mapping the record of its writes, and only adds
    writes. *)
Definition faithful {A : Type} (m : M A) : Prop :=
  forall w, journal w -> journal (snd (m w)) /\ extends w (snd (m w)).

(** A step that leaves the mapping alone. *)
Definition silent {A : Type} (m : M A) : Prop :=
  forall w,
    writes (snd (m w)) = writes w
    /\ typeNameMapping (snd (m w)) = typeNameMapping w.

End RunStatements.

(** The call that the user of the cancellation example leaves without
    answer. *)
Definition unansweredCall : Call :=
  {| call_prompt :=
       "Enter matcher condition for entity extraction (extractNode: false) for "
         +:+ dq +:+ "Organization" +:+ dq;
     call_suggestedValue :=
       "matchesValue(metric.key, " +:+ dq +:+ "cloudhub.org.*" +:+ dq +:+ ")";
     call_answer := None |}.

(** ** Vocabulary of the further properties *)

(** An ASCII letter in lower case, in upper case. *)
Definition isLowerCaseChar (c : ascii) : bool :=
  let n := nat_of_ascii c in ((97 <=? n) && (n <=? 122))%nat.

Definition isUpperCaseChar (c : ascii) : bool :=
  let n := nat_of_ascii c in ((65 <=? n) && (n <=? 90))%nat.

(** Every character of [s] passes [f]. *)
Fixpoint allChars (f : ascii -> bool) (s : string) : bool :=
  match s with
  | EmptyString => true
  | String c s' => f c && allChars f s'
  end.

(** [s] is ASCII text: every byte is below 128. *)
Definition isAsciiText (s : string) : bool :=
  allChars (fun c => (nat_of_ascii c <? 128)%nat) s.

(** The processors of [l] are numbered in their order: the identifier of
    the one at index [i] ends with an underscore and the number [i]. *)
Definition numbered (l : list OpenPipelineProcessor) : Prop :=
  forall i p, l !! i = Some p -> exists prefix, id p = prefix +:+ "_" +:+ pretty i.

(** The counters of [createProcessorsFromTopology] are the lengths of the
    two lists, which are numbered. *)
Definition counted (st : NodeLoopState) : Prop :=
  metricsCounter st = length (node_metricsProcessors st)
  /\ logsCounter st = length (node_logsProcessors st)
  /\ numbered (node_metricsProcessors st)
  /\ numbered (node_logsProcessors st).

(** The same for [createProcessorsFromRelationships]. *)
Definition edgesCounted (st : EdgeLoopState) : Prop :=
  edge_metricsCounter st = length (edge_metricsProcessors st)
  /\ edge_logsCounter st = length (edge_logsProcessors st)
  /\ numbered (edge_metricsProcessors st)
  /\ numbered (edge_logsProcessors st).

(** The processors gathered so far. *)
Definition nodeProcessorCount (st : NodeLoopState) : nat :=
  length (node_metricsProcessors st) + length (node_logsProcessors st).

Definition edgeProcessorCount (st : EdgeLoopState) : nat :=
  length (edge_metricsProcessors st) + length (edge_logsProcessors st).

(** The edge processors of [new], made in their order for one relationship
    with the counter at [counter]. *)
Definition edgesOf (fromTypeName toTypeName edgeType : string) (counter : nat)
  (new : list OpenPipelineProcessor) : Prop :=
  forall k p, new !! k = Some p ->
    exists matcher source,
      p = createSmartscapeEdgeProcessor fromTypeName toTypeName edgeType matcher
            source (counter + k).

(** The sources of the kind [kind] over the relationships. *)
Definition edgeSourceCount (kind : string) (relationships : list Relationship)
  : nat :=
  list_sum
    (List.map (fun r => countIf (fun s => String.eqb (sourceType s) kind)
                          (rel_sources r))
       relationships).

(** No name of the mapping is empty. *)
Definition namesNotEmpty (m : gmap string string) : Prop :=
  map_Forall (fun _ v => v <> EmptyString) m.

(** [p] is an edge processor between the names that the mapping [m] has
    for the two ends of one of the relationships. *)
Definition connects (m : gmap string string) (relationships : list Relationship)
  (p : OpenPipelineProcessor) : Prop :=
  exists relationship edge,
    In relationship relationships
    /\ smartscapeEdge p = Some edge
    /\ m !! fromType relationship = Some (edge_sourceType edge)
    /\ m !! toType relationship = Some (edge_targetType edge).

(** A relationship with a name at both ends and a kind of the
    enumeration. *)
Definition enumerated (relationship : Relationship) : Prop :=
  fromType relationship <> EmptyString
  /\ toType relationship <> EmptyString
  /\ In (typeOfRelation relationship) (objectKeys RELATIONSHIP_TYPE_MAPPING).

(** [p] is an edge processor whose edge type is the one that the table
    has for the kind of one of the relationships. *)
Definition tableEdge (relationships : list Relationship)
  (p : OpenPipelineProcessor) : Prop :=
  exists relationship edge,
    In relationship relationships
    /\ smartscapeEdge p = Some edge
    /\ ownProperty RELATIONSHIP_TYPE_MAPPING (typeOfRelation relationship)
       = Some (edgeType edge).

(** [p] is a node processor for the entity type [newName]. *)
Definition nodeFor (newName : string) (p : OpenPipelineProcessor) : Prop :=
  exists node, smartscapeNode p = Some node /\ nodeType node = newName.

(** [p] is a node processor for the name that the mapping [m] has for one
    of the listed types. *)
Definition namedByMapping (m : gmap string string) (types : list TopologyType)
  (p : OpenPipelineProcessor) : Prop :=
  exists type node,
    In type types
    /\ smartscapeNode p = Some node
    /\ m !! name type = Some (nodeType node).

(** What a call asked: the prompt and the suggested value. *)
Definition asking (c : Call) : string * string :=
  (call_prompt c, call_suggestedValue c).

(** What resolving the two ends of a relationship asks, from the mapping
    [m]: the name of the source when the mapping has no name for it, then
    the name of the target when the mapping has no name for it and it is
    not the source, which has a name by then. *)
Definition endNamePrompts (m : gmap string string) (relationship : Relationship)
  : list (string * string) :=
  (if truthy (m !! fromType relationship) then []
   else [ (endNamePrompt "source" (fromType relationship),
           suggestNewTypeName (fromType relationship)) ])
  ++ (if truthy (m !! toType relationship)
         || String.eqb (fromType relationship) (toType relationship)
      then []
      else [ (endNamePrompt "target" (toType relationship),
              suggestNewTypeName (toType relationship)) ]).

(** From [w] to [w'] no binding of the mapping was overwritten: the
    bindings of [w] are bindings of [w'], no name is empty, and every
    write made in between went to a key that the mapping of [w] did not
    hold, each key being written once, with the name that the mapping of
    [w'] has for it. *)
Definition neverOverwritten {PortState : Type} (w w' : World PortState) : Prop :=
  namesNotEmpty (typeNameMapping w')
  /\ typeNameMapping w ⊆ typeNameMapping w'
  /\ exists new,
       writes w' = writes w ++ new
       /\ NoDup new.*1
       /\ forall k v,
            (k, v) ∈ new ->
            typeNameMapping w !! k = None
            /\ typeNameMapping w' !! k = Some v
            /\ v <> EmptyString.

(** A step that overwrites no binding, from every world whose mapping has
    no empty name. *)
Definition neverOverwrites {PortState A : Type} (m : M PortState A) : Prop :=
  forall w, namesNotEmpty (typeNameMapping w) -> neverOverwritten w (snd (m w)).

(** The prompt for the name of a listed type, and the call that asks it and
    is answered [answer]. *)
Definition typeNamePrompt (typeName : string) : string :=
  "Enter new name for type " +:+ dq +:+ typeName +:+ dq.

Definition nameCall (type : TopologyType) (answer : string) : Call :=
  {| call_prompt := typeNamePrompt (name type);
     call_suggestedValue := suggestNewTypeName (name type);
     call_answer := Some answer |}.

(** A call that asks for a matcher. *)
Definition matcherCall (c : Call) : Prop :=
  startsWith (call_prompt c) "Enter matcher condition for " = true.

(** The calls made for a listed type: the call for its name, answered
    with the first component, then the calls of the second component. *)
Definition typeCalls (resolved : TopologyType * (string * list Call))
  : list Call :=
  nameCall resolved.1 resolved.2.1 :: resolved.2.2.

(** A relationship from a listed type to a type that is not listed, and
    the example extension with its types and relationships. *)
Definition hostRelationship : Relationship :=
  {| fromType := "cloudhub:app"; toType := "cloudhub:host";
     typeOfRelation := "RUNS_ON"; rel_sources := [] |}.

Definition linkedExtension : ExtensionStub :=
  {| ext_name := "custom:com.dynatrace.cloudhub";
     topology :=
       Some {| types := Some exampleTypes;
               relationships := Some (exampleRelationships ++ [hostRelationship]) |};
     metrics := None |}.

(** Two listed types of the same name, and a relationship from that name
    to a name that is not listed. *)
Definition repeatedLinkedExtension : ExtensionStub :=
  {| ext_name := "x";
     topology :=
       Some {| types := Some repeatedTypes;
               relationships :=
                 Some [ {| fromType := "a"; toType := "b";
                           typeOfRelation := "CALLS"; rel_sources := [] |} ] |};
     metrics := None |}.

(** * Properties *)

(** ** Strings *)

Lemma append_nil_r (s : string) : s +:+ EmptyString = s.
Proof. induction s as [|c s IH]; [reflexivity|]. unfold String.append; fold String.append. by rewrite IH. Qed.

Lemma append_cons (c : ascii) (s t : string) :
  String c s +:+ t = String c (s +:+ t).
Proof. reflexivity. Qed.

Lemma append_assoc (s t u : string) : (s +:+ t) +:+ u = s +:+ (t +:+ u).
Proof.
  induction s as [|c s IH]; [reflexivity|].
  rewrite !append_cons. by rewrite IH.
Qed.

Lemma stripPrefix_Some (p s r : string) :
  stripPrefix p s = Some r <-> s = p +:+ r.
Proof.
  revert s. induction p as [|a p IH]; intros s; simpl.
  - split; [intros [= ->]; reflexivity | intros ->; reflexivity].
  - destruct s as [|b s]; [split; [discriminate | rewrite append_cons; discriminate]|].
    rewrite append_cons. destruct (Ascii.eqb_spec a b) as [->|Hne].
    + rewrite IH. split; [intros ->; reflexivity | intros [= ->]; reflexivity].
    + split; [discriminate | intros [= -> _]; congruence].
Qed.

Lemma stripPrefix_append (p r : string) : stripPrefix p (p +:+ r) = Some r.
Proof. by apply stripPrefix_Some. Qed.

Lemma startsWith_true (s p : string) :
  startsWith s p = true <-> exists r, s = p +:+ r.
Proof.
  unfold startsWith. destruct (stripPrefix p s) as [r|] eqn:E.
  - apply stripPrefix_Some in E. split; [eauto | reflexivity].
  - split; [discriminate|]. intros [r ->]. by rewrite stripPrefix_append in E.
Qed.

Lemma removePrefix_append (p r : string) : removePrefix p (p +:+ r) = r.
Proof. unfold removePrefix. by rewrite stripPrefix_append. Qed.

Lemma removePrefix_other (p s : string) :
  startsWith s p = false -> removePrefix p s = s.
Proof. unfold startsWith, removePrefix. by destruct (stripPrefix p s). Qed.

(** A prefix removal takes the prefix away or leaves the name alone. *)
Lemma removePrefix_cases (p s : string) :
  (startsWith s p = true /\ s = p +:+ removePrefix p s)
  \/ (startsWith s p = false /\ removePrefix p s = s).
Proof.
  unfold startsWith, removePrefix.
  destruct (stripPrefix p s) as [r|] eqn:E; [left | right]; split; try reflexivity.
  by apply stripPrefix_Some.
Qed.

Lemma removePrefix_split (p s : string) :
  exists q, (q = EmptyString \/ q = p) /\ s = q +:+ removePrefix p s.
Proof.
  destruct (removePrefix_cases p s) as [[_ E]|[_ E]].
  - exists p. auto.
  - exists EmptyString. split; [auto|]. by rewrite E.
Qed.

(** ** Extension names (C8) *)

(** C8, counterexample: cleaning [com.dynatrace.custom:foo] gives [foo];
    two prefixes are gone, [com.dynatrace.] and then [custom:], so the
    result is not the name without at most one of the three prefixes. *)
Lemma cleanExtensionName_removes_two :
  cleanExtensionName "com.dynatrace.custom:foo" = "foo"
  /\ ~ (exists p, In p oneOfThePrefixes
                  /\ "com.dynatrace.custom:foo"
                     = p +:+ cleanExtensionName "com.dynatrace.custom:foo").
Proof.
  split; [reflexivity|].
  intros (p & Hp & E). simpl in Hp.
  destruct Hp as [<-|[<-|[<-|[<-|[]]]]]; vm_compute in E; discriminate.
Qed.

(** C8, as amended: the three removals are applied one after the other,
    each to the result of the one before. A name with the prefix
    [custom:com.dynatrace.] loses it, and the other two removals go on
    with the rest; otherwise a name with the prefix [com.dynatrace.] loses
    it, and the removal of [custom:] goes on with the rest; otherwise a
    name with the prefix [custom:] loses it; otherwise the name is
    unchanged. The name is thus the result behind up to three removed
    prefixes, in that order. *)
Theorem cleanExtensionName_sequence (s : string) :
  (forall r, s = "custom:com.dynatrace." +:+ r ->
     cleanExtensionName s = removePrefix "custom:" (removePrefix "com.dynatrace." r))
  /\ (startsWith s "custom:com.dynatrace." = false ->
      forall r, s = "com.dynatrace." +:+ r ->
        cleanExtensionName s = removePrefix "custom:" r)
  /\ (startsWith s "custom:com.dynatrace." = false ->
      startsWith s "com.dynatrace." = false ->
      forall r, s = "custom:" +:+ r -> cleanExtensionName s = r)
  /\ (startsWith s "custom:com.dynatrace." = false ->
      startsWith s "com.dynatrace." = false ->
      startsWith s "custom:" = false -> cleanExtensionName s = s)
  /\ (exists p1 p2 p3,
        s = p1 +:+ p2 +:+ p3 +:+ cleanExtensionName s
        /\ (p1 = EmptyString \/ p1 = "custom:com.dynatrace.")
        /\ (p2 = EmptyString \/ p2 = "com.dynatrace.")
        /\ (p3 = EmptyString \/ p3 = "custom:")).
Proof.
  unfold cleanExtensionName. repeat split.
  - intros r ->. by rewrite removePrefix_append.
  - intros H1 r ->. rewrite (removePrefix_other _ _ H1). by rewrite removePrefix_append.
  - intros H1 H2 r ->.
    rewrite (removePrefix_other _ _ H1), (removePrefix_other _ _ H2).
    by rewrite removePrefix_append.
  - intros H1 H2 H3.
    by rewrite (removePrefix_other _ _ H1), (removePrefix_other _ _ H2),
      (removePrefix_other _ _ H3).
  - destruct (removePrefix_split "custom:com.dynatrace." s) as (p1 & H1 & E1).
    destruct (removePrefix_split "com.dynatrace."
                (removePrefix "custom:com.dynatrace." s)) as (p2 & H2 & E2).
    destruct (removePrefix_split "custom:"
                (removePrefix "com.dynatrace."
                   (removePrefix "custom:com.dynatrace." s))) as (p3 & H3 & E3).
    exists p1, p2, p3. split; [|auto].
    etrans; [exact E1|]. f_equal. etrans; [exact E2|]. f_equal. exact E3.
Qed.

(** ** The regular expressions, against their reading as texts *)

Lemma append_length (s t : string) :
  String.length (s +:+ t) = String.length s + String.length t.
Proof. induction s as [|c s IH]; [reflexivity|]. rewrite append_cons. simpl. by rewrite IH. Qed.

Lemma spanUntil_split (close : ascii) (s : string) :
  s = fst (spanUntil close s) +:+ snd (spanUntil close s)
  /\ hasChar close (fst (spanUntil close s)) = false
  /\ (snd (spanUntil close s) = EmptyString
      \/ exists rest, snd (spanUntil close s) = String close rest).
Proof.
  induction s as [|c s (IH1 & IH2 & IH3)]; simpl.
  - auto.
  - destruct (Ascii.eqb_spec c close) as [->|Hne]; simpl.
    + eauto.
    + destruct (spanUntil close s) as [run rest]; simpl in *.
      rewrite append_cons, <- IH1.
      destruct (Ascii.eqb_spec c close); [done|]. auto.
Qed.

Lemma spanUntil_append (close : ascii) (X post : string) :
  hasChar close X = false ->
  spanUntil close (X +:+ String close post) = (X, String close post).
Proof.
  induction X as [|c X IH]; intros H.
  - change (EmptyString +:+ ?x) with x. simpl. by rewrite Ascii.eqb_refl.
  - simpl in H. apply orb_false_iff in H as [H1 H2]. rewrite append_cons. simpl.
    rewrite H1, (IH H2). reflexivity.
Qed.

Lemma matchHere_Some (opener : string) (close : ascii) (s X post : string) :
  matchHere opener close s = Some (X, post)
  <-> occursAt opener close s EmptyString X post.
Proof.
  unfold matchHere, occursAt. split.
  - destruct (stripPrefix opener s) as [body|] eqn:E; [|discriminate].
    apply stripPrefix_Some in E.
    destruct (spanUntil_split close body) as (H1 & H2 & H3).
    destruct (spanUntil close body) as [run rest]; simpl in *.
    destruct run as [|c run]; [discriminate|].
    destruct rest as [|c' rest]; [discriminate|].
    intros [= <- <-]. destruct H3 as [|[rest' [= -> ->]]]; [discriminate|].
    repeat split; [|discriminate|done].
    rewrite E, H1. reflexivity.
  - intros (-> & HX & Hc). change (EmptyString +:+ ?x) with x.
    rewrite stripPrefix_append, spanUntil_append by done.
    destruct X; [done|reflexivity].
Qed.

Lemma occursAt_cons (opener : string) (close : ascii) (c : ascii)
  (s pre X post : string) :
  occursAt opener close (String c s) (String c pre) X post
  <-> occursAt opener close s pre X post.
Proof.
  unfold occursAt. rewrite append_cons.
  split; intros (H & ? & ?); repeat split; auto; congruence.
Qed.

Lemma regexExec_None (opener : string) (close : ascii) (s : string) :
  regexExec opener close s = None <-> noOccurrence opener close s.
Proof.
  unfold noOccurrence. induction s as [|c s IH]; simpl.
  - destruct (matchHere opener close EmptyString) as [[X post]|] eqn:E.
    + split; [discriminate|]. intros H. apply matchHere_Some in E. by apply H in E.
    + split; [|done]. intros _ pre X post H.
      destruct pre as [|a pre]; [|destruct H as [H _]; rewrite append_cons in H; discriminate].
      apply matchHere_Some in H. congruence.
  - destruct (matchHere opener close (String c s)) as [[X post]|] eqn:E.
    + split; [discriminate|]. intros H. apply matchHere_Some in E. by apply H in E.
    + rewrite IH. split.
      * intros H pre X post Hocc. destruct pre as [|a pre].
        -- apply matchHere_Some in Hocc. congruence.
        -- assert (a = c) as ->.
           { destruct Hocc as [Hocc _]. rewrite append_cons in Hocc. congruence. }
           apply (proj1 (occursAt_cons _ _ _ _ _ _ _)) in Hocc. by apply H in Hocc.
      * intros H pre X post Hocc. apply (H (String c pre) X post).
        by apply (proj2 (occursAt_cons _ _ _ _ _ _ _)).
Qed.

Lemma regexExec_Some (opener : string) (close : ascii) (s X post : string) :
  regexExec opener close s = Some (X, post)
  <-> exists pre,
        occursAt opener close s pre X post
        /\ forall pre' X' post',
             occursAt opener close s pre' X' post' ->
             String.length pre <= String.length pre'.
Proof.
  revert X post. induction s as [|c s IH]; intros X post; simpl.
  - destruct (matchHere opener close EmptyString) as [[X0 post0]|] eqn:E.
    + split.
      * intros [= -> ->]. apply matchHere_Some in E.
        exists EmptyString. split; [done|]. intros; simpl; lia.
      * intros (pre & Hocc & _).
        destruct pre as [|a pre]; [|destruct Hocc as [H _]; rewrite append_cons in H; discriminate].
        apply matchHere_Some in Hocc. congruence.
    + split; [discriminate|]. intros (pre & Hocc & _).
      destruct pre as [|a pre]; [|destruct Hocc as [H _]; rewrite append_cons in H; discriminate].
      apply matchHere_Some in Hocc. congruence.
  - destruct (matchHere opener close (String c s)) as [[X0 post0]|] eqn:E.
    + split.
      * intros [= -> ->]. apply matchHere_Some in E.
        exists EmptyString. split; [done|]. intros; simpl; lia.
      * intros (pre & Hocc & Hleft).
        apply matchHere_Some in E. specialize (Hleft _ _ _ E).
        destruct pre; [|simpl in Hleft; lia].
        apply matchHere_Some in Hocc, E. congruence.
    + rewrite IH. split.
      * intros (pre & Hocc & Hleft). exists (String c pre). split.
        -- by apply (proj2 (occursAt_cons _ _ _ _ _ _ _)).
        -- intros pre' X' post' Hocc'. destruct pre' as [|a pre'].
           ++ apply matchHere_Some in Hocc'. congruence.
           ++ assert (a = c) as ->.
              { destruct Hocc' as [H _]. rewrite append_cons in H. congruence. }
              apply (proj1 (occursAt_cons _ _ _ _ _ _ _)) in Hocc'. apply Hleft in Hocc'. simpl; lia.
      * intros (pre & Hocc & Hleft). destruct pre as [|a pre].
        -- apply matchHere_Some in Hocc. congruence.
        -- assert (a = c) as ->.
           { destruct Hocc as [H _]. rewrite append_cons in H. congruence. }
           exists pre. split; [by apply (proj1 (occursAt_cons _ _ c _ _ _ _))|].
           intros pre' X' post' Hocc'.
           assert (String.length (String c pre) <= String.length (String c pre')) as Hle
             by (eapply Hleft; apply (proj2 (occursAt_cons _ _ _ _ _ _ _)); exact Hocc').
           simpl in Hle; lia.
Qed.

(** The capture group of a match is the argument of the leftmost
    [opener X close]; there is no match when the text holds none. *)
Lemma regexCapture_Some (opener : string) (close : ascii) (s X : string) :
  regexCapture opener close s = Some X <-> firstOccurrence opener close s X.
Proof.
  unfold regexCapture, firstOccurrence.
  destruct (regexExec opener close s) as [[X0 post0]|] eqn:E.
  - split.
    + intros [= ->]. apply regexExec_Some in E as (pre & ? & ?). eauto.
    + intros (pre & post & H). f_equal.
      assert (regexExec opener close s = Some (X, post)) as E'
        by (apply regexExec_Some; eauto).
      congruence.
  - split; [discriminate|]. intros (pre & post & Hocc & _).
    apply regexExec_None in E. by apply E in Hocc.
Qed.

Lemma regexCapture_None (opener : string) (close : ascii) (s : string) :
  regexCapture opener close s = None <-> noOccurrence opener close s.
Proof.
  rewrite <- regexExec_None. unfold regexCapture.
  destruct (regexExec opener close s) as [[X post]|]; split; congruence.
Qed.

Lemma regexExec_rest_shorter (opener : string) (close : ascii)
  (s X rest : string) :
  regexExec opener close s = Some (X, rest) ->
  String.length rest < String.length s.
Proof.
  intros H. apply regexExec_Some in H as (pre & (E & _ & _) & _).
  rewrite E, !append_length. simpl. lia.
Qed.

(** The fuel of [regexMatchAll] is never used up: more fuel gives the same
    matches. *)
Lemma regexMatchAllFuel_enough (opener : string) (close : ascii)
  (n m : nat) (s : string) :
  String.length s <= n -> String.length s <= m ->
  regexMatchAllFuel n opener close s = regexMatchAllFuel m opener close s.
Proof.
  revert m s. induction n as [|n IH]; intros m s Hn Hm.
  - destruct m as [|m]; [reflexivity|]. simpl.
    destruct (regexExec opener close s) as [[X rest]|] eqn:E; [|reflexivity].
    apply regexExec_rest_shorter in E. lia.
  - destruct m as [|m]; simpl.
    + destruct (regexExec opener close s) as [[X rest]|] eqn:E; [|reflexivity].
      apply regexExec_rest_shorter in E. lia.
    + destruct (regexExec opener close s) as [[X rest]|] eqn:E; [|reflexivity].
      apply regexExec_rest_shorter in E. f_equal. apply IH; lia.
Qed.

Lemma regexMatchAll_fuel (opener : string) (close : ascii) (n : nat) (s : string) :
  String.length s <= n ->
  regexMatchAllFuel n opener close s = regexMatchAll opener close s.
Proof. intros H. unfold regexMatchAll. by apply regexMatchAllFuel_enough. Qed.

Lemma includes_true (s needle : string) :
  includes s needle = true <-> exists pre post, s = pre +:+ needle +:+ post.
Proof.
  induction s as [|c s IH]; simpl.
  - destruct (startsWith EmptyString needle) eqn:E.
    + apply startsWith_true in E as [r E]. split; [|done]. intros _.
      exists EmptyString, r. exact E.
    + split; [discriminate|]. intros (pre & post & H).
      destruct pre; [|rewrite append_cons in H; discriminate].
      assert (startsWith EmptyString needle = true) by (apply startsWith_true; eauto).
      congruence.
  - destruct (startsWith (String c s) needle) eqn:E.
    + apply startsWith_true in E as [r E]. split; [|done]. intros _.
      exists EmptyString, r. exact E.
    + rewrite IH. split.
      * intros (pre & post & ->). exists (String c pre), post. by rewrite append_cons.
      * intros (pre & post & H). destruct pre as [|a pre].
        -- assert (startsWith (String c s) needle = true) by (apply startsWith_true; eauto).
           congruence.
        -- rewrite append_cons in H. injection H as -> ->. eauto.
Qed.

Lemma isWhiteSpace_In (t : string) :
  isWhiteSpace t = true <-> In t whiteSpaceCharacters.
Proof.
  unfold isWhiteSpace. rewrite existsb_exists. split.
  - intros (x & Hin & ->%String.eqb_eq). exact Hin.
  - intros Hin. exists t. split; [exact Hin|apply String.eqb_refl].
Qed.

(** One step of [trimStart]: nothing is removed, or one character of white
    space is. *)
Lemma trimStart_cases (s : string) :
  trimStart s = s
  \/ exists t rest,
       In t whiteSpaceCharacters /\ s = t +:+ rest
       /\ trimStart s = trimStart rest
       /\ String.length rest < String.length s.
Proof.
  destruct s as [|a s1]; [by left|]. cbn [trimStart].
  destruct (isWhiteSpace (String a EmptyString)) eqn:E1.
  { right. exists (String a EmptyString), s1. apply isWhiteSpace_In in E1.
    repeat split; [done|simpl; lia]. }
  destruct s1 as [|b s2]; [by left|].
  destruct (isWhiteSpace (String a (String b EmptyString))) eqn:E2.
  { right. exists (String a (String b EmptyString)), s2.
    apply isWhiteSpace_In in E2. repeat split; [done|simpl; lia]. }
  destruct s2 as [|c s3]; [by left|].
  destruct (isWhiteSpace (String a (String b (String c EmptyString)))) eqn:E3;
    [|by left].
  right. exists (String a (String b (String c EmptyString))), s3.
  apply isWhiteSpace_In in E3. repeat split; [done|simpl; lia].
Qed.

Lemma trimStart_whiteSpace (t rest : string) :
  In t whiteSpaceCharacters -> trimStart (t +:+ rest) = trimStart rest.
Proof.
  intros H. vm_compute in H.
  repeat (destruct H as [<-|H]; [reflexivity|]). destruct H.
Qed.

Lemma trimStart_empty (s : string) :
  trimStart s = EmptyString <-> onlyWhiteSpace s.
Proof.
  split.
  - remember (String.length s) as n eqn:Hn. revert s Hn.
    induction n as [n IH] using lt_wf_ind. intros s -> Hs.
    destruct (trimStart_cases s) as [E|(t & rest & Hin & -> & E & Hlen)].
    + rewrite E in Hs. subst s. constructor.
    + constructor; [done|]. eapply IH; [exact Hlen|done|congruence].
  - induction 1 as [|t s Hin _ IH]; [done|]. by rewrite trimStart_whiteSpace.
Qed.

Lemma trimStart_idempotent (s : string) : trimStart (trimStart s) = trimStart s.
Proof.
  remember (String.length s) as n eqn:Hn. revert s Hn.
  induction n as [n IH] using lt_wf_ind. intros s ->.
  destruct (trimStart_cases s) as [E|(t & rest & Hin & -> & E & Hlen)].
  - by rewrite !E.
  - rewrite E. by eapply IH.
Qed.

Lemma trim_empty (s : string) :
  trim s = EmptyString <-> onlyWhiteSpace s.
Proof.
  rewrite <- trimStart_empty. unfold trim.
  pose proof (trimStart_idempotent s) as H.
  destruct (trimStart s) as [|c t]; [done|]. cbn [trimEnd].
  rewrite H. split; discriminate.
Qed.

(** ** Metric conditions (C3) *)

Example convertConditionToMatcher_prefix :
  convertConditionToMatcher (Some "$prefix(cloudhub.org.)")
  = "matchesValue(metric.key, " +:+ dq +:+ "cloudhub.org.*" +:+ dq +:+ ")".
Proof. reflexivity. Qed.

Example convertConditionToMatcher_eq :
  convertConditionToMatcher (Some "$eq(cpu.usage)")
  = "metric.key == " +:+ dq +:+ "cpu.usage" +:+ dq.
Proof. reflexivity. Qed.

Example convertConditionToMatcher_exists :
  convertConditionToMatcher (Some "$exists()") = "isNotNull(metric.key)".
Proof. reflexivity. Qed.

Example convertConditionToMatcher_pattern :
  convertConditionToMatcher (Some "cpu.*")
  = "matchesValue(metric.key, " +:+ dq +:+ "cpu.*" +:+ dq +:+ ")".
Proof. reflexivity. Qed.

(** White space beyond ASCII is white space for the translation: a
    no-break space (U+00A0), a line separator (U+2028) after a space and
    a byte order mark (U+FEFF) are blank conditions. A dash (U+2014),
    whose first two bytes are those of the line separator, is not. *)
Example convertConditionToMatcher_no_break_space :
  convertConditionToMatcher (Some (utf8 [194; 160])) = "isNotNull(metric.key)"
  /\ convertConditionToMatcher (Some (utf8 [32; 226; 128; 168]))
     = "isNotNull(metric.key)"
  /\ convertConditionToMatcher (Some (utf8 [239; 187; 191]))
     = "isNotNull(metric.key)"
  /\ convertConditionToMatcher (Some (utf8 [226; 128; 148]))
     = "matchesValue(metric.key, " +:+ dq +:+ utf8 [226; 128; 148] +:+ dq +:+ ")".
Proof. repeat split; reflexivity. Qed.

Example trim_both_ends :
  trim (utf8 [32; 194; 160] +:+ "a b" +:+ utf8 [9; 226; 128; 168; 10]) = "a b"
  /\ trim (utf8 [226; 128; 148; 32]) = utf8 [226; 128; 148].
Proof. split; reflexivity. Qed.

(** C3, counterexample: the condition made of one space is not empty and
    holds none of [$prefix(X)], [$eq(X)] and [$exists()], so the sentence
    gives it the last rule, [matchesValue(metric.key, " ")]; the function
    answers [isNotNull(metric.key)]. *)
Lemma convertConditionToMatcher_blank :
  " " <> EmptyString
  /\ noOccurrence "$prefix(" ")" " "
  /\ noOccurrence "$eq(" ")" " "
  /\ ~ (exists pre post, " " = pre +:+ "$exists()" +:+ post)
  /\ convertConditionToMatcher (Some " ") = "isNotNull(metric.key)"
  /\ convertConditionToMatcher (Some " ")
     <> "matchesValue(metric.key, " +:+ dq +:+ " " +:+ dq +:+ ")".
Proof.
  repeat split; try discriminate.
  - by apply regexCapture_None.
  - by apply regexCapture_None.
  - intros H. apply includes_true in H. discriminate.
Qed.

(** C3, as amended: the translation gives, in this order of priority,
    [isNotNull(metric.key)] for a condition that is absent, empty or made
    of white space only (of the characters that [trim] removes, those of
    ASCII and those beyond); [matchesValue(metric.key, "X*")] when the
    condition holds [$prefix(X)], for the leftmost such text with [X] not
    empty and free of [)]; [metric.key == "X"] when it holds [$eq(X)], read
    the same way; [isNotNull(metric.key)] when it holds [$exists()]; and
    otherwise [matchesValue(metric.key, "C")] for the whole condition [C]. *)
Theorem convertConditionToMatcher_rules (condition : option string) :
  (blankCondition condition ->
     convertConditionToMatcher condition = "isNotNull(metric.key)")
  /\ (forall c, condition = Some c -> ~ onlyWhiteSpace c ->
      (forall X, firstOccurrence "$prefix(" ")" c X ->
         convertConditionToMatcher condition
         = "matchesValue(metric.key, " +:+ dq +:+ X +:+ "*" +:+ dq +:+ ")")
      /\ (noOccurrence "$prefix(" ")" c ->
          forall X, firstOccurrence "$eq(" ")" c X ->
            convertConditionToMatcher condition
            = "metric.key == " +:+ dq +:+ X +:+ dq)
      /\ (noOccurrence "$prefix(" ")" c -> noOccurrence "$eq(" ")" c ->
          (exists pre post, c = pre +:+ "$exists()" +:+ post) ->
            convertConditionToMatcher condition = "isNotNull(metric.key)")
      /\ (noOccurrence "$prefix(" ")" c -> noOccurrence "$eq(" ")" c ->
          ~ (exists pre post, c = pre +:+ "$exists()" +:+ post) ->
            convertConditionToMatcher condition
            = "matchesValue(metric.key, " +:+ dq +:+ c +:+ dq +:+ ")")).
Proof.
  split.
  - destruct condition as [c|]; [|reflexivity]. simpl. intros Hb.
    destruct c as [|a c]; [reflexivity|].
    apply trim_empty in Hb. unfold convertConditionToMatcher.
    by rewrite Hb.
  - intros c -> Hnb.
    assert (trim c <> EmptyString) as Htrim by (by rewrite trim_empty).
    apply String.eqb_neq in Htrim.
    destruct c as [|a c]; [discriminate|].
    unfold convertConditionToMatcher. rewrite Htrim. unfold prefixRegex, eqRegex.
    repeat split.
    + intros X HX. apply regexCapture_Some in HX. by rewrite HX.
    + intros Hp X HX. apply regexCapture_None in Hp.
      apply regexCapture_Some in HX. by rewrite Hp, HX.
    + intros Hp He Hex. apply regexCapture_None in Hp, He.
      apply includes_true in Hex. by rewrite Hp, He, Hex.
    + intros Hp He Hex. apply regexCapture_None in Hp, He.
      rewrite Hp, He.
      destruct (includes (String a c) "$exists()") eqn:E; [|reflexivity].
      apply includes_true in E. contradiction.
Qed.

(** ** Required dimensions (C7) *)

Example convertRequiredDimensionsToMatcher_three :
  convertRequiredDimensionsToMatcher
    (Some [ {| dim_key := "host"; valuePattern := None |};
            {| dim_key := "env"; valuePattern := Some "$eq(prod)" |};
            {| dim_key := "app"; valuePattern := Some "web" |} ])
  = "isNotNull(host) and env == " +:+ dq +:+ "prod" +:+ dq
      +:+ " and app == " +:+ dq +:+ "web" +:+ dq.
Proof. reflexivity. Qed.

(** C7, counterexample: a requirement whose value pattern is given as the
    empty string gets [isNotNull(key)], not the exact match
    [key == ""] of a given pattern without [$eq] or [$prefix]. *)
Lemma convertRequiredDimensionsToMatcher_empty_pattern :
  valuePattern {| dim_key := "k"; valuePattern := Some EmptyString |} <> None
  /\ convertRequiredDimensionsToMatcher
       (Some [ {| dim_key := "k"; valuePattern := Some EmptyString |} ])
     = "isNotNull(k)"
  /\ convertRequiredDimensionsToMatcher
       (Some [ {| dim_key := "k"; valuePattern := Some EmptyString |} ])
     <> "k == " +:+ dq +:+ EmptyString +:+ dq.
Proof. repeat split; discriminate. Qed.

Lemma dimensionCondition_rule (dim : RequiredDimension) :
  dimensionRule dim (dimensionCondition dim).
Proof.
  unfold dimensionRule, dimensionCondition.
  destruct (valuePattern dim) as [[|a v]|]; try reflexivity.
  unfold eqRegex, prefixRegex. repeat split.
  - intros X HX. apply regexCapture_Some in HX. by rewrite HX.
  - intros He X HX. apply regexCapture_None in He.
    apply regexCapture_Some in HX. by rewrite He, HX.
  - intros He Hp. apply regexCapture_None in He, Hp. by rewrite He, Hp.
Qed.

(** C7, as amended: an absent or empty list gives [isNotNull(content)];
    otherwise the result is the expressions of the requirements, one each
    and in their order, joined by [" and "] with no grouping. A
    requirement gives [isNotNull(key)] when its value pattern is absent or
    the empty string; [key == "X"] when the pattern holds [$eq(X)];
    [matchesValue(key, "X*")] when it holds [$prefix(X)] and no [$eq(X)];
    and the exact match [key == "pattern"] when it holds neither. *)
Theorem convertRequiredDimensionsToMatcher_rules
  (requiredDimensions : option (list RequiredDimension)) :
  (requiredDimensions = None \/ requiredDimensions = Some [] ->
     convertRequiredDimensionsToMatcher requiredDimensions = "isNotNull(content)")
  /\ (forall dims, requiredDimensions = Some dims -> dims <> [] ->
      exists expressions,
        convertRequiredDimensionsToMatcher requiredDimensions
        = String.concat " and " expressions
        /\ Forall2 dimensionRule dims expressions).
Proof.
  split.
  - intros [-> | ->]; reflexivity.
  - intros dims -> Hne. exists (List.map dimensionCondition dims). split.
    + destruct dims; [done|reflexivity].
    + clear Hne. induction dims as [|d dims IH]; constructor; auto.
      apply dimensionCondition_rule.
Qed.

(** ** Runs of the conversion *)

Section Runs.

Context {PortState : Type}.
Variable callback : PortState -> string -> string -> option string * PortState.

Local Abbreviation World := (World PortState).
Local Abbreviation M := (M PortState).
Local Abbreviation asked := (asked callback).
Local Abbreviation obeys := (obeys (PortState := PortState)).
Local Abbreviation silent := (silent (PortState := PortState)).
Local Abbreviation faithful := (faithful (PortState := PortState)).
Local Abbreviation extends := (extends (PortState := PortState)).
Local Abbreviation journal := (journal (PortState := PortState)).
Local Abbreviation cancelSound := (cancelSound (PortState := PortState)).

Lemma bind_inv {A B : Type} (m : M A) (k : A -> M B) (w w2 : World)
  (r : Outcome B) :
  bind m k w = (r, w2) ->
  (exists a w1, m w = (Return a, w1) /\ k a w1 = (r, w2))
  \/ (exists message, m w = (Throw message, w2) /\ r = Throw message).
Proof.
  unfold bind. destruct (m w) as [[a|message] w1]; intros H.
  - left. eauto.
  - right. injection H as <- <-. eauto.
Qed.

Lemma inputCallback_asked (prompt suggestedValue : string) (w : World) :
  inputCallback callback prompt suggestedValue w
  = (Return (fst (callback (portState w) prompt suggestedValue)),
     asked w prompt suggestedValue).
Proof.
  unfold inputCallback, asked.
  by destruct (callback (portState w) prompt suggestedValue).
Qed.

(** The idiom of every call site: ask, and throw on no answer. *)
Lemma ask_inv {B : Type} (prompt suggestedValue : string) (k : string -> M B)
  (w w2 : World) (r : Outcome B) :
  bind (inputCallback callback prompt suggestedValue)
    (fun a => bind (throwIfCancelled a) k) w = (r, w2) ->
  (exists v,
     fst (callback (portState w) prompt suggestedValue) = Some v
     /\ v <> EmptyString
     /\ k v (asked w prompt suggestedValue) = (r, w2))
  \/ (truthy (fst (callback (portState w) prompt suggestedValue)) = false
      /\ r = Throw userCancelled
      /\ w2 = asked w prompt suggestedValue).
Proof.
  unfold bind at 1. rewrite inputCallback_asked.
  destruct (fst (callback (portState w) prompt suggestedValue)) as [[|c v]|];
    unfold bind, throwIfCancelled, throw, ret; intros H.
  - right. by injection H as <- <-.
  - left. exists (String c v). eauto.
  - right. by injection H as <- <-.
Qed.

Lemma ask_answered {B : Type} (prompt suggestedValue v : string)
  (k : string -> M B) (w : World) :
  fst (callback (portState w) prompt suggestedValue) = Some v ->
  v <> EmptyString ->
  bind (inputCallback callback prompt suggestedValue)
    (fun a => bind (throwIfCancelled a) k) w
  = k v (asked w prompt suggestedValue).
Proof.
  intros Hv Hne. unfold bind at 1. rewrite inputCallback_asked, Hv.
  destruct v; [done|]. reflexivity.
Qed.

(** *** Cancellation (C5) *)

Lemma cancelSound_refl {A : Type} (w : World) (r : Outcome A) :
  r <> Throw userCancelled -> cancelSound w r w.
Proof.
  intros H. exists []. split; [by rewrite app_nil_r|]. left. split; [constructor|done].
Qed.

Lemma obeys_ret {A : Type} (a : A) : obeys (ret a).
Proof. intros w. by apply cancelSound_refl. Qed.

Lemma obeys_throw {A : Type} (message : string) :
  message <> userCancelled -> obeys (throw (A := A) message).
Proof. intros H w. apply cancelSound_refl. simpl. congruence. Qed.

Lemma obeys_mapGet (k : string) : obeys (mapGet k).
Proof. intros w. by apply cancelSound_refl. Qed.

Lemma obeys_mapSet (k v : string) : obeys (mapSet k v).
Proof. intros w. exists []. simpl. split; [by rewrite app_nil_r|]. left. split; [constructor|done]. Qed.

Lemma obeys_newMap : obeys newMap.
Proof. intros w. exists []. simpl. split; [by rewrite app_nil_r|]. left. split; [constructor|done]. Qed.

Lemma obeys_bind {A B : Type} (m : M A) (k : A -> M B) :
  obeys m -> (forall a, obeys (k a)) -> obeys (bind m k).
Proof.
  intros Hm Hk w. specialize (Hm w). unfold bind.
  destruct (m w) as [[a|message] w1]; simpl in *.
  - specialize (Hk a w1). destruct (k a w1) as [r w2]; simpl in *.
    destruct Hm as (new1 & E1 & [[F1 _]|(? & ? & _ & _ & _ & [=])]).
    destruct Hk as (new2 & E2 & H2). exists (new1 ++ new2).
    split; [by rewrite E2, E1, app_assoc|].
    destruct H2 as [[F2 Hr]|(init & c & -> & F2 & Hc & Hr)].
    + left. split; [by apply Forall_app|done].
    + right. exists (new1 ++ init), c.
      split; [by rewrite app_assoc|]. split; [by apply Forall_app|done].
  - destruct Hm as (new1 & E1 & H1). exists new1. split; [done|].
    destruct H1 as [[F1 Hr]|(init & c & -> & F1 & Hc & Hr)].
    + left. split; [done|]. congruence.
    + right. exists init, c. repeat split; try done. congruence.
Qed.

Lemma obeys_ask {B : Type} (prompt suggestedValue : string)
  (k : string -> M B) :
  (forall v, obeys (k v)) ->
  obeys (bind (inputCallback callback prompt suggestedValue)
           (fun a => bind (throwIfCancelled a) k)).
Proof.
  intros Hk w.
  destruct (bind (inputCallback callback prompt suggestedValue)
              (fun a => bind (throwIfCancelled a) k) w) as [r w2] eqn:E.
  simpl. apply ask_inv in E as [(v & Hv & Hne & E)|(Hf & -> & ->)].
  - specialize (Hk v (asked w prompt suggestedValue)). rewrite E in Hk.
    destruct Hk as (new2 & E2 & H2). simpl in *.
    exists ({| call_prompt := prompt; call_suggestedValue := suggestedValue;
               call_answer := Some v |} :: new2).
    split; [by rewrite E2, Hv, <- app_assoc|].
    assert (answered {| call_prompt := prompt; call_suggestedValue := suggestedValue;
                        call_answer := Some v |}) as Ha
      by (unfold answered; simpl; by destruct v).
    destruct H2 as [[F2 Hr]|(init & c & -> & F2 & Hc & Hr)].
    + left. split; [by constructor|done].
    + right. eexists (_ :: init), c. split; [reflexivity|].
      split; [by constructor|done].
  - eexists [_]. split; [reflexivity|]. right.
    eexists [], _. split; [reflexivity|]. split; [constructor|]. by split.
Qed.

Lemma unknownRelationshipType_not_cancelled (typeOfRelation : string) :
  unknownRelationshipType typeOfRelation <> userCancelled.
Proof.
  unfold unknownRelationshipType, userCancelled. intros H.
  cbv beta iota zeta delta [String.append] in H. discriminate.
Qed.

Lemma obeys_processMetricsRelationship relationship fromTypeName toTypeName
  edgeType source counter :
  obeys (processMetricsRelationship callback relationship fromTypeName
           toTypeName edgeType source counter).
Proof. apply obeys_ask; intros. apply obeys_ret. Qed.

Lemma obeys_processLogsRelationship relationship fromTypeName toTypeName
  edgeType source counter :
  obeys (processLogsRelationship callback relationship fromTypeName
           toTypeName edgeType source counter).
Proof. apply obeys_ask; intros. apply obeys_ret. Qed.

Lemma obeys_relationshipSourcesLoop relationship fromTypeName toTypeName
  edgeType sources st :
  obeys (relationshipSourcesLoop callback relationship fromTypeName toTypeName
           edgeType sources st).
Proof.
  revert st. induction sources as [|source sources IH]; intros st; simpl.
  - apply obeys_ret.
  - destruct (String.eqb (sourceType source) "Metrics").
    + apply obeys_bind; [apply obeys_processMetricsRelationship | intros; apply IH].
    + destruct (String.eqb (sourceType source) "Logs"); [|apply IH].
      apply obeys_bind; [apply obeys_processLogsRelationship | intros; apply IH].
Qed.

Lemma obeys_resolveEndName role typeName :
  obeys (resolveEndName callback role typeName).
Proof.
  apply obeys_bind; [apply obeys_mapGet|]. intros [[|c mapped]|].
  - apply obeys_ask; intros.
    apply obeys_bind; [apply obeys_mapSet | intros; apply obeys_ret].
  - apply obeys_ret.
  - apply obeys_ask; intros.
    apply obeys_bind; [apply obeys_mapSet | intros; apply obeys_ret].
Qed.

Lemma obeys_processMetricsSource type newName source rule metrics counter
  withNodeExtraction :
  obeys (processMetricsSource callback type newName source rule metrics counter
           withNodeExtraction).
Proof.
  apply obeys_ask; intros. destruct (decide _); [apply obeys_ret|].
  apply obeys_ask; intros. apply obeys_ret.
Qed.

Lemma obeys_processLogsSource type newName source rule counter
  withNodeExtraction :
  obeys (processLogsSource callback type newName source rule counter
           withNodeExtraction).
Proof.
  apply obeys_ask; intros. destruct (decide _); [apply obeys_ret|].
  apply obeys_ask; intros. apply obeys_ret.
Qed.

Lemma obeys_sourcesLoop type newName rule metrics sources st :
  obeys (sourcesLoop callback type newName rule metrics sources st).
Proof.
  revert st. induction sources as [|source sources IH]; intros st; simpl.
  - apply obeys_ret.
  - destruct (String.eqb (sourceType source) "Metrics").
    + apply obeys_bind; [apply obeys_processMetricsSource | intros [? ?]; apply IH].
    + destruct (String.eqb (sourceType source) "Logs"); [|apply IH].
      apply obeys_bind; [apply obeys_processLogsSource | intros [? ?]; apply IH].
Qed.

Lemma obeys_rulesLoop type newName metrics rules st :
  obeys (rulesLoop callback type newName metrics rules st).
Proof.
  revert st. induction rules as [|rule rules IH]; intros st; simpl.
  - apply obeys_ret.
  - apply obeys_bind; [apply obeys_sourcesLoop | intros; apply IH].
Qed.

Lemma obeys_typeStep metrics hasTypeNameMapping type st :
  obeys (typeStep callback metrics hasTypeNameMapping type st).
Proof.
  apply obeys_ask; intros. apply obeys_bind.
  - destruct hasTypeNameMapping; [apply obeys_mapSet | apply obeys_ret].
  - intros. apply obeys_rulesLoop.
Qed.

Lemma obeys_typesLoop metrics hasTypeNameMapping types st :
  obeys (typesLoop callback metrics hasTypeNameMapping types st).
Proof.
  revert st. induction types as [|type types IH]; intros st; simpl.
  - apply obeys_ret.
  - apply obeys_bind; [apply obeys_typeStep | intros; apply IH].
Qed.

Lemma obeys_createProcessorsFromTopology types metrics hasTypeNameMapping :
  obeys (createProcessorsFromTopology callback types metrics hasTypeNameMapping).
Proof.
  apply obeys_bind; [apply obeys_typesLoop | intros; apply obeys_ret].
Qed.

(** *** The processors of a source *)

Lemma createSmartscapeNodeProcessor_hasIdentity type newName source rule
  extractNode matcher counter :
  hasIdentity
    (createSmartscapeNodeProcessor type newName source rule extractNode matcher
       counter).
Proof.
  eexists. split; [reflexivity|]. simpl. unfold buildIdComponents.
  destruct (match idPattern rule with
            | Some (String _ _ as p) => List.map toIdComponent (extractIdComponentsFromPattern p)
            | _ => []
            end) as [|x l]; [|discriminate].
  destruct (requiredDimensions rule) as [[|d dims]|]; discriminate.
Qed.

Lemma emitted_hasIdentity type newName source rule counter withNodeExtraction
  entityMatcher nodeMatcher :
  Forall hasIdentity
    (emitted type newName source rule counter withNodeExtraction entityMatcher
       nodeMatcher).
Proof.
  unfold emitted. constructor; [apply createSmartscapeNodeProcessor_hasIdentity|].
  destruct (decide _); repeat constructor.
  apply createSmartscapeNodeProcessor_hasIdentity.
Qed.

Lemma union_already (x : string) (X : gset string) : x ∈ X -> {[ x ]} ∪ X = X.
Proof. set_solver. Qed.

(** A Metrics source that returns has emitted [emitted ...] and left the
    name among the names with node extraction; the mapping is untouched. *)
Lemma processMetricsSource_returns type newName source rule metrics counter
  withNodeExtraction w processors withNodeExtraction' w' :
  processMetricsSource callback type newName source rule metrics counter
    withNodeExtraction w = (Return (processors, withNodeExtraction'), w') ->
  (exists entityMatcher nodeMatcher,
     processors = emitted type newName source rule counter withNodeExtraction
                    entityMatcher nodeMatcher)
  /\ withNodeExtraction' = {[ newName ]} ∪ withNodeExtraction
  /\ writes w' = writes w /\ typeNameMapping w' = typeNameMapping w.
Proof.
  unfold processMetricsSource, emitted. intros H.
  apply ask_inv in H as [(em & _ & _ & H)|(_ & [=] & _)].
  destruct (decide (newName ∈ withNodeExtraction)) as [Hin|Hin].
  - injection H as <- <- <-. split; [by exists em, EmptyString|].
    by rewrite union_already.
  - apply ask_inv in H as [(nm & _ & _ & H)|(_ & [=] & _)].
    injection H as <- <- <-. split; [by exists em, nm|done].
Qed.

Lemma processLogsSource_returns type newName source rule counter
  withNodeExtraction w processors withNodeExtraction' w' :
  processLogsSource callback type newName source rule counter
    withNodeExtraction w = (Return (processors, withNodeExtraction'), w') ->
  (exists entityMatcher nodeMatcher,
     processors = emitted type newName source rule counter withNodeExtraction
                    entityMatcher nodeMatcher)
  /\ withNodeExtraction' = {[ newName ]} ∪ withNodeExtraction
  /\ writes w' = writes w /\ typeNameMapping w' = typeNameMapping w.
Proof.
  unfold processLogsSource, emitted. intros H.
  apply ask_inv in H as [(em & _ & _ & H)|(_ & [=] & _)].
  destruct (decide (newName ∈ withNodeExtraction)) as [Hin|Hin].
  - injection H as <- <- <-. split; [by exists em, EmptyString|].
    by rewrite union_already.
  - apply ask_inv in H as [(nm & _ & _ & H)|(_ & [=] & _)].
    injection H as <- <- <-. split; [by exists em, nm|done].
Qed.

(** *** Identity components (C6) *)

Lemma sourcesLoop_identity type newName rule metrics sources st w st' w' :
  sourcesLoop callback type newName rule metrics sources st w = (Return st', w') ->
  allHaveIdentity st -> allHaveIdentity st'.
Proof.
  revert st w. induction sources as [|source sources IH]; intros st w; simpl.
  - by intros [= <- <-].
  - intros H [Hm Hl].
    destruct (String.eqb (sourceType source) "Metrics");
      [|destruct (String.eqb (sourceType source) "Logs")].
    + apply bind_inv in H as [([processors seen] & w1 & H1 & H)|(? & _ & [=])].
      apply processMetricsSource_returns in H1 as ((em & nm & ->) & _).
      apply IH in H; [done|]. split; simpl; [|done].
      apply Forall_app. split; [done | apply emitted_hasIdentity].
    + apply bind_inv in H as [([processors seen] & w1 & H1 & H)|(? & _ & [=])].
      apply processLogsSource_returns in H1 as ((em & nm & ->) & _).
      apply IH in H; [done|]. split; simpl; [done|].
      apply Forall_app. split; [done | apply emitted_hasIdentity].
    + by apply IH in H.
Qed.

Lemma rulesLoop_identity type newName metrics rules st w st' w' :
  rulesLoop callback type newName metrics rules st w = (Return st', w') ->
  allHaveIdentity st -> allHaveIdentity st'.
Proof.
  revert st w. induction rules as [|rule rules IH]; intros st w; simpl.
  - by intros [= <- <-].
  - intros H Hst.
    apply bind_inv in H as [(st1 & w1 & H1 & H)|(? & _ & [=])].
    apply sourcesLoop_identity in H1; [|done]. by apply IH in H.
Qed.

Lemma typesLoop_identity metrics hasTypeNameMapping types st w st' w' :
  typesLoop callback metrics hasTypeNameMapping types st w = (Return st', w') ->
  allHaveIdentity st -> allHaveIdentity st'.
Proof.
  revert st w. induction types as [|type types IH]; intros st w; simpl.
  - by intros [= <- <-].
  - intros H Hst.
    apply bind_inv in H as [(st1 & w1 & H1 & H)|(? & _ & [=])].
    apply IH in H; [done|]. unfold typeStep in H1.
    apply ask_inv in H1 as [(newName & _ & _ & H1)|(_ & [=] & _)].
    apply bind_inv in H1 as [(? & w2 & _ & H1)|(? & _ & [=])].
    by apply rulesLoop_identity in H1.
Qed.

(** C6: every processor that the conversion of the topology types returns,
    with [extractNode] true or false and whatever the rule holds, is a
    node-variant processor whose list of identity components is not
    empty. *)
Theorem idComponents_never_empty (types : list TopologyType)
  (metrics : option (list MetricMetadata)) (hasTypeNameMapping : bool)
  (w w' : World) (result : Processors) :
  createProcessorsFromTopology callback types metrics hasTypeNameMapping w
  = (Return result, w') ->
  Forall hasIdentity (metricsProcessors result ++ logsProcessors result).
Proof.
  unfold createProcessorsFromTopology. intros H.
  apply bind_inv in H as [(st & w1 & H1 & H)|(? & _ & [=])].
  injection H as <- <-. simpl.
  apply typesLoop_identity in H1 as [Hm Hl]; [|by split; constructor].
  apply Forall_app. by split.
Qed.

(** *** One node extraction for a resolved name (C1) *)

Lemma advances_refl st : advances (fun _ => 0) st st.
Proof. intros N. repeat split; try lia; [tauto | intros [?|?]; [done|lia]]. Qed.

Lemma advances_trans k1 k2 st st1 st2 :
  advances k1 st st1 -> advances k2 st1 st2 ->
  advances (fun N => k1 N + k2 N) st st2.
Proof.
  intros H1 H2 N. destruct (H1 N) as (E1 & M1 & C1), (H2 N) as (E2 & M2 & C2).
  repeat split; try lia.
  - rewrite M2, M1. intros [[?|?]|?]; [tauto | right; lia | right; lia].
  - rewrite M2, M1. intros [?|?]; [tauto|].
    destruct (k1 N); [right; lia | left; right; lia].
Qed.

Lemma advances_ext k k' st st' :
  (forall N, k N = k' N) -> advances k st st' -> advances k' st st'.
Proof. intros Hk H N. rewrite <- Hk. apply H. Qed.

Lemma countIf_app {A : Type} (f : A -> bool) (l1 l2 : list A) :
  countIf f (l1 ++ l2) = countIf f l1 + countIf f l2.
Proof. unfold countIf. by rewrite List.filter_app, length_app. Qed.

Lemma isNodeExtraction_created N type newName source rule extractNode matcher
  counter :
  isNodeExtraction N
    (createSmartscapeNodeProcessor type newName source rule extractNode matcher
       counter)
  = extractNode && String.eqb newName N.
Proof. reflexivity. Qed.

Lemma isEntityExtraction_created N type newName source rule extractNode matcher
  counter :
  isEntityExtraction N
    (createSmartscapeNodeProcessor type newName source rule extractNode matcher
       counter)
  = negb extractNode && String.eqb newName N.
Proof. reflexivity. Qed.

Lemma emitted_entityCount N type newName source rule counter withNodeExtraction
  entityMatcher nodeMatcher :
  countIf (isEntityExtraction N)
    (emitted type newName source rule counter withNodeExtraction entityMatcher
       nodeMatcher)
  = if String.eqb newName N then 1 else 0.
Proof.
  unfold emitted, countIf.
  destruct (decide _); cbn [List.filter]; rewrite !isEntityExtraction_created;
    destruct (String.eqb newName N); reflexivity.
Qed.

Lemma emitted_nodeCount N type newName source rule counter withNodeExtraction
  entityMatcher nodeMatcher :
  countIf (isNodeExtraction N)
    (emitted type newName source rule counter withNodeExtraction entityMatcher
       nodeMatcher)
  = if decide (newName ∈ withNodeExtraction) then 0
    else if String.eqb newName N then 1 else 0.
Proof.
  unfold emitted, countIf.
  destruct (decide _); cbn [List.filter]; rewrite !isNodeExtraction_created;
    destruct (String.eqb newName N); reflexivity.
Qed.

(** The step of one Metrics or Logs source on the variables of the loop. *)
Lemma emitted_advances type newName source rule counter entityMatcher
  nodeMatcher st st' :
  entityTypesWithNodeExtraction st'
  = {[ newName ]} ∪ entityTypesWithNodeExtraction st ->
  (forall N,
     entityCount N st'
     = entityCount N st
       + countIf (isEntityExtraction N)
           (emitted type newName source rule counter
              (entityTypesWithNodeExtraction st) entityMatcher nodeMatcher)) ->
  (forall N,
     nodeCount N st'
     = nodeCount N st
       + countIf (isNodeExtraction N)
           (emitted type newName source rule counter
              (entityTypesWithNodeExtraction st) entityMatcher nodeMatcher)) ->
  advances (fun N => if String.eqb newName N then 1 else 0) st st'.
Proof.
  intros Hset HE HN N. rewrite HE, HN, emitted_entityCount, emitted_nodeCount, Hset.
  unfold member.
  destruct (String.eqb_spec newName N) as [->|Hne]; repeat split.
  - intros _. right. lia.
  - intros _. set_solver.
  - repeat case_decide; try lia; set_solver.
  - set_solver.
  - intros [?|?]; [set_solver | lia].
  - repeat case_decide; try lia; set_solver.
Qed.

Lemma sourcesLoop_advances type newName rule metrics sources st w st' w' :
  sourcesLoop callback type newName rule metrics sources st w = (Return st', w') ->
  advances (fun N => if String.eqb newName N
                     then countIf isExtractionSource sources else 0) st st'
  /\ writes w' = writes w /\ typeNameMapping w' = typeNameMapping w.
Proof.
  revert st w. induction sources as [|source sources IH]; intros st w; simpl.
  - intros [= <- <-]. split; [|done].
    eapply advances_ext; [|apply advances_refl]. intros N; simpl.
    by destruct (String.eqb newName N).
  - intros H. unfold countIf, isExtractionSource. simpl.
    destruct (String.eqb (sourceType source) "Metrics") eqn:Em;
      [|destruct (String.eqb (sourceType source) "Logs") eqn:El]; simpl.
    + apply bind_inv in H as [([processors seen] & w1 & H1 & H)|(? & _ & [=])].
      apply processMetricsSource_returns in H1 as ((em & nm & ->) & -> & Hw & Hm).
      apply IH in H as (H & Hw' & Hm'). split; [|split; congruence].
      eapply advances_ext; [|eapply advances_trans; [|exact H]].
      2:{ eapply (emitted_advances type newName source rule (metricsCounter st) em nm);
          [reflexivity| |]; intros N; unfold entityCount, nodeCount; simpl;
          rewrite !countIf_app; lia. }
      intros N; simpl. unfold countIf. by destruct (String.eqb newName N).
    + apply bind_inv in H as [([processors seen] & w1 & H1 & H)|(? & _ & [=])].
      apply processLogsSource_returns in H1 as ((em & nm & ->) & -> & Hw & Hm).
      apply IH in H as (H & Hw' & Hm'). split; [|split; congruence].
      eapply advances_ext; [|eapply advances_trans; [|exact H]].
      2:{ eapply (emitted_advances type newName source rule (logsCounter st) em nm);
          [reflexivity| |]; intros N; unfold entityCount, nodeCount; simpl;
          rewrite !countIf_app; lia. }
      intros N; simpl. unfold countIf. by destruct (String.eqb newName N).
    + by apply IH in H.
Qed.

Lemma rulesLoop_advances type newName metrics rules st w st' w' :
  rulesLoop callback type newName metrics rules st w = (Return st', w') ->
  advances (fun N => if String.eqb newName N
                     then extractionSourcesOfRules rules else 0) st st'
  /\ writes w' = writes w /\ typeNameMapping w' = typeNameMapping w.
Proof.
  revert st w. induction rules as [|rule rules IH]; intros st w; simpl.
  - intros [= <- <-]. split; [|done].
    eapply advances_ext; [|apply advances_refl]. intros N; simpl.
    by destruct (String.eqb newName N).
  - intros H.
    apply bind_inv in H as [(st1 & w1 & H1 & H)|(? & _ & [=])].
    apply sourcesLoop_advances in H1 as (H1 & Hw & Hm).
    apply IH in H as (H & Hw' & Hm'). split; [|split; congruence].
    eapply advances_ext; [|eapply advances_trans; [exact H1|exact H]].
    intros N; simpl. unfold extractionSourcesOfRules. simpl.
    by destruct (String.eqb newName N).
Qed.

(** A type that is handled has its sources counted for the answer of the
    callback; when the mapping was passed, it gets one binding, from the
    name of the type to that answer. *)
Lemma typeStep_advances metrics hasTypeNameMapping type st w st' w' :
  typeStep callback metrics hasTypeNameMapping type st w = (Return st', w') ->
  exists newName,
    writes w' = writes w ++ (if hasTypeNameMapping then [(name type, newName)] else [])
    /\ newName <> EmptyString
    /\ advances (fun N => if String.eqb newName N
                          then extractionSourcesOfRules (rules type) else 0) st st'.
Proof.
  unfold typeStep. intros H.
  apply ask_inv in H as [(newName & _ & Hne & H)|(_ & [=] & _)].
  apply bind_inv in H as [([] & w2 & H2 & H)|(? & _ & [=])].
  apply rulesLoop_advances in H as (H & Hw & Hm). exists newName.
  rewrite Hw. destruct hasTypeNameMapping; injection H2 as <-; simpl;
    by rewrite ?app_nil_r.
Qed.

Lemma typesLoop_advances metrics hasTypeNameMapping types st w st' w' :
  typesLoop callback metrics hasTypeNameMapping types st w = (Return st', w') ->
  exists names,
    length names = length types
    /\ writes w' = writes w ++ (if hasTypeNameMapping
                                then zip (List.map name types) names else [])
    /\ advances (fun N => sourcesResolvedTo N (zip types names)) st st'.
Proof.
  revert st w. induction types as [|type types IH]; intros st w; simpl.
  - intros [= <- <-]. exists []. split; [done|].
    split; [destruct hasTypeNameMapping; by rewrite app_nil_r|].
    apply advances_refl.
  - intros H.
    apply bind_inv in H as [(st1 & w1 & H1 & H)|(? & _ & [=])].
    apply typeStep_advances in H1 as (newName & Hw1 & _ & H1).
    apply IH in H as (names & Hlen & Hw & H).
    exists (newName :: names). split; [simpl; by rewrite Hlen|].
    split; [rewrite Hw, Hw1, <- app_assoc; by destruct hasTypeNameMapping|].
    eapply advances_ext; [|eapply advances_trans; [exact H1|exact H]].
    intros N. reflexivity.
Qed.

(** C1: in a run of the conversion of the topology types that returns, let
    [names] be the answers of the callback for the names of the listed
    types, in order (they are what the run writes to the mapping, when the
    mapping is passed). For every name [N], the processors returned hold
    exactly one processor with [extractNode = true] and node type [N] when
    at least one Metrics or Logs source belongs to a type resolved to [N],
    however many there are, and none otherwise; and they hold one
    processor with [extractNode = false] and node type [N] for each such
    source. *)
Theorem one_node_extraction_per_name (types : list TopologyType)
  (metrics : option (list MetricMetadata)) (hasTypeNameMapping : bool)
  (w w' : World) (result : Processors) :
  createProcessorsFromTopology callback types metrics hasTypeNameMapping w
  = (Return result, w') ->
  exists names,
    length names = length types
    /\ writes w' = writes w ++ (if hasTypeNameMapping
                                then zip (List.map name types) names else [])
    /\ forall N,
         countIf (isNodeExtraction N)
           (metricsProcessors result ++ logsProcessors result)
         = (if (0 <? sourcesResolvedTo N (zip types names))%nat then 1 else 0)
         /\ countIf (isEntityExtraction N)
              (metricsProcessors result ++ logsProcessors result)
            = sourcesResolvedTo N (zip types names).
Proof.
  unfold createProcessorsFromTopology. intros H.
  apply bind_inv in H as [(st & w1 & H1 & H)|(? & _ & [=])].
  injection H as <- <-. simpl.
  apply typesLoop_advances in H1 as (names & Hlen & Hw & H).
  exists names. split; [done|]. split; [done|]. intros N.
  destruct (H N) as (HE & HM & HN). unfold entityCount, nodeCount, member in *.
  simpl in *. split; [|exact HE].
  rewrite (decide_False (P := N ∈ (∅ : gset string))) in HN by set_solver.
  destruct (Nat.ltb_spec 0 (sourcesResolvedTo N (zip types names))) as [Hlt|Hge].
  - rewrite decide_True in HN by (apply HM; right; exact Hlt). lia.
  - rewrite decide_False in HN; [lia|].
    rewrite HM. intros [Hin|Hlt]; [set_solver | lia].
Qed.

(** *** The mapping of type names (C9) *)

Lemma extends_refl w : extends w w.
Proof. exists []. by rewrite app_nil_r. Qed.

Lemma extends_trans w1 w2 w3 : extends w1 w2 -> extends w2 w3 -> extends w1 w3.
Proof. intros [n1 E1] [n2 E2]. exists (n1 ++ n2). by rewrite E2, E1, app_assoc. Qed.

Lemma journal_same w w' :
  writes w' = writes w -> typeNameMapping w' = typeNameMapping w ->
  journal w -> journal w'.
Proof. unfold journal. by intros -> ->. Qed.

Lemma journal_set k v w :
  journal w -> typeNameMapping w !! k = None -> v <> EmptyString ->
  journal (snd (mapSet k v w)).
Proof.
  intros (Hnd & Hm & Hv) Hk Hne. unfold journal; simpl.
  assert (k ∉ (writes w).*1) as Hfresh
    by (rewrite Hm in Hk; by apply not_elem_of_list_to_map in Hk).
  split; [|split].
  - rewrite fmap_app. apply NoDup_app. split; [done|]. split; [|apply NoDup_singleton].
    intros x Hx Hx'. apply list_elem_of_singleton in Hx'. simpl in Hx'. by subst.
  - by rewrite list_to_map_snoc, Hm.
  - apply Forall_app. split; [done|]. by constructor.
Qed.

Lemma silent_ret {A : Type} (a : A) : silent (ret a).
Proof. by intros w. Qed.

Lemma silent_throw {A : Type} (message : string) : silent (throw (A := A) message).
Proof. by intros w. Qed.

Lemma silent_bind {A B : Type} (m : M A) (k : A -> M B) :
  silent m -> (forall a, silent (k a)) -> silent (bind m k).
Proof.
  intros Hm Hk w. specialize (Hm w). unfold bind.
  destruct (m w) as [[a|message] w1]; simpl in *; [|done].
  destruct (Hk a w1) as [-> ->]. done.
Qed.

Lemma silent_ask {B : Type} (prompt suggestedValue : string) (k : string -> M B) :
  (forall v, silent (k v)) ->
  silent (bind (inputCallback callback prompt suggestedValue)
            (fun a => bind (throwIfCancelled a) k)).
Proof.
  intros Hk. apply silent_bind.
  - intros w. by rewrite inputCallback_asked.
  - intros a. apply silent_bind; [|done].
    destruct a as [[|c v]|]; first [apply silent_ret | apply silent_throw].
Qed.

Lemma silent_faithful {A : Type} (m : M A) : silent m -> faithful m.
Proof.
  intros H w Hj. destruct (H w) as [Hw Hm]. split.
  - by apply (journal_same w).
  - exists []. by rewrite app_nil_r.
Qed.

Lemma faithful_bind {A B : Type} (m : M A) (k : A -> M B) :
  faithful m -> (forall a, faithful (k a)) -> faithful (bind m k).
Proof.
  intros Hm Hk w Hj. destruct (Hm w Hj) as [Hj1 He1]. unfold bind.
  destruct (m w) as [[a|message] w1]; simpl in *; [|done].
  destruct (Hk a w1 Hj1) as [Hj2 He2]. split; [done|]. by eapply extends_trans.
Qed.

Lemma silent_processMetricsRelationship relationship fromTypeName toTypeName
  edgeType source counter :
  silent (processMetricsRelationship callback relationship fromTypeName
            toTypeName edgeType source counter).
Proof. apply silent_ask; intros. apply silent_ret. Qed.

Lemma silent_processLogsRelationship relationship fromTypeName toTypeName
  edgeType source counter :
  silent (processLogsRelationship callback relationship fromTypeName
            toTypeName edgeType source counter).
Proof. apply silent_ask; intros. apply silent_ret. Qed.

Lemma silent_relationshipSourcesLoop relationship fromTypeName toTypeName
  edgeType sources st :
  silent (relationshipSourcesLoop callback relationship fromTypeName toTypeName
            edgeType sources st).
Proof.
  revert st. induction sources as [|source sources IH]; intros st; simpl.
  - apply silent_ret.
  - destruct (String.eqb (sourceType source) "Metrics").
    + apply silent_bind; [apply silent_processMetricsRelationship | intros; apply IH].
    + destruct (String.eqb (sourceType source) "Logs"); [|apply IH].
      apply silent_bind; [apply silent_processLogsRelationship | intros; apply IH].
Qed.

(** Resolving a name that the mapping holds is a lookup: the name comes
    back and nothing else happens, no call of the callback in particular. *)
Lemma resolveEndName_mapped role typeName mappedName w :
  typeNameMapping w !! typeName = Some mappedName ->
  mappedName <> EmptyString ->
  resolveEndName callback role typeName w = (Return mappedName, w).
Proof.
  intros Hm Hne. unfold resolveEndName, bind, mapGet. rewrite Hm.
  destruct mappedName; [done|reflexivity].
Qed.

Lemma resolveEndName_unmapped role typeName w :
  truthy (typeNameMapping w !! typeName) = false ->
  resolveEndName callback role typeName w
  = bind (inputCallback callback
            ("Enter new name for " +:+ role +:+ " type " +:+ dq +:+ typeName +:+ dq)
            (suggestNewTypeName typeName))
      (fun userInput =>
         bind (throwIfCancelled userInput)
           (fun userInput => bind (mapSet typeName userInput)
                               (fun _ => ret userInput))) w.
Proof.
  intros Hm. unfold resolveEndName. unfold bind at 1, mapGet.
  by destruct (typeNameMapping w !! typeName) as [[|c v]|].
Qed.

Lemma faithful_resolveEndName role typeName :
  faithful (resolveEndName callback role typeName).
Proof.
  intros w Hj.
  destruct (typeNameMapping w !! typeName) as [mappedName|] eqn:Hm.
  - assert (mappedName <> EmptyString) as Hne.
    { destruct Hj as (Hnd & E & Hv). rewrite E in Hm.
      apply elem_of_list_to_map_2 in Hm.
      rewrite List.Forall_forall in Hv. apply list_elem_of_In in Hm.
      by apply Hv in Hm. }
    rewrite (resolveEndName_mapped _ _ _ _ Hm Hne). simpl.
    split; [done | apply extends_refl].
  - rewrite resolveEndName_unmapped by (by rewrite Hm).
    destruct (bind (inputCallback callback _ _) _ w) as [r w2] eqn:E. simpl.
    apply ask_inv in E as [(v & _ & Hne & E)|(_ & _ & ->)].
    + unfold bind, mapSet, ret in E. injection E as <- <-.
      split; [by apply (journal_set typeName v (asked w _ _)); [apply (journal_same w)|..]|].
      eexists [_]. reflexivity.
    + split; [by apply (journal_same w) | exists []; simpl; by rewrite app_nil_r].
Qed.

Lemma silent_processMetricsSource type newName source rule metrics counter
  withNodeExtraction :
  silent (processMetricsSource callback type newName source rule metrics counter
            withNodeExtraction).
Proof.
  apply silent_ask; intros. destruct (decide _); [apply silent_ret|].
  apply silent_ask; intros. apply silent_ret.
Qed.

Lemma silent_processLogsSource type newName source rule counter
  withNodeExtraction :
  silent (processLogsSource callback type newName source rule counter
            withNodeExtraction).
Proof.
  apply silent_ask; intros. destruct (decide _); [apply silent_ret|].
  apply silent_ask; intros. apply silent_ret.
Qed.

Lemma silent_sourcesLoop type newName rule metrics sources st :
  silent (sourcesLoop callback type newName rule metrics sources st).
Proof.
  revert st. induction sources as [|source sources IH]; intros st; simpl.
  - apply silent_ret.
  - destruct (String.eqb (sourceType source) "Metrics").
    + apply silent_bind; [apply silent_processMetricsSource | intros [? ?]; apply IH].
    + destruct (String.eqb (sourceType source) "Logs"); [|apply IH].
      apply silent_bind; [apply silent_processLogsSource | intros [? ?]; apply IH].
Qed.

Lemma silent_rulesLoop type newName metrics rules st :
  silent (rulesLoop callback type newName metrics rules st).
Proof.
  revert st. induction rules as [|rule rules IH]; intros st; simpl.
  - apply silent_ret.
  - apply silent_bind; [apply silent_sourcesLoop | intros; apply IH].
Qed.

(** A listed type whose name was not written yet: its name is written at
    most once, and nothing else is. *)
Lemma typeStep_journal metrics type st w :
  journal w -> name type ∉ (writes w).*1 ->
  journal (snd (typeStep callback metrics true type st w))
  /\ (writes (snd (typeStep callback metrics true type st w)) = writes w
      \/ exists v, writes (snd (typeStep callback metrics true type st w))
                   = writes w ++ [(name type, v)]).
Proof.
  intros Hj Hfresh.
  destruct (typeStep callback metrics true type st w) as [r w2] eqn:E. simpl.
  unfold typeStep in E.
  apply ask_inv in E as [(v & _ & Hne & E)|(_ & _ & ->)].
  - unfold bind at 1, mapSet in E.
    match type of E with ?m ?w1 = _ =>
      destruct (silent_rulesLoop type v metrics (rules type) st w1) as [Hw Hm];
      rewrite E in Hw, Hm; simpl in Hw, Hm
    end.
    split; [|right; by exists v].
    apply (journal_same (snd (mapSet (name type) v w))); [exact Hw | exact Hm |].
    apply journal_set; [done| |done].
    destruct Hj as (_ & -> & _). by apply not_elem_of_list_to_map.
  - split; [by apply (journal_same w) | by left].
Qed.

Lemma typesLoop_journal metrics types st w :
  journal w -> NoDup (List.map name types) ->
  (forall t, In t types -> name t ∉ (writes w).*1) ->
  journal (snd (typesLoop callback metrics true types st w))
  /\ extends w (snd (typesLoop callback metrics true types st w)).
Proof.
  revert st w. induction types as [|type types IH]; intros st w Hj Hnd Hfresh; simpl.
  - split; [done | apply extends_refl].
  - apply NoDup_cons in Hnd as [Hhead Hnd].
    destruct (typeStep_journal metrics type st w Hj) as [Hj1 Hw1];
      [apply Hfresh; by left|].
    unfold bind.
    destruct (typeStep callback metrics true type st w) as [[st1|message] w1];
      simpl in *.
    + destruct (IH st1 w1 Hj1 Hnd) as [Hj2 He2].
      * intros t Ht. destruct Hw1 as [->|[v ->]]; [apply Hfresh; by right|].
        rewrite fmap_app. simpl. intros Hin.
        apply elem_of_app in Hin as [Hin|Hin].
        -- by apply (Hfresh t); [right|].
        -- apply list_elem_of_singleton in Hin. apply Hhead.
           rewrite <- Hin. apply list_elem_of_In, in_map, Ht.
      * split; [done|]. eapply extends_trans; [|exact He2].
        destruct Hw1 as [E|[v E]]; [exists []; by rewrite app_nil_r | by eexists].
    + split; [done|].
      destruct Hw1 as [E|[v E]]; [exists []; by rewrite app_nil_r | by eexists].
Qed.

Lemma journal_bind {A B : Type} (m : M A) (k : A -> M B) (w : World) :
  journal (snd (m w)) ->
  (forall a w1, journal w1 -> journal (snd (k a w1))) ->
  journal (snd (bind m k w)).
Proof.
  intros Hm Hk. unfold bind. destruct (m w) as [[a|message] w1]; simpl in *; auto.
Qed.

Lemma journal_subseteq (w w' : World) :
  journal w -> journal w' -> extends w w' ->
  typeNameMapping w ⊆ typeNameMapping w'.
Proof.
  intros (Hnd & -> & _) (Hnd' & -> & _) [new E].
  apply map_subseteq_spec. intros k v Hk.
  apply elem_of_list_to_map in Hk; [|done].
  apply elem_of_list_to_map; [done|]. rewrite E. apply elem_of_app. by left.
Qed.

(** *** Unknown relationship types (C2) *)

Lemma ownProperty_None (object : list (string * string)) (k : string) :
  ~ In k (objectKeys object) -> ownProperty object k = None.
Proof.
  induction object as [|[k' v] object IH]; simpl; [done|]. intros H.
  destruct (String.eqb_spec k k') as [->|Hne]; [tauto|]. apply IH. tauto.
Qed.

Lemma listIncludes_false (l : list string) (k : string) :
  ~ In k l -> listIncludes l k = false.
Proof.
  induction l as [|x l IH]; simpl; [done|]. intros H.
  destruct (String.eqb_spec k x) as [->|Hne]; [tauto|]. apply IH. tauto.
Qed.

Lemma getProperty_Undefined (k : string) :
  ~ In k (objectKeys RELATIONSHIP_TYPE_MAPPING) ->
  ~ In k objectPrototypeMembers ->
  getProperty RELATIONSHIP_TYPE_MAPPING k = Undefined.
Proof.
  intros H1 H2. unfold getProperty.
  by rewrite (ownProperty_None _ _ H1), (listIncludes_false _ _ H2).
Qed.

Lemma bind_throw {A B : Type} (m : M A) (k : A -> M B) (w w' : World)
  (message : string) :
  m w = (Throw message, w') -> bind m k w = (Throw message, w').
Proof. unfold bind. by intros ->. Qed.

Lemma bind_return {A B : Type} (m : M A) (k : A -> M B) (w w' : World) (a : A) :
  m w = (Return a, w') -> bind m k w = k a w'.
Proof. unfold bind. by intros ->. Qed.

(** The calls that resolving the name of one end makes: none, or one with
    the prompt for that name. *)
Lemma resolveEndName_calls role typeName w :
  exists new,
    calls (snd (resolveEndName callback role typeName w)) = calls w ++ new
    /\ length new <= 1
    /\ Forall (fun c => call_prompt c = endNamePrompt role typeName) new
    /\ (fst (resolveEndName callback role typeName w) = Throw userCancelled
        \/ exists v, fst (resolveEndName callback role typeName w) = Return v).
Proof.
  destruct (truthy (typeNameMapping w !! typeName)) eqn:Hm.
  - destruct (typeNameMapping w !! typeName) as [[|c v]|] eqn:E; try discriminate.
    rewrite (resolveEndName_mapped _ _ _ _ E) by done.
    exists []. simpl. rewrite app_nil_r. repeat split; [lia|constructor|eauto].
  - rewrite (resolveEndName_unmapped _ _ _ Hm).
    destruct (bind (inputCallback callback _ _) _ w) as [r w2] eqn:E. simpl.
    apply ask_inv in E as [(v & _ & _ & E)|(_ & -> & ->)].
    + unfold bind, mapSet, ret in E. injection E as <- <-. simpl.
      eexists [_]. repeat split; [simpl; lia | by repeat constructor | eauto].
    + eexists [_]. repeat split; [simpl; lia | by repeat constructor | eauto].
Qed.

(** *** The node matcher suggested for [$exists()] (C10) *)

Lemma findMatchingMetric_exists (c : string) (first : MetricMetadata)
  (others : list MetricMetadata) :
  (exists pre post, c = pre +:+ "$exists()" +:+ post) ->
  noOccurrence "$prefix(" ")" c -> noOccurrence "$eq(" ")" c ->
  findMatchingMetric (Some c) (Some (first :: others)) = Some (metric_key first).
Proof.
  intros Hex Hp He. apply includes_true in Hex.
  apply regexCapture_None in Hp, He. unfold findMatchingMetric.
  destruct c as [|a c]; [discriminate|].
  unfold prefixRegex, eqRegex. by rewrite Hp, He, Hex.
Qed.

(** C10, as amended: for a Metrics source whose condition holds
    [$exists()] and neither [$prefix(X)] nor [$eq(X)], handled with a
    catalog whose first metric has the key [K], not empty, for a resolved
    name without node extraction yet: once the entity matcher is answered,
    the callback is asked for the node matcher with the suggestion
    [matchesValue(metric.key, "K")]. *)
Theorem exists_suggests_first_metric (type : TopologyType) (newName : string)
  (source : Source) (rule : Rule) (first : MetricMetadata)
  (others : list MetricMetadata) (counter : nat)
  (withNodeExtraction : gset string) (c entityMatcher : string) (w : World) :
  condition source = Some c ->
  (exists pre post, c = pre +:+ "$exists()" +:+ post) ->
  noOccurrence "$prefix(" ")" c ->
  noOccurrence "$eq(" ")" c ->
  metric_key first <> EmptyString ->
  newName ∉ withNodeExtraction ->
  fst (callback (portState w) (entityMatcherPrompt type)
         (convertConditionToMatcher (Some c))) = Some entityMatcher ->
  entityMatcher <> EmptyString ->
  exists answer,
    last (calls (snd (processMetricsSource callback type newName source rule
                        (Some (first :: others)) counter withNodeExtraction w)))
    = Some {| call_prompt := nodeMatcherPrompt type;
              call_suggestedValue :=
                "matchesValue(metric.key, " +:+ dq +:+ metric_key first +:+ dq +:+ ")";
              call_answer := answer |}.
Proof.
  intros Hc Hex Hp He Hkey Hfresh Hanswer Hne.
  unfold processMetricsSource. rewrite Hc.
  rewrite (ask_answered _ _ entityMatcher) by done.
  rewrite decide_False by done.
  rewrite (findMatchingMetric_exists c first others Hex Hp He).
  destruct (metric_key first) as [|a key] eqn:Ek; [done|].
  unfold bind at 1. rewrite inputCallback_asked.
  eexists. unfold bind.
  match goal with |- context [throwIfCancelled ?a ?w1] =>
    assert (snd (throwIfCancelled a w1) = w1) as Hsame
      by (by destruct a as [[|? ?]|]);
    destruct (throwIfCancelled a w1) as [[v|message] w2]; simpl in Hsame; subst w2
  end; simpl; apply last_snoc.
Qed.

(** *** Runs that reach the relationships *)

(** The text the engine gives to a member inherited from [Object.prototype]. *)
Variable memberText : string -> string.

Lemma obeys_relationshipStep relationship st :
  obeys (relationshipStep callback memberText relationship st).
Proof.
  apply obeys_bind; [apply obeys_resolveEndName | intros fromTypeName].
  apply obeys_bind; [apply obeys_resolveEndName | intros toTypeName].
  apply obeys_bind.
  - destruct (getProperty RELATIONSHIP_TYPE_MAPPING (typeOfRelation relationship))
      as [[|c v]|member|];
      first [apply obeys_ret | apply obeys_throw, unknownRelationshipType_not_cancelled].
  - intros suggestedEdgeType. apply obeys_ask; intros.
    apply obeys_relationshipSourcesLoop.
Qed.

Lemma obeys_relationshipsLoop relationships st :
  obeys (relationshipsLoop callback memberText relationships st).
Proof.
  revert st. induction relationships as [|r relationships IH]; intros st; simpl.
  - apply obeys_ret.
  - apply obeys_bind; [apply obeys_relationshipStep | intros; apply IH].
Qed.

Lemma obeys_createProcessorsFromRelationships relationships :
  obeys (createProcessorsFromRelationships callback memberText relationships).
Proof.
  apply obeys_bind; [apply obeys_relationshipsLoop | intros; apply obeys_ret].
Qed.

Lemma obeys_convertTopologyToOpenPipeline extension :
  obeys (convertTopologyToOpenPipeline callback memberText extension).
Proof.
  unfold convertTopologyToOpenPipeline.
  destruct (topology extension) as [t|]; [|by apply obeys_throw].
  apply obeys_bind; [apply obeys_newMap | intros _].
  apply obeys_bind.
  { destruct (types t); [apply obeys_createProcessorsFromTopology | apply obeys_ret]. }
  intros nodes. apply obeys_bind.
  { destruct (relationships t);
      [apply obeys_createProcessorsFromRelationships | apply obeys_ret]. }
  intros edges. apply obeys_ret.
Qed.

(** C5: in a run of the conversion, when a call of the input callback is
    answered [null], the run ends with the cancellation error: the caller
    gets the error and no processor list. The unanswered call is the last
    call of the run. *)
Theorem cancelled_run_throws (extension : ExtensionStub) (w : World) (c : Call) :
  In c (drop (length (calls w))
          (calls (snd (convertTopologyToOpenPipeline callback memberText extension w)))) ->
  call_answer c = None ->
  fst (convertTopologyToOpenPipeline callback memberText extension w)
  = Throw userCancelled
  /\ last (calls (snd (convertTopologyToOpenPipeline callback memberText extension w)))
     = Some c.
Proof.
  intros Hin Hc.
  destruct (obeys_convertTopologyToOpenPipeline extension w) as (new & E & H).
  rewrite E, drop_app_length in Hin.
  assert (~ answered c) as Hna by (unfold answered; rewrite Hc; discriminate).
  destruct H as [[F _]|(init & c' & -> & F & _ & Hr)].
  - rewrite List.Forall_forall in F. by apply F in Hin.
  - split; [exact Hr|]. rewrite E.
    apply in_app_or in Hin as [Hin|[<-|[]]].
    + rewrite List.Forall_forall in F. by apply F in Hin.
    + by rewrite app_assoc, last_snoc.
Qed.

Lemma faithful_relationshipStep relationship st :
  faithful (relationshipStep callback memberText relationship st).
Proof.
  apply faithful_bind; [apply faithful_resolveEndName | intros fromTypeName].
  apply faithful_bind; [apply faithful_resolveEndName | intros toTypeName].
  apply silent_faithful. apply silent_bind.
  - destruct (getProperty RELATIONSHIP_TYPE_MAPPING (typeOfRelation relationship))
      as [[|c v]|member|]; first [apply silent_ret | apply silent_throw].
  - intros suggestedEdgeType. apply silent_ask; intros.
    apply silent_relationshipSourcesLoop.
Qed.

Lemma faithful_relationshipsLoop relationships st :
  faithful (relationshipsLoop callback memberText relationships st).
Proof.
  revert st. induction relationships as [|r relationships IH]; intros st; simpl.
  - apply silent_faithful, silent_ret.
  - apply faithful_bind; [apply faithful_relationshipStep | intros; apply IH].
Qed.

Lemma faithful_createProcessorsFromRelationships relationships :
  faithful (createProcessorsFromRelationships callback memberText relationships).
Proof.
  apply faithful_bind; [apply faithful_relationshipsLoop|].
  intros; apply silent_faithful, silent_ret.
Qed.

(** *** No binding is overwritten by the relationships *)

Lemma neverOverwritten_same (w w' : World) :
  writes w' = writes w -> typeNameMapping w' = typeNameMapping w ->
  namesNotEmpty (typeNameMapping w) -> neverOverwritten w w'.
Proof.
  intros Hw Hm Hne. unfold neverOverwritten. rewrite Hm, Hw.
  split; [done|]. split; [done|]. exists []. rewrite app_nil_r.
  split; [done|]. split; [constructor|]. intros k v Hin.
  by apply elem_of_nil in Hin.
Qed.

Lemma neverOverwritten_trans (w w1 w2 : World) :
  neverOverwritten w w1 -> neverOverwritten w1 w2 -> neverOverwritten w w2.
Proof.
  intros (Hne1 & Hsub1 & new1 & Hw1 & Hnd1 & Hnew1)
         (Hne2 & Hsub2 & new2 & Hw2 & Hnd2 & Hnew2).
  split; [done|]. split; [by etrans|]. exists (new1 ++ new2).
  split; [by rewrite Hw2, Hw1, app_assoc|]. split.
  - rewrite fmap_app. apply NoDup_app. split; [done|]. split; [|done].
    intros k (kv1 & -> & Hin1)%list_elem_of_fmap (kv2 & Hk & Hin2)%list_elem_of_fmap.
    destruct kv1 as [k1 v1], kv2 as [k2 v2]. cbn [fst] in Hk. subst k2.
    destruct (Hnew1 _ _ Hin1) as (_ & Hthere & _).
    destruct (Hnew2 _ _ Hin2) as (Hfresh & _). congruence.
  - intros k v [Hin|Hin]%elem_of_app.
    + destruct (Hnew1 _ _ Hin) as (Hfresh & Hthere & Hv).
      split; [done|]. split; [by eapply lookup_weaken|done].
    + destruct (Hnew2 _ _ Hin) as (Hfresh & Hthere & Hv).
      split; [by eapply lookup_weaken_None|done].
Qed.

Lemma silent_neverOverwrites {A : Type} (m : M A) : silent m -> neverOverwrites m.
Proof. intros H w Hne. destruct (H w) as [Hw Hm]. by apply neverOverwritten_same. Qed.

Lemma neverOverwrites_bind {A B : Type} (m : M A) (k : A -> M B) :
  neverOverwrites m -> (forall a, neverOverwrites (k a)) ->
  neverOverwrites (bind m k).
Proof.
  intros Hm Hk w Hne. pose proof (Hm w Hne) as H1. unfold bind.
  destruct (m w) as [[a|message] w1]; cbn [snd] in *; [|done].
  eapply neverOverwritten_trans; [exact H1|]. apply Hk. apply H1.
Qed.

Lemma neverOverwrites_resolveEndName role typeName :
  neverOverwrites (resolveEndName callback role typeName).
Proof.
  intros w Hne.
  destruct (typeNameMapping w !! typeName) as [mappedName|] eqn:Hm.
  - assert (mappedName <> EmptyString) as Hv by (by apply Hne in Hm).
    rewrite (resolveEndName_mapped _ _ _ _ Hm Hv). by apply neverOverwritten_same.
  - rewrite resolveEndName_unmapped by (by rewrite Hm).
    destruct (bind (inputCallback callback _ _) _ w) as [r w2] eqn:E. cbn [snd].
    apply ask_inv in E as [(v & _ & Hv & E)|(_ & _ & ->)];
      [|by apply neverOverwritten_same].
    unfold bind, mapSet, ret in E. injection E as <- <-.
    unfold neverOverwritten, asked. cbn [typeNameMapping writes].
    split; [by apply map_Forall_insert_2|]. split; [by apply insert_subseteq|].
    exists [(typeName, v)]. split; [done|].
    split; [apply NoDup_singleton|].
    intros k v' [= -> ->]%list_elem_of_singleton.
    by rewrite lookup_insert_eq.
Qed.

Lemma neverOverwrites_relationshipStep relationship st :
  neverOverwrites (relationshipStep callback memberText relationship st).
Proof.
  apply neverOverwrites_bind; [apply neverOverwrites_resolveEndName|].
  intros fromTypeName.
  apply neverOverwrites_bind; [apply neverOverwrites_resolveEndName|].
  intros toTypeName. apply silent_neverOverwrites. apply silent_bind.
  - destruct (getProperty RELATIONSHIP_TYPE_MAPPING (typeOfRelation relationship))
      as [[|c v]|member|]; first [apply silent_ret | apply silent_throw].
  - intros suggestedEdgeType. apply silent_ask; intros.
    apply silent_relationshipSourcesLoop.
Qed.

Lemma neverOverwrites_relationshipsLoop relationships st :
  neverOverwrites (relationshipsLoop callback memberText relationships st).
Proof.
  revert st. induction relationships as [|r relationships IH]; intros st; simpl.
  - apply silent_neverOverwrites, silent_ret.
  - apply neverOverwrites_bind; [apply neverOverwrites_relationshipStep|].
    intros; apply IH.
Qed.

Lemma neverOverwrites_createProcessorsFromRelationships relationships :
  neverOverwrites
    (createProcessorsFromRelationships callback memberText relationships).
Proof.
  apply neverOverwrites_bind; [apply neverOverwrites_relationshipsLoop|].
  intros; apply silent_neverOverwrites, silent_ret.
Qed.

(** *** The names that the conversion of the types binds *)

Lemma typeStep_namesNotEmpty metrics hasTypeNameMapping type st (w : World) :
  namesNotEmpty (typeNameMapping w) ->
  namesNotEmpty
    (typeNameMapping (snd (typeStep callback metrics hasTypeNameMapping type st w))).
Proof.
  intros Hne.
  destruct (typeStep callback metrics hasTypeNameMapping type st w) as [r w2] eqn:E.
  cbn [snd]. unfold typeStep in E.
  apply ask_inv in E as [(v & _ & Hv & E)|(_ & _ & ->)]; [|done].
  unfold bind at 1 in E.
  destruct hasTypeNameMapping; unfold mapSet, ret in E;
    match type of E with
    | ?m ?w1 = _ =>
        destruct (silent_rulesLoop type v metrics (rules type) st w1) as [_ Hm];
        rewrite E in Hm; cbn [snd typeNameMapping] in Hm
    end; rewrite Hm; [by apply map_Forall_insert_2|done].
Qed.

Lemma typesLoop_namesNotEmpty metrics hasTypeNameMapping types st (w : World) :
  namesNotEmpty (typeNameMapping w) ->
  namesNotEmpty
    (typeNameMapping (snd (typesLoop callback metrics hasTypeNameMapping types st w))).
Proof.
  revert st w. induction types as [|type types IH]; intros st w Hne; [done|].
  cbn [typesLoop]. unfold bind.
  pose proof (typeStep_namesNotEmpty metrics hasTypeNameMapping type st w Hne) as H1.
  destruct (typeStep callback metrics hasTypeNameMapping type st w)
    as [[st1|message] w1]; cbn [snd] in *; [by apply IH|done].
Qed.

Lemma createProcessorsFromTopology_namesNotEmpty types metrics hasTypeNameMapping
  (w : World) :
  namesNotEmpty (typeNameMapping w) ->
  namesNotEmpty
    (typeNameMapping
       (snd (createProcessorsFromTopology callback types metrics
               hasTypeNameMapping w))).
Proof.
  intros Hne. unfold createProcessorsFromTopology, bind.
  match goal with
  | |- context [typesLoop _ _ _ _ ?st0 w] =>
      pose proof (typesLoop_namesNotEmpty metrics hasTypeNameMapping types st0 w Hne)
        as H1;
      destruct (typesLoop callback metrics hasTypeNameMapping types st0 w)
        as [[st1|message] w1]
  end; done.
Qed.

(** *** The calls and the writes of the conversion of the types *)

Lemma processMetricsSource_matcherCalls type newName source rule metrics counter
  withNodeExtraction (w : World) r w' :
  processMetricsSource callback type newName source rule metrics counter
    withNodeExtraction w = (Return r, w') ->
  exists extra, calls w' = calls w ++ extra /\ Forall matcherCall extra.
Proof.
  unfold processMetricsSource. intros H.
  apply ask_inv in H as [(em & _ & _ & H)|(_ & [=] & _)].
  destruct (decide (newName ∈ withNodeExtraction)) as [Hin|Hin].
  - injection H as _ <-. eexists [_]. split; [reflexivity|].
    by repeat constructor.
  - apply ask_inv in H as [(nm & _ & _ & H)|(_ & [=] & _)].
    injection H as _ <-. eexists [_; _].
    split; [unfold asked; cbn [calls]; by rewrite <- app_assoc|].
    by repeat constructor.
Qed.

Lemma processLogsSource_matcherCalls type newName source rule counter
  withNodeExtraction (w : World) r w' :
  processLogsSource callback type newName source rule counter
    withNodeExtraction w = (Return r, w') ->
  exists extra, calls w' = calls w ++ extra /\ Forall matcherCall extra.
Proof.
  unfold processLogsSource. intros H.
  apply ask_inv in H as [(em & _ & _ & H)|(_ & [=] & _)].
  destruct (decide (newName ∈ withNodeExtraction)) as [Hin|Hin].
  - injection H as _ <-. eexists [_]. split; [reflexivity|].
    by repeat constructor.
  - apply ask_inv in H as [(nm & _ & _ & H)|(_ & [=] & _)].
    injection H as _ <-. eexists [_; _].
    split; [unfold asked; cbn [calls]; by rewrite <- app_assoc|].
    by repeat constructor.
Qed.

Lemma sourcesLoop_matcherCalls type newName rule metrics sources st (w : World)
  st' w' :
  sourcesLoop callback type newName rule metrics sources st w = (Return st', w') ->
  exists extra, calls w' = calls w ++ extra /\ Forall matcherCall extra.
Proof.
  revert st w. induction sources as [|source sources IH]; intros st w;
    cbn [sourcesLoop].
  - intros [= _ <-]. exists []. by rewrite app_nil_r.
  - intros H.
    destruct (String.eqb (sourceType source) "Metrics");
      [|destruct (String.eqb (sourceType source) "Logs")]; [| |by apply IH in H].
    + apply bind_inv in H as [([processors seen] & w1 & H1 & H)|(? & _ & [=])].
      apply processMetricsSource_matcherCalls in H1 as (extra1 & Hc1 & F1).
      apply IH in H as (extra & Hc & F).
      exists (extra1 ++ extra). rewrite Hc, Hc1, app_assoc. split; [done|].
      by apply Forall_app.
    + apply bind_inv in H as [([processors seen] & w1 & H1 & H)|(? & _ & [=])].
      apply processLogsSource_matcherCalls in H1 as (extra1 & Hc1 & F1).
      apply IH in H as (extra & Hc & F).
      exists (extra1 ++ extra). rewrite Hc, Hc1, app_assoc. split; [done|].
      by apply Forall_app.
Qed.

Lemma rulesLoop_matcherCalls type newName metrics rules st (w : World) st' w' :
  rulesLoop callback type newName metrics rules st w = (Return st', w') ->
  exists extra, calls w' = calls w ++ extra /\ Forall matcherCall extra.
Proof.
  revert st w. induction rules as [|rule rules IH]; intros st w; cbn [rulesLoop].
  - intros [= _ <-]. exists []. by rewrite app_nil_r.
  - intros H. apply bind_inv in H as [(st1 & w1 & H1 & H)|(? & _ & [=])].
    apply sourcesLoop_matcherCalls in H1 as (extra1 & Hc1 & F1).
    apply IH in H as (extra & Hc & F).
    exists (extra1 ++ extra). rewrite Hc, Hc1, app_assoc. split; [done|].
    by apply Forall_app.
Qed.

Lemma typeStep_calls metrics type st (w : World) st' w' :
  typeStep callback metrics true type st w = (Return st', w') ->
  exists answer extra,
    answer <> EmptyString
    /\ calls w' = calls w ++ nameCall type answer :: extra
    /\ Forall matcherCall extra
    /\ writes w' = writes w ++ [(name type, answer)].
Proof.
  unfold typeStep. intros H.
  apply ask_inv in H as [(answer & Ha & Hne & H)|(_ & [=] & _)].
  unfold bind at 1, mapSet in H.
  match type of H with
  | ?m ?w1 = _ =>
      destruct (silent_rulesLoop type answer metrics (rules type) st w1)
        as [Hwrites _];
      rewrite H in Hwrites; cbn [snd writes] in Hwrites
  end.
  apply rulesLoop_matcherCalls in H as (extra & Hcalls & Hextra).
  exists answer, extra. split; [done|]. split; [|done].
  rewrite Hcalls. unfold asked, nameCall, typeNamePrompt. cbn [calls].
  by rewrite Ha, <- app_assoc.
Qed.

Lemma typesLoop_calls_and_writes metrics types st (w : World) st' w' :
  typesLoop callback metrics true types st w = (Return st', w') ->
  exists blocks : list (string * list Call),
    length blocks = length types
    /\ calls w' = calls w ++ flat_map typeCalls (zip types blocks)
    /\ writes w' = writes w ++ zip (List.map name types) (List.map fst blocks)
    /\ Forall (fun block => block.1 <> EmptyString /\ Forall matcherCall block.2)
         blocks.
Proof.
  revert st w. induction types as [|type types IH]; intros st w; cbn [typesLoop].
  - intros [= _ <-]. exists []. by rewrite !app_nil_r.
  - intros H. apply bind_inv in H as [(st1 & w1 & H1 & H)|(? & _ & [=])].
    apply typeStep_calls in H1 as (answer & extra & Hne & Hcalls1 & Hextra & Hwrites1).
    apply IH in H as (blocks & Hlen & Hcalls & Hwrites & Hblocks).
    exists ((answer, extra) :: blocks). split; [simpl; by rewrite Hlen|].
    split; [|split].
    + rewrite Hcalls, Hcalls1. cbn [zip zip_with flat_map typeCalls fst snd].
      by rewrite <- !app_assoc.
    + rewrite Hwrites, Hwrites1. cbn [List.map zip zip_with fst].
      by rewrite <- !app_assoc.
    + by constructor.
Qed.


(** C9, as amended: in a run of the conversion over topology types with
    pairwise different names, every key of the mapping of type names is
    written once at most, by the conversion of the types and by the
    conversion of the relationships together, so that no binding is
    overwritten, and the mapping at the end of the run (whether it returns
    or throws) holds exactly the written bindings. The conversion of the
    types asks the callback once for every listed type, before the
    matchers of the type, and binds the name of the type to the answer,
    without looking the name up: a name that is listed twice is bound
    twice. Whatever the types are, no name that it binds is empty, and the
    conversion of the relationships, from a mapping without empty name,
    overwrites no binding: it writes only keys that the mapping does not
    hold, each once. So does the conversion of the relationships in
    every run, whatever the types were. A name that the mapping holds is
    resolved by a lookup, with no call of the callback. *)
Theorem typeNameMapping_written_once (extension : ExtensionStub) (t : Topology)
  (w : World) :
  topology extension = Some t ->
  (NoDup (List.map name (default [] (types t))) ->
   NoDup (writes (snd (convertTopologyToOpenPipeline callback memberText extension w))).*1
   /\ typeNameMapping (snd (convertTopologyToOpenPipeline callback memberText extension w))
      = list_to_map
          (writes (snd (convertTopologyToOpenPipeline callback memberText extension w)))
   /\ forall k v,
        typeNameMapping (snd (convertTopologyToOpenPipeline callback memberText extension w))
          !! k = Some v
        <-> (k, v) ∈ writes (snd (convertTopologyToOpenPipeline callback memberText
                                    extension w)))
  /\ (forall listed catalog w0 result w1,
        createProcessorsFromTopology callback listed catalog true w0
        = (Return result, w1) ->
        exists blocks : list (string * list Call),
          length blocks = length listed
          /\ calls w1 = calls w0 ++ flat_map typeCalls (zip listed blocks)
          /\ writes w1
             = writes w0 ++ zip (List.map name listed) (List.map fst blocks)
          /\ Forall (fun block =>
                       block.1 <> EmptyString /\ Forall matcherCall block.2)
               blocks)
  /\ (forall listed catalog w0,
        namesNotEmpty (typeNameMapping w0) ->
        namesNotEmpty
          (typeNameMapping
             (snd (createProcessorsFromTopology callback listed catalog true w0))))
  /\ (forall edges w0,
        namesNotEmpty (typeNameMapping w0) ->
        neverOverwritten w0
          (snd (createProcessorsFromRelationships callback memberText edges w0)))
  /\ (forall edges nodes w1,
        relationships t = Some edges ->
        match types t with
        | Some listed =>
            createProcessorsFromTopology callback listed (metrics extension) true
        | None => ret noProcessors
        end (snd (newMap w)) = (Return nodes, w1) ->
        snd (convertTopologyToOpenPipeline callback memberText extension w)
        = snd (createProcessorsFromRelationships callback memberText edges w1)
        /\ neverOverwritten w1
             (snd (convertTopologyToOpenPipeline callback memberText extension w)))
  /\ (forall role typeName mappedName w0,
        typeNameMapping w0 !! typeName = Some mappedName ->
        mappedName <> EmptyString ->
        resolveEndName callback role typeName w0 = (Return mappedName, w0)).
Proof.
  intros Ht. split; [|split; [|split; [|split; [|split]]]].
  - intros Hnd.
    assert (journal (snd (convertTopologyToOpenPipeline callback memberText extension w)))
      as (H1 & H2 & H3).
    { unfold convertTopologyToOpenPipeline. rewrite Ht.
      change (bind newMap ?k w) with (k tt (snd (newMap w))).
      assert (journal (snd (newMap w))) as Hj0
        by (unfold journal; simpl; repeat split; [apply NoDup_nil_2|constructor]).
      apply journal_bind.
      - destruct (types t) as [listed|]; [|done]. simpl in Hnd.
        unfold createProcessorsFromTopology. apply journal_bind; [|done].
        apply typesLoop_journal; [done|done|].
        intros ? _. simpl. apply not_elem_of_nil.
      - intros nodes w1 Hj1. apply journal_bind; [|done].
        destruct (relationships t) as [listed|]; [|done].
        by apply faithful_createProcessorsFromRelationships. }
    split; [done|]. split; [done|]. intros k v. rewrite H2.
    split; [by apply elem_of_list_to_map_2 | by apply elem_of_list_to_map_1].
  - intros listed catalog w0 result w1 H.
    unfold createProcessorsFromTopology in H.
    apply bind_inv in H as [(st & w2 & Hloop & H)|(? & _ & [=])].
    injection H as _ <-. by apply typesLoop_calls_and_writes in Hloop.
  - intros listed catalog w0. apply createProcessorsFromTopology_namesNotEmpty.
  - intros edges w0.
    apply neverOverwrites_createProcessorsFromRelationships.
  - intros edges nodes w1 Hr Hnodes.
    assert (snd (convertTopologyToOpenPipeline callback memberText extension w)
            = snd (createProcessorsFromRelationships callback memberText
                     edges w1)) as Hrun.
    { unfold convertTopologyToOpenPipeline. rewrite Ht, Hr.
      change (bind newMap ?k w) with (k tt (snd (newMap w))). cbv beta.
      rewrite (bind_return _ _ _ _ _ Hnodes). unfold bind.
      by destruct (createProcessorsFromRelationships callback memberText
                     edges w1) as [[result|message] w2]. }
    split; [exact Hrun|]. rewrite Hrun.
    apply neverOverwrites_createProcessorsFromRelationships.
    assert (namesNotEmpty (typeNameMapping (snd (newMap w)))) as Hstart
      by apply map_Forall_empty.
    destruct (types t) as [listed|].
    + pose proof (createProcessorsFromTopology_namesNotEmpty listed
                    (metrics extension) true (snd (newMap w)) Hstart) as Hne.
      by rewrite Hnodes in Hne.
    + by injection Hnodes as _ <-.
  - intros. by apply resolveEndName_mapped.
Qed.

Lemma relationshipStep_unknown relationship st w :
  getProperty RELATIONSHIP_TYPE_MAPPING (typeOfRelation relationship) = Undefined ->
  exists new,
    calls (snd (relationshipStep callback memberText relationship st w))
    = calls w ++ new
    /\ length new <= 2
    /\ Forall (fun c =>
                 call_prompt c = endNamePrompt "source" (fromType relationship)
                 \/ call_prompt c = endNamePrompt "target" (toType relationship)) new
    /\ (fst (relationshipStep callback memberText relationship st w)
        = Throw (unknownRelationshipType (typeOfRelation relationship))
        \/ fst (relationshipStep callback memberText relationship st w)
           = Throw userCancelled).
Proof.
  intros Hk.
  destruct (relationshipStep callback memberText relationship st w) as [r w'] eqn:E.
  simpl. unfold relationshipStep in E. rewrite Hk in E.
  destruct (resolveEndName_calls "source" (fromType relationship) w)
    as (new1 & E1 & L1 & F1 & R1).
  apply bind_inv in E as [(fromTypeName & w1 & Ef & E)|(message & Ef & ->)];
    rewrite Ef in *; simpl in *.
  2:{ exists new1. repeat split; [done|lia| |].
      - eapply Forall_impl; [exact F1|]. simpl. auto.
      - destruct R1 as [[= ->]|[v [=]]]. by right. }
  destruct (resolveEndName_calls "target" (toType relationship) w1)
    as (new2 & E2 & L2 & F2 & R2).
  apply bind_inv in E as [(toTypeName & w2 & Et & E)|(message & Et & ->)];
    rewrite Et in *; simpl in *.
  - unfold bind, throw in E. injection E as <- <-.
    exists (new1 ++ new2). rewrite E2, E1, app_assoc.
    repeat split; [rewrite length_app; lia| |by left].
    apply Forall_app. split; (eapply Forall_impl; [eassumption|]); simpl; auto.
  - exists (new1 ++ new2). rewrite E2, E1, app_assoc.
    repeat split; [rewrite length_app; lia| |].
    + apply Forall_app. split; (eapply Forall_impl; [eassumption|]); simpl; auto.
    + destruct R2 as [[= ->]|[v [=]]]. by right.
Qed.

Lemma relationshipStep_unknown_throws relationship st w :
  getProperty RELATIONSHIP_TYPE_MAPPING (typeOfRelation relationship) = Undefined ->
  exists message,
    fst (relationshipStep callback memberText relationship st w) = Throw message.
Proof.
  intros Hk. destruct (relationshipStep_unknown relationship st w Hk)
    as (_ & _ & _ & _ & [->| ->]); eauto.
Qed.

Lemma relationshipsLoop_unknown_throws before relationship rest st w :
  getProperty RELATIONSHIP_TYPE_MAPPING (typeOfRelation relationship) = Undefined ->
  exists message,
    fst (relationshipsLoop callback memberText (before ++ relationship :: rest) st w)
    = Throw message.
Proof.
  intros Hk. revert st w. induction before as [|r before IH]; intros st w; simpl.
  - destruct (relationshipStep_unknown_throws relationship st w Hk) as [message E].
    unfold bind.
    destruct (relationshipStep callback memberText relationship st w)
      as [[st1|message1] w1]; simpl in *; [discriminate|eauto].
  - unfold bind.
    destruct (relationshipStep callback memberText r st w) as [[st1|message1] w1];
      simpl; [apply IH | eauto].
Qed.

Lemma createProcessorsFromRelationships_unknown_throws before relationship rest w :
  getProperty RELATIONSHIP_TYPE_MAPPING (typeOfRelation relationship) = Undefined ->
  exists message,
    fst (createProcessorsFromRelationships callback memberText
           (before ++ relationship :: rest) w) = Throw message.
Proof.
  intros Hk. unfold createProcessorsFromRelationships.
  match goal with |- context [relationshipsLoop _ _ _ ?st0] =>
    destruct (relationshipsLoop_unknown_throws before relationship rest st0 w Hk)
      as [message E]
  end.
  unfold bind.
  destruct (relationshipsLoop callback memberText (before ++ relationship :: rest) _ w)
    as [[st1|message1] w1]; simpl in *; [discriminate|eauto].
Qed.

(** Resolving the name of an end, case by case: a lookup when the mapping
    has a name; else one call, whose answer is written to the mapping, or
    the cancellation error when there is no answer. *)
Lemma resolveEndName_cases role typeName w :
  (exists v,
     typeNameMapping w !! typeName = Some v /\ v <> EmptyString
     /\ resolveEndName callback role typeName w = (Return v, w))
  \/ (truthy (typeNameMapping w !! typeName) = false
      /\ exists c w1,
           asking c = (endNamePrompt role typeName, suggestNewTypeName typeName)
           /\ calls w1 = calls w ++ [c]
           /\ ((exists v,
                  call_answer c = Some v /\ v <> EmptyString
                  /\ resolveEndName callback role typeName w = (Return v, w1)
                  /\ typeNameMapping w1 = <[typeName := v]> (typeNameMapping w))
               \/ (truthy (call_answer c) = false
                   /\ resolveEndName callback role typeName w
                      = (Throw userCancelled, w1)
                   /\ typeNameMapping w1 = typeNameMapping w))).
Proof.
  destruct (truthy (typeNameMapping w !! typeName)) eqn:Hm.
  - left. destruct (typeNameMapping w !! typeName) as [[|a v]|] eqn:E;
      try discriminate.
    exists (String a v). split; [done|]. split; [done|].
    by apply resolveEndName_mapped.
  - right. split; [done|]. rewrite resolveEndName_unmapped by done.
    unfold endNamePrompt.
    set (prompt := "Enter new name for " +:+ role +:+ " type " +:+ dq
                     +:+ typeName +:+ dq).
    set (suggested := suggestNewTypeName typeName).
    exists {| call_prompt := prompt; call_suggestedValue := suggested;
              call_answer := fst (callback (portState w) prompt suggested) |}.
    destruct (fst (callback (portState w) prompt suggested)) as [v|] eqn:Ha;
      [destruct v as [|a v]|].
    + exists (asked w prompt suggested). split; [reflexivity|].
      split; [unfold asked; cbn [calls]; by rewrite Ha|]. right.
      split; [done|]. split; [|done].
      unfold bind at 1. by rewrite inputCallback_asked, Ha.
    + exists (snd (mapSet typeName (String a v) (asked w prompt suggested))).
      split; [reflexivity|].
      split; [unfold asked; cbn [calls mapSet snd]; by rewrite Ha|].
      left. exists (String a v). split; [done|]. split; [done|].
      by rewrite (ask_answered _ _ (String a v) _ w Ha).
    + exists (asked w prompt suggested). split; [reflexivity|].
      split; [unfold asked; cbn [calls]; by rewrite Ha|]. right.
      split; [done|]. split; [|done].
      unfold bind at 1. by rewrite inputCallback_asked, Ha.
Qed.

Lemma answered_Some (c : Call) (v : string) :
  call_answer c = Some v -> v <> EmptyString -> answered c.
Proof. unfold answered. intros ->. by destruct v. Qed.

Lemma truthy_Some (v : string) : v <> EmptyString -> truthy (Some v) = true.
Proof. by destruct v. Qed.

(** A relationship of an unknown kind, step by step. *)
Lemma relationshipStep_unknown_exact relationship st w :
  getProperty RELATIONSHIP_TYPE_MAPPING (typeOfRelation relationship) = Undefined ->
  exists message w' new,
    relationshipStep callback memberText relationship st w = (Throw message, w')
    /\ calls w' = calls w ++ new
    /\ ((message = unknownRelationshipType (typeOfRelation relationship)
         /\ List.map asking new = endNamePrompts (typeNameMapping w) relationship
         /\ Forall answered new
         /\ truthy (typeNameMapping w' !! fromType relationship) = true
         /\ truthy (typeNameMapping w' !! toType relationship) = true)
        \/ (message = userCancelled
            /\ (exists init c,
                  new = init ++ [c] /\ Forall answered init
                  /\ truthy (call_answer c) = false)
            /\ List.map asking new
                 `prefix_of` endNamePrompts (typeNameMapping w) relationship)).
Proof.
  intros Hk. unfold relationshipStep, endNamePrompts. rewrite Hk.
  destruct (resolveEndName_cases "source" (fromType relationship) w)
    as [(v & Hm & Hne & E1)
       |(Hf & c1 & w1 & Hask1 & Hc1 & [(v & Ha1 & Hne & E1 & Hm1)|(Hna1 & E1 & Hm1)])].
  - (* the source has a name *)
    rewrite (bind_return _ _ _ _ _ E1), Hm, (truthy_Some v Hne).
    destruct (resolveEndName_cases "target" (toType relationship) w)
      as [(v' & Hm' & Hne' & E2)
         |(Hf' & c2 & w2 & Hask2 & Hc2
           & [(v' & Ha2 & Hne' & E2 & Hm2)|(Hna2 & E2 & Hm2)])].
    + rewrite (bind_return _ _ _ _ _ E2), Hm', (truthy_Some v' Hne').
      eexists _, w, []. split; [reflexivity|]. rewrite app_nil_r.
      split; [done|]. left. rewrite Hm, Hm'.
      by rewrite (truthy_Some v Hne), (truthy_Some v' Hne').
    + assert (fromType relationship <> toType relationship) as Hdiff
        by (intros Heq; rewrite <- Heq, Hm, (truthy_Some v Hne) in Hf'; done).
      rewrite (bind_return _ _ _ _ _ E2), Hf'.
      rewrite (proj2 (String.eqb_neq _ _) Hdiff).
      eexists _, w2, [c2]. split; [reflexivity|]. split; [done|]. left.
      cbn [List.map app orb]. rewrite Hask2, Hm2.
      rewrite lookup_insert_ne by done. rewrite lookup_insert_eq, Hm.
      rewrite (truthy_Some v Hne), (truthy_Some v' Hne').
      repeat split. constructor; [by eapply answered_Some|constructor].
    + rewrite (bind_throw _ _ _ _ _ E2), Hf'.
      eexists _, w2, [c2]. split; [reflexivity|]. split; [done|]. right.
      split; [done|]. split; [by exists [], c2|].
      assert (fromType relationship <> toType relationship) as Hdiff
        by (intros Heq; rewrite <- Heq, Hm, (truthy_Some v Hne) in Hf'; done).
      rewrite (proj2 (String.eqb_neq _ _) Hdiff).
      cbn [List.map app orb]. by rewrite Hask2.
  - (* the source is asked and answered *)
    rewrite (bind_return _ _ _ _ _ E1), Hf.
    destruct (resolveEndName_cases "target" (toType relationship) w1)
      as [(v' & Hm' & Hne' & E2)
         |(Hf' & c2 & w2 & Hask2 & Hc2
           & [(v' & Ha2 & Hne' & E2 & Hm2)|(Hna2 & E2 & Hm2)])].
    + rewrite (bind_return _ _ _ _ _ E2).
      eexists _, w1, [c1]. split; [reflexivity|]. split; [done|]. left.
      split; [done|]. rewrite Hm', (truthy_Some v' Hne'), Hm1, lookup_insert_eq.
      rewrite (truthy_Some v Hne).
      assert (truthy (typeNameMapping w !! toType relationship)
              || String.eqb (fromType relationship) (toType relationship) = true)
        as ->.
      { destruct (String.eqb_spec (fromType relationship) (toType relationship))
          as [Heq|Hdiff]; [apply orb_true_r|].
        rewrite Hm1, lookup_insert_ne in Hm' by done.
        by rewrite Hm', (truthy_Some v' Hne'). }
      cbn [List.map app]. rewrite Hask1. repeat split.
      constructor; [by eapply answered_Some|constructor].
    + assert (fromType relationship <> toType relationship) as Hdiff.
      { intros Heq. rewrite Hm1, <- Heq, lookup_insert_eq in Hf'.
        by rewrite (truthy_Some v Hne) in Hf'. }
      rewrite Hm1, lookup_insert_ne in Hf' by done.
      rewrite (bind_return _ _ _ _ _ E2), Hf'.
      rewrite (proj2 (String.eqb_neq _ _) Hdiff).
      eexists _, w2, [c1; c2]. split; [reflexivity|].
      split; [by rewrite Hc2, Hc1, <- app_assoc|]. left.
      cbn [List.map app orb]. rewrite Hask1, Hask2, Hm2, Hm1.
      rewrite lookup_insert_eq.
      rewrite lookup_insert_ne by done. rewrite lookup_insert_eq.
      rewrite (truthy_Some v Hne), (truthy_Some v' Hne'). repeat split.
      repeat constructor; by eapply answered_Some.
    + assert (fromType relationship <> toType relationship) as Hdiff.
      { intros Heq. rewrite Hm1, <- Heq, lookup_insert_eq in Hf'.
        by rewrite (truthy_Some v Hne) in Hf'. }
      rewrite Hm1, lookup_insert_ne in Hf' by done.
      rewrite (bind_throw _ _ _ _ _ E2), Hf'.
      rewrite (proj2 (String.eqb_neq _ _) Hdiff).
      eexists _, w2, [c1; c2]. split; [reflexivity|].
      split; [by rewrite Hc2, Hc1, <- app_assoc|]. right.
      split; [done|]. split.
      * exists [c1], c2. split; [done|]. split; [|done].
        constructor; [by eapply answered_Some|constructor].
      * cbn [List.map app orb]. by rewrite Hask1, Hask2.
  - (* the source is asked and not answered *)
    rewrite (bind_throw _ _ _ _ _ E1), Hf.
    eexists _, w1, [c1]. split; [reflexivity|]. split; [done|]. right.
    split; [done|]. split; [by exists [], c1|].
    cbn [List.map app]. rewrite Hask1. apply prefix_cons, prefix_nil.
Qed.

Lemma relationshipsLoop_app before after st w :
  relationshipsLoop callback memberText (before ++ after) st w
  = bind (relationshipsLoop callback memberText before st)
      (fun st1 => relationshipsLoop callback memberText after st1) w.
Proof.
  revert st w. induction before as [|r before IH]; intros st w; [done|].
  cbn [app relationshipsLoop]. unfold bind.
  destruct (relationshipStep callback memberText r st w) as [[st1|message] w1];
    [|done].
  rewrite IH. reflexivity.
Qed.

(** C2, as amended: for a relationship whose [typeOfRelation] is outside
    the enumeration (and is not the name of a member that the table
    inherits from [Object.prototype]), reached after the relationships
    before it were converted, the conversion asks the names of the ends
    that the mapping does not hold, the source first, and nothing else:
    neither the edge type nor a matcher. When every name asked is
    answered, and when none had to be asked, the run ends with the
    unknown-relationship-type error, both ends having a name in the
    mapping by then; when a name asked is not answered, the run ends there
    with the cancellation error. A run over a list that holds such a
    relationship always ends with an error and returns no processors. *)
Theorem unknown_relationship_type (relationship : Relationship)
  (before rest : list Relationship) (w w1 : World) (converted : Processors) :
  ~ In (typeOfRelation relationship) (objectKeys RELATIONSHIP_TYPE_MAPPING) ->
  ~ In (typeOfRelation relationship) objectPrototypeMembers ->
  createProcessorsFromRelationships callback memberText before w
  = (Return converted, w1) ->
  (exists message w' new,
     createProcessorsFromRelationships callback memberText
       (before ++ relationship :: rest) w = (Throw message, w')
     /\ calls w' = calls w1 ++ new
     /\ ((message = unknownRelationshipType (typeOfRelation relationship)
          /\ List.map asking new = endNamePrompts (typeNameMapping w1) relationship
          /\ Forall answered new
          /\ truthy (typeNameMapping w' !! fromType relationship) = true
          /\ truthy (typeNameMapping w' !! toType relationship) = true)
         \/ (message = userCancelled
             /\ (exists init c,
                   new = init ++ [c] /\ Forall answered init
                   /\ truthy (call_answer c) = false)
             /\ List.map asking new
                  `prefix_of` endNamePrompts (typeNameMapping w1) relationship)))
  /\ (forall fromTypeName toTypeName,
        typeNameMapping w1 !! fromType relationship = Some fromTypeName ->
        fromTypeName <> EmptyString ->
        typeNameMapping w1 !! toType relationship = Some toTypeName ->
        toTypeName <> EmptyString ->
        createProcessorsFromRelationships callback memberText
          (before ++ relationship :: rest) w
        = (Throw (unknownRelationshipType (typeOfRelation relationship)), w1))
  /\ (forall others w0,
        exists message,
          fst (createProcessorsFromRelationships callback memberText
                 (others ++ relationship :: rest) w0) = Throw message)
  /\ (forall extension t others w0,
        topology extension = Some t ->
        relationships t = Some (others ++ relationship :: rest) ->
        exists message,
          fst (convertTopologyToOpenPipeline callback memberText extension w0)
          = Throw message).
Proof.
  intros H1 H2 Hbefore. pose proof (getProperty_Undefined _ H1 H2) as Hk.
  assert (exists st1,
            relationshipsLoop callback memberText before
              {| edge_metricsProcessors := []; edge_logsProcessors := [];
                 edge_metricsCounter := 0; edge_logsCounter := 0 |} w
            = (Return st1, w1)) as [st1 Hloop].
  { unfold createProcessorsFromRelationships in Hbefore.
    apply bind_inv in Hbefore as [(st1 & w2 & Hloop & Hret)|(? & _ & [=])].
    injection Hret as _ <-. by exists st1. }
  assert (forall message w',
            relationshipStep callback memberText relationship st1 w1
            = (Throw message, w') ->
            createProcessorsFromRelationships callback memberText
              (before ++ relationship :: rest) w = (Throw message, w')) as Hrun.
  { intros message w' E. unfold createProcessorsFromRelationships.
    apply bind_throw. rewrite relationshipsLoop_app.
    rewrite (bind_return _ _ _ _ _ Hloop). cbn [relationshipsLoop].
    by apply bind_throw. }
  split; [|split; [|split]].
  - destruct (relationshipStep_unknown_exact relationship st1 w1 Hk)
      as (message & w' & new & E & Hcalls & Hcases).
    exists message, w', new. split; [by apply Hrun|done].
  - intros fromTypeName toTypeName Hf Hfne Ht Htne. apply Hrun.
    unfold relationshipStep.
    rewrite (bind_return _ _ _ _ _ (resolveEndName_mapped _ _ _ _ Hf Hfne)).
    rewrite (bind_return _ _ _ _ _ (resolveEndName_mapped _ _ _ _ Ht Htne)).
    by rewrite Hk.
  - intros others w0. by apply createProcessorsFromRelationships_unknown_throws.
  - intros extension t others w0 Ht Hr. unfold convertTopologyToOpenPipeline.
    rewrite Ht, Hr. change (bind newMap ?k w0) with (k tt (snd (newMap w0))).
    unfold bind at 1.
    destruct (match types t with
              | Some types => createProcessorsFromTopology callback types (metrics extension) true
              | None => ret noProcessors
              end (snd (newMap w0))) as [[nodes|message] w2]; [|eauto].
    destruct (createProcessorsFromRelationships_unknown_throws others relationship
                rest w2 Hk) as [message E].
    unfold bind.
    destruct (createProcessorsFromRelationships callback memberText
                (others ++ relationship :: rest) w2) as [[edges|message1] w3];
      simpl in *; [discriminate|eauto].
Qed.

End Runs.

(** ** The scenario of the type [custom:com.dynatrace.foo:bar] (C4) *)

Lemma fst_bind {PortState A B : Type} (m : M PortState A) (k : A -> M PortState B)
  (w : World PortState) (a : A) :
  fst (m w) = Return a -> fst (bind m k w) = fst (k a (snd (m w))).
Proof. unfold bind. destruct (m w) as [r w1]; simpl. by intros ->. Qed.

Lemma scenario_node_suggestion (metrics : option (list MetricMetadata)) :
  suggestedNodeMatcher scenarioSource metrics <> EmptyString.
Proof.
  unfold suggestedNodeMatcher.
  by destruct (findMatchingMetric (condition scenarioSource) metrics) as [[|a k]|].
Qed.

Lemma scenario_source (type : TopologyType) (newName : string) (rule : Rule)
  (metrics : option (list MetricMetadata)) (counter : nat)
  (withNodeExtraction : gset string) (w : World unit) :
  newName ∉ withNodeExtraction ->
  fst (processMetricsSource autoInputCallback type newName scenarioSource rule
         metrics counter withNodeExtraction w)
  = Return
      (emitted type newName scenarioSource rule counter withNodeExtraction
         ("matchesValue(metric.key, " +:+ dq +:+ "foo.bar.*" +:+ dq +:+ ")")
         (suggestedNodeMatcher scenarioSource metrics),
       {[ newName ]} ∪ withNodeExtraction).
Proof.
  intros Hfresh. unfold processMetricsSource.
  rewrite (ask_answered autoInputCallback _ _
             ("matchesValue(metric.key, " +:+ dq +:+ "foo.bar.*" +:+ dq +:+ ")"))
    by (reflexivity || discriminate).
  rewrite decide_False by done.
  rewrite (ask_answered autoInputCallback _ _
             (suggestedNodeMatcher scenarioSource metrics))
    by (reflexivity || apply scenario_node_suggestion).
  unfold emitted. by rewrite decide_False by done.
Qed.

(** C4, as amended: the scenario, with the callback that accepts every
    suggestion, returns exactly two Metrics processors and no Logs
    processor: an entity processor with the matcher
    [matchesValue(metric.key, "foo.bar.*")] and a node processor with the
    node type [CUSTOM_COM.DYNATRACE.FOO_BAR], the suggested name of the
    type, each with the one identity component [id], read from the field
    [id]. *)
Theorem scenario_foo_bar (displayName : string)
  (instanceNamePattern : option string)
  (requiredDimensions : option (list RequiredDimension))
  (attributes : option (list Attribute))
  (metrics : option (list MetricMetadata)) (hasTypeNameMapping : bool)
  (w : World unit) :
  exists entity node entityNode nodeNode,
    fst (createProcessorsFromTopology autoInputCallback
           [scenarioType displayName
              (scenarioRule instanceNamePattern requiredDimensions attributes)]
           metrics hasTypeNameMapping w)
    = Return {| metricsProcessors := [entity; node]; logsProcessors := [] |}
    /\ matcher entity = "matchesValue(metric.key, " +:+ dq +:+ "foo.bar.*" +:+ dq +:+ ")"
    /\ smartscapeNode entity = Some entityNode
    /\ extractNode entityNode = false
    /\ smartscapeNode node = Some nodeNode
    /\ extractNode nodeNode = true
    /\ nodeType nodeNode = "CUSTOM_COM.DYNATRACE.FOO_BAR"
    /\ idComponents nodeNode = [ {| idComponent := "id"; referencedFieldName := "id" |} ].
Proof.
  set (rule := scenarioRule instanceNamePattern requiredDimensions attributes).
  set (type := scenarioType displayName rule).
  pose (newName := "CUSTOM_COM.DYNATRACE.FOO_BAR").
  pose (processors :=
          emitted type newName scenarioSource rule 0 ∅
            ("matchesValue(metric.key, " +:+ dq +:+ "foo.bar.*" +:+ dq +:+ ")")
            (suggestedNodeMatcher scenarioSource metrics)).
  assert (fst (createProcessorsFromTopology autoInputCallback [type] metrics
                 hasTypeNameMapping w)
          = Return {| metricsProcessors := processors; logsProcessors := [] |}) as ->.
  { unfold createProcessorsFromTopology. cbn [typesLoop]. unfold typeStep.
    unfold bind at 1 2.
    rewrite (ask_answered autoInputCallback _ _ newName)
      by (reflexivity || discriminate).
    match goal with |- context [bind ?m ?k ?w0] =>
      assert (bind m k w0 = k tt (snd (m w0))) as ->
        by (by destruct hasTypeNameMapping)
    end.
    cbn [rules type scenarioType rulesLoop]. unfold bind at 1.
    cbn [sources rule scenarioRule sourcesLoop].
    change (String.eqb (sourceType scenarioSource) "Metrics") with true.
    cbv iota. unfold bind at 1.
    cbn [metricsCounter logsCounter entityTypesWithNodeExtraction
         node_metricsProcessors node_logsProcessors].
    match goal with |- context [processMetricsSource ?cb ?t ?n ?s ?r ?m ?c ?X ?w0] =>
      pose proof (scenario_source t n r m c X w0 (not_elem_of_empty _)) as Hsrc;
      destruct (processMetricsSource cb t n s r m c X w0) as [res w1] eqn:E
    end.
    simpl in Hsrc. subst res. reflexivity. }
  unfold processors, emitted. rewrite decide_False by set_solver.
  do 4 eexists. split; [reflexivity|]. repeat split; reflexivity.
Qed.

(** C4, counterexample: in the scenario the node type of both processors
    is the suggested name [CUSTOM_COM.DYNATRACE.FOO_BAR] (the name in upper
    case, every [:] replaced by [_]), not [FOO_BAR]. *)
Lemma scenario_node_type_is_not_FOO_BAR :
  suggestNewTypeName "custom:com.dynatrace.foo:bar" = "CUSTOM_COM.DYNATRACE.FOO_BAR"
  /\ (exists result,
        fst (createProcessorsFromTopology autoInputCallback
               [scenarioType "Foo Bar" (scenarioRule None None None)]
               None true (startWorld tt)) = Return result
        /\ List.map (fun p => option_map nodeType (smartscapeNode p))
             (metricsProcessors result)
           = [ Some "CUSTOM_COM.DYNATRACE.FOO_BAR";
               Some "CUSTOM_COM.DYNATRACE.FOO_BAR" ]
        /\ ~ In (Some "FOO_BAR")
               (List.map (fun p => option_map nodeType (smartscapeNode p))
                  (metricsProcessors result ++ logsProcessors result))).
Proof.
  split; [reflexivity|]. eexists. split; [vm_compute; reflexivity|].
  split; [reflexivity|]. simpl. intros [H|[H|[]]]; discriminate.
Qed.

(** ** Examples of the run properties *)

(** C1, witness: the example types; two of them are resolved to
    [CLOUDHUB_ORG]. *)
Lemma one_node_extraction_per_name_witness :
  exists result w',
    createProcessorsFromTopology autoInputCallback exampleTypes None true
      (startWorld tt) = (Return result, w')
    /\ exists names,
         length names = length exampleTypes
         /\ writes w' = writes (startWorld tt) ++ zip (List.map name exampleTypes) names
         /\ forall N,
              countIf (isNodeExtraction N)
                (metricsProcessors result ++ logsProcessors result)
              = (if (0 <? sourcesResolvedTo N (zip exampleTypes names))%nat then 1 else 0)
              /\ countIf (isEntityExtraction N)
                   (metricsProcessors result ++ logsProcessors result)
                 = sourcesResolvedTo N (zip exampleTypes names).
Proof.
  assert (exists result w',
            createProcessorsFromTopology autoInputCallback exampleTypes None true
              (startWorld tt) = (Return result, w')) as (result & w' & E)
    by (eexists _, _; vm_compute; reflexivity).
  exists result, w'.
  exact (conj E (one_node_extraction_per_name autoInputCallback exampleTypes None
                   true (startWorld tt) w' result E)).
Defined.

Example exampleTypes_CLOUDHUB_ORG :
  exists result,
    fst (createProcessorsFromTopology autoInputCallback exampleTypes None true
           (startWorld tt)) = Return result
    /\ countIf (isNodeExtraction "CLOUDHUB_ORG")
         (metricsProcessors result ++ logsProcessors result) = 1
    /\ countIf (isEntityExtraction "CLOUDHUB_ORG")
         (metricsProcessors result ++ logsProcessors result) = 5
    /\ countIf (isNodeExtraction "CLOUDHUB_APP")
         (metricsProcessors result ++ logsProcessors result) = 0.
Proof. eexists. split; [vm_compute; reflexivity|]. repeat split; reflexivity. Qed.

(** C6, witness: the processors of the example types. *)
Lemma idComponents_never_empty_witness :
  exists result w',
    createProcessorsFromTopology autoInputCallback exampleTypes None true
      (startWorld tt) = (Return result, w')
    /\ Forall hasIdentity (metricsProcessors result ++ logsProcessors result).
Proof.
  assert (exists result w',
            createProcessorsFromTopology autoInputCallback exampleTypes None true
              (startWorld tt) = (Return result, w')) as (result & w' & E)
    by (eexists _, _; vm_compute; reflexivity).
  exists result, w'.
  exact (conj E (idComponents_never_empty autoInputCallback exampleTypes None true
                   (startWorld tt) w' result E)).
Defined.


(** C5, witness: a user names the first example type and then cancels
    the prompt for its entity matcher. *)
Lemma cancelled_run_throws_witness :
  fst (convertTopologyToOpenPipeline scriptedCallback exampleMemberText
         exampleExtension (startWorld [Some "ORG"; None]))
  = Throw userCancelled
  /\ last (calls (snd (convertTopologyToOpenPipeline scriptedCallback
                         exampleMemberText exampleExtension
                         (startWorld [Some "ORG"; None]))))
     = Some unansweredCall.
Proof.
  apply (cancelled_run_throws scriptedCallback exampleMemberText exampleExtension
           (startWorld [Some "ORG"; None]) unansweredCall).
  - vm_compute. right. left. reflexivity.
  - reflexivity.
Defined.

(** C9, counterexample: two listed types have the name [a]; the user
    answers [X] for the first and [Y] for the second. The callback is
    called for the second although the mapping holds [a] by then, and the
    binding of [a] to [X] is overwritten: the mapping ends with [Y]. *)
Lemma repeated_type_name_is_rebound :
  writes (snd (convertTopologyToOpenPipeline scriptedCallback exampleMemberText
                 repeatedExtension (startWorld [Some "X"; Some "Y"])))
  = [("a", "X"); ("a", "Y")]
  /\ typeNameMapping
       (snd (convertTopologyToOpenPipeline scriptedCallback exampleMemberText
               repeatedExtension (startWorld [Some "X"; Some "Y"]))) !! "a"
     = Some "Y"
  /\ List.map call_answer
       (calls (snd (convertTopologyToOpenPipeline scriptedCallback
                      exampleMemberText repeatedExtension
                      (startWorld [Some "X"; Some "Y"]))))
     = [Some "X"; Some "Y"].
Proof. repeat split; vm_compute; reflexivity. Qed.

(** C9, witness: the example types have three different names, and the
    relationships of the example end at these types and at one type that
    is not listed, whose name the conversion of the relationships asks
    and writes. *)
Lemma typeNameMapping_written_once_witness :
  topology linkedExtension
  = Some {| types := Some exampleTypes;
            relationships := Some (exampleRelationships ++ [hostRelationship]) |}
  /\ NoDup (writes (snd (convertTopologyToOpenPipeline autoInputCallback
                          exampleMemberText linkedExtension (startWorld tt)))).*1
  /\ writes (snd (convertTopologyToOpenPipeline autoInputCallback
                    exampleMemberText linkedExtension (startWorld tt)))
     = [ ("cloudhub:org", "CLOUDHUB_ORG"); ("cloudhub:app", "CLOUDHUB_APP");
         ("Cloudhub:Org", "CLOUDHUB_ORG"); ("cloudhub:host", "CLOUDHUB_HOST") ].
Proof.
  split; [reflexivity|]. split; [|vm_compute; reflexivity].
  apply (proj1 (typeNameMapping_written_once autoInputCallback exampleMemberText
                  linkedExtension
                  {| types := Some exampleTypes;
                     relationships :=
                       Some (exampleRelationships ++ [hostRelationship]) |}
                  (startWorld tt) eq_refl)).
  apply (bool_decide_unpack _). vm_compute. exact I.
Defined.

(** After a name was listed twice, and so bound twice by the conversion
    of the types, the conversion of the relationships resolves that name
    by a lookup and writes the one name that the mapping lacks. *)
Example relationships_after_a_repeated_name :
  writes (snd (convertTopologyToOpenPipeline scriptedCallback exampleMemberText
                 repeatedLinkedExtension
                 (startWorld [Some "X"; Some "Y"; Some "B"; Some "calls"])))
  = [("a", "X"); ("a", "Y"); ("b", "B")]
  /\ List.map call_prompt
       (calls (snd (convertTopologyToOpenPipeline scriptedCallback
                      exampleMemberText repeatedLinkedExtension
                      (startWorld [Some "X"; Some "Y"; Some "B"; Some "calls"]))))
     = [ typeNamePrompt "a"; typeNamePrompt "a"; endNamePrompt "target" "b";
         "Enter edge type for " +:+ dq +:+ "a" +:+ dq +:+ " → " +:+ dq +:+ "b"
           +:+ dq +:+ " (was CALLS)" ].
Proof. split; vm_compute; reflexivity. Qed.

(** C2, counterexample: with an empty mapping and the callback that
    accepts every suggestion, the relationship of kind [FOLLOWS] makes the
    conversion call the callback twice, for the names of its two ends,
    before it raises the error. A relationship whose kind is
    [constructor], also outside the enumeration, raises no error: the
    table answers with the member that every object inherits. *)
Lemma unknown_type_error_after_name_prompts :
  fst (createProcessorsFromRelationships autoInputCallback exampleMemberText
         [followsRelationship] (startWorld tt))
  = Throw (unknownRelationshipType "FOLLOWS")
  /\ List.map call_prompt
       (calls (snd (createProcessorsFromRelationships autoInputCallback
                      exampleMemberText [followsRelationship] (startWorld tt))))
     = [ endNamePrompt "source" "A"; endNamePrompt "target" "B" ]
  /\ ~ In "constructor" (objectKeys RELATIONSHIP_TYPE_MAPPING)
  /\ fst (createProcessorsFromRelationships autoInputCallback exampleMemberText
            [constructorRelationship] (startWorld tt))
     = Return {| metricsProcessors := []; logsProcessors := [] |}.
Proof.
  split; [vm_compute; reflexivity|]. split; [vm_compute; reflexivity|].
  split; [|vm_compute; reflexivity].
  simpl. intros H. repeat (destruct H as [H|H]; [discriminate|]). destruct H.
Qed.

(** C2, witness: the relationship of kind [FOLLOWS], alone in the list,
    from the empty mapping. *)
Lemma unknown_relationship_type_witness :
  createProcessorsFromRelationships autoInputCallback exampleMemberText []
    (startWorld tt)
  = (Return {| metricsProcessors := []; logsProcessors := [] |}, startWorld tt)
  /\ exists message w' new,
       createProcessorsFromRelationships autoInputCallback exampleMemberText
         ([] ++ followsRelationship :: []) (startWorld tt) = (Throw message, w')
       /\ calls w' = calls (startWorld tt) ++ new
       /\ ((message = unknownRelationshipType (typeOfRelation followsRelationship)
            /\ List.map asking new
               = endNamePrompts (typeNameMapping (startWorld tt))
                   followsRelationship
            /\ Forall answered new
            /\ truthy (typeNameMapping w' !! fromType followsRelationship) = true
            /\ truthy (typeNameMapping w' !! toType followsRelationship) = true)
           \/ (message = userCancelled
               /\ (exists init c,
                     new = init ++ [c] /\ Forall answered init
                     /\ truthy (call_answer c) = false)
               /\ List.map asking new
                    `prefix_of` endNamePrompts (typeNameMapping (startWorld tt))
                                  followsRelationship)).
Proof.
  assert (~ In (typeOfRelation followsRelationship)
            (objectKeys RELATIONSHIP_TYPE_MAPPING)) as H1
    by (simpl; intros H; repeat (destruct H as [H|H]; [discriminate|]); destruct H).
  assert (~ In (typeOfRelation followsRelationship) objectPrototypeMembers) as H2
    by (simpl; intros H; repeat (destruct H as [H|H]; [discriminate|]); destruct H).
  assert (createProcessorsFromRelationships autoInputCallback exampleMemberText []
            (startWorld tt)
          = (Return {| metricsProcessors := []; logsProcessors := [] |},
             startWorld tt)) as Hbefore by reflexivity.
  split; [exact Hbefore|].
  exact (proj1 (unknown_relationship_type autoInputCallback exampleMemberText
                  followsRelationship [] [] (startWorld tt) (startWorld tt) _
                  H1 H2 Hbefore)).
Defined.

(** C10, counterexample: a condition that holds [$exists()] after a
    [$prefix(zz)], and a catalog whose first metric is [cpu]: the node
    matcher is suggested from the prefix [zz], like the entity matcher, as
    no metric of the catalog starts with [zz]. *)
Lemma exists_after_prefix_suggests_the_prefix :
  includes "$prefix(zz)$exists()" "$exists()" = true
  /\ List.map call_suggestedValue
       (calls (snd (processMetricsSource autoInputCallback
                      {| name := "t"; displayName := "T"; rules := [] |} "T"
                      (metricsSource (Some "$prefix(zz)$exists()")) (plainRule [])
                      (Some [ {| metric_key := "cpu" |} ]) 0 ∅ (startWorld tt))))
     = [ "matchesValue(metric.key, " +:+ dq +:+ "zz*" +:+ dq +:+ ")";
         "matchesValue(metric.key, " +:+ dq +:+ "zz*" +:+ dq +:+ ")" ]
  /\ "matchesValue(metric.key, " +:+ dq +:+ "zz*" +:+ dq +:+ ")"
     <> "matchesValue(metric.key, " +:+ dq +:+ "cpu" +:+ dq +:+ ")".
Proof. repeat split; try (vm_compute; reflexivity). discriminate. Qed.

(** C10, witness: the condition [$exists()] and a catalog that starts with
    the metric [cpu.usage]. *)
Lemma exists_suggests_first_metric_witness :
  exists answer,
    last (calls (snd (processMetricsSource autoInputCallback
                        {| name := "t"; displayName := "T"; rules := [] |} "T"
                        (metricsSource (Some "$exists()")) (plainRule [])
                        (Some [ {| metric_key := "cpu.usage" |};
                                {| metric_key := "cpu.idle" |} ])
                        0 ∅ (startWorld tt))))
    = Some {| call_prompt :=
                nodeMatcherPrompt {| name := "t"; displayName := "T"; rules := [] |};
              call_suggestedValue :=
                "matchesValue(metric.key, " +:+ dq +:+ "cpu.usage" +:+ dq +:+ ")";
              call_answer := answer |}.
Proof.
  apply (exists_suggests_first_metric autoInputCallback
           {| name := "t"; displayName := "T"; rules := [] |} "T"
           (metricsSource (Some "$exists()")) (plainRule [])
           {| metric_key := "cpu.usage" |} [ {| metric_key := "cpu.idle" |} ]
           0 ∅ "$exists()" "isNotNull(metric.key)" (startWorld tt)).
  - reflexivity.
  - exists EmptyString, EmptyString. reflexivity.
  - by apply regexCapture_None.
  - by apply regexCapture_None.
  - discriminate.
  - apply not_elem_of_empty.
  - reflexivity.
  - discriminate.
Defined.

(** * Further properties of the conversion *)

(** ** Suggested names and identifiers *)

Lemma mapString_length (f : ascii -> ascii) (s : string) :
  String.length (mapString f s) = String.length s.
Proof. induction s as [|c s IH]; simpl; [done|]. by rewrite IH. Qed.

Lemma mapString_compose (f g : ascii -> ascii) (s : string) :
  mapString g (mapString f s) = mapString (fun c => g (f c)) s.
Proof. induction s as [|c s IH]; simpl; [done|]. by rewrite IH. Qed.

Lemma mapString_ext (f g : ascii -> ascii) (s : string) :
  (forall c, f c = g c) -> mapString f s = mapString g s.
Proof. intros H. induction s as [|c s IH]; simpl; [done|]. by rewrite H, IH. Qed.

Lemma mapString_allChars (f : ascii -> ascii) (P : ascii -> bool) (s : string) :
  (forall c, P (f c) = true) -> allChars P (mapString f s) = true.
Proof. intros H. induction s as [|c s IH]; simpl; [done|]. by rewrite H, IH. Qed.

Lemma suggestNewTypeName_char (c : ascii) :
  let f := fun x => if Ascii.eqb (upperChar x) ":" then "_"%char else upperChar x in
  negb (Ascii.eqb (f c) ":") && negb (isLowerCaseChar (f c)) = true
  /\ f (f c) = f c.
Proof.
  destruct c as [[] [] [] [] [] [] [] []]; vm_compute; split; reflexivity.
Qed.

Lemma suggestNewTypeName_empty (currentName : string) :
  suggestNewTypeName currentName = EmptyString <-> currentName = EmptyString.
Proof. destruct currentName; simpl; split; (done || discriminate). Qed.

Lemma mapString_allChars_impl (f : ascii -> ascii) (P Q : ascii -> bool)
  (s : string) :
  (forall c, P c = true -> Q (f c) = true) ->
  allChars P s = true -> allChars Q (mapString f s) = true.
Proof.
  intros H. induction s as [|c s IH]; simpl; [done|].
  intros [Hc Hs]%andb_prop. by rewrite (H c Hc), IH.
Qed.

Lemma suggestNewTypeName_ascii (c : ascii) :
  (nat_of_ascii c <? 128)%nat = true ->
  (nat_of_ascii (if Ascii.eqb (upperChar c) ":" then "_"%char else upperChar c)
     <? 128)%nat = true.
Proof.
  destruct c as [[] [] [] [] [] [] [] []]; vm_compute; intros H;
    first [reflexivity | discriminate H].
Qed.

(** X1: on ASCII text, as the names of the manifests are, the suggested
    name of a type is ASCII text of the length of the name, holds no [:]
    and no letter in lower case, and is its own suggestion. It is empty
    for the empty name only. *)
Theorem suggestNewTypeName_shape (currentName : string) :
  isAsciiText currentName = true ->
  isAsciiText (suggestNewTypeName currentName) = true
  /\ String.length (suggestNewTypeName currentName) = String.length currentName
  /\ allChars (fun c => negb (Ascii.eqb c ":") && negb (isLowerCaseChar c))
       (suggestNewTypeName currentName) = true
  /\ suggestNewTypeName (suggestNewTypeName currentName)
     = suggestNewTypeName currentName
  /\ (suggestNewTypeName currentName = EmptyString <-> currentName = EmptyString).
Proof.
  intros Hascii. split; [|split; [|split; [|split]]].
  - unfold suggestNewTypeName, replaceAllChar, toUpperCase, isAsciiText.
    rewrite mapString_compose.
    eapply mapString_allChars_impl; [|exact Hascii].
    intros c. apply suggestNewTypeName_ascii.
  - unfold suggestNewTypeName, replaceAllChar, toUpperCase.
    by rewrite !mapString_length.
  - unfold suggestNewTypeName, replaceAllChar, toUpperCase.
    rewrite mapString_compose. apply mapString_allChars. intros c.
    apply suggestNewTypeName_char.
  - unfold suggestNewTypeName, replaceAllChar, toUpperCase.
    rewrite !mapString_compose. apply mapString_ext. intros c.
    apply (suggestNewTypeName_char c).
  - apply suggestNewTypeName_empty.
Qed.

Lemma sanitizeIdComponentName_char (c : ascii) :
  let f := fun x => if Ascii.eqb (lowerChar x) "." then "_"%char else lowerChar x in
  negb (Ascii.eqb (f c) ".") && negb (isUpperCaseChar (f c)) = true
  /\ f (f c) = f c.
Proof.
  destruct c as [[] [] [] [] [] [] [] []]; vm_compute; split; reflexivity.
Qed.

Lemma sanitizeIdComponentName_ascii (c : ascii) :
  (nat_of_ascii c <? 128)%nat = true ->
  (nat_of_ascii (if Ascii.eqb (lowerChar c) "." then "_"%char else lowerChar c)
     <? 128)%nat = true.
Proof.
  destruct c as [[] [] [] [] [] [] [] []]; vm_compute; intros H;
    first [reflexivity | discriminate H].
Qed.

(** X2: on ASCII text, the name of an identity component is ASCII text of
    the length of the field name, holds no [.] and no letter in upper
    case, and sanitising it again changes nothing. *)
Theorem sanitizeIdComponentName_shape (fieldName : string) :
  isAsciiText fieldName = true ->
  isAsciiText (sanitizeIdComponentName fieldName) = true
  /\ String.length (sanitizeIdComponentName fieldName) = String.length fieldName
  /\ allChars (fun c => negb (Ascii.eqb c ".") && negb (isUpperCaseChar c))
       (sanitizeIdComponentName fieldName) = true
  /\ sanitizeIdComponentName (sanitizeIdComponentName fieldName)
     = sanitizeIdComponentName fieldName.
Proof.
  intros Hascii. split; [|split; [|split]].
  - unfold sanitizeIdComponentName, replaceAllChar, toLowerCase, isAsciiText.
    rewrite mapString_compose.
    eapply mapString_allChars_impl; [|exact Hascii].
    intros c. apply sanitizeIdComponentName_ascii.
  - unfold sanitizeIdComponentName, replaceAllChar, toLowerCase.
    by rewrite !mapString_length.
  - unfold sanitizeIdComponentName, replaceAllChar, toLowerCase.
    rewrite mapString_compose. apply mapString_allChars. intros c.
    apply sanitizeIdComponentName_char.
  - unfold sanitizeIdComponentName, replaceAllChar, toLowerCase.
    rewrite !mapString_compose. apply mapString_ext. intros c.
    apply (sanitizeIdComponentName_char c).
Qed.

(** X1, witness: the name of the first example type. *)
Lemma suggestNewTypeName_shape_witness :
  isAsciiText "cloudhub:org" = true
  /\ suggestNewTypeName "cloudhub:org" = "CLOUDHUB_ORG"
  /\ isAsciiText (suggestNewTypeName "cloudhub:org") = true
  /\ String.length (suggestNewTypeName "cloudhub:org")
     = String.length "cloudhub:org".
Proof.
  split; [reflexivity|]. split; [reflexivity|].
  destruct (suggestNewTypeName_shape "cloudhub:org" eq_refl) as (H1 & H2 & _).
  exact (conj H1 H2).
Defined.

(** X2, witness: a field name with a dot and a capital letter. *)
Lemma sanitizeIdComponentName_shape_witness :
  isAsciiText "dt.entity.Host" = true
  /\ sanitizeIdComponentName "dt.entity.Host" = "dt_entity_host"
  /\ isAsciiText (sanitizeIdComponentName "dt.entity.Host") = true
  /\ String.length (sanitizeIdComponentName "dt.entity.Host")
     = String.length "dt.entity.Host".
Proof.
  split; [reflexivity|]. split; [reflexivity|].
  destruct (sanitizeIdComponentName_shape "dt.entity.Host" eq_refl)
    as (H1 & H2 & _).
  exact (conj H1 H2).
Defined.

(** ** Placeholders of a pattern *)

Lemma substring_prefix (X t : string) :
  substring 0 (String.length X) (X +:+ t) = X.
Proof.
  induction X as [|c X IH]; [by destruct t|].
  rewrite append_cons. simpl. by rewrite IH.
Qed.

Lemma slice_1_m1_enclosed (c d : ascii) (X : string) :
  slice_1_m1 (String c (X +:+ String d EmptyString)) = X.
Proof.
  unfold slice_1_m1. cbn [String.length]. rewrite append_length. cbn [String.length].
  replace (S (String.length X + 1) - 2) with (String.length X) by lia.
  destruct X as [|x X]; [reflexivity|].
  change (substring 1 ?n (String c ?s)) with (substring 0 n s).
  apply substring_prefix.
Qed.

Lemma occursAt_after (opener : string) (close : ascii)
  (s pre X rest pre' X' post' : string) :
  occursAt opener close s pre X rest ->
  occursAt opener close rest pre' X' post' ->
  occursAt opener close s
    (pre +:+ opener +:+ X +:+ String close pre') X' post'.
Proof.
  intros (-> & _ & _) (-> & HX & Hc). split; [|done].
  rewrite !append_assoc. do 3 f_equal.
Qed.

Lemma regexMatchAllFuel_In (opener : string) (close : ascii) (n : nat)
  (s m : string) :
  In m (regexMatchAllFuel n opener close s) ->
  exists pre X post,
    m = opener +:+ X +:+ String close EmptyString
    /\ occursAt opener close s pre X post.
Proof.
  revert s. induction n as [|n IH]; intros s; [intros []|].
  simpl. destruct (regexExec opener close s) as [[X rest]|] eqn:E; [|intros []].
  apply regexExec_Some in E as (pre & Hocc & _).
  intros [<-|Hin]; [by exists pre, X, rest|].
  destruct (IH _ Hin) as (pre' & X' & post' & -> & Hocc').
  eexists _, X', post'. split; [done|]. by eapply occursAt_after.
Qed.

Lemma extractIdComponentsFromPattern_In (pattern field : string) :
  In field (extractIdComponentsFromPattern pattern) ->
  exists pre post, occursAt "{" "}" pattern pre field post.
Proof.
  unfold extractIdComponentsFromPattern, regexMatchAll.
  intros (m & <- & Hin)%in_map_iff.
  apply regexMatchAllFuel_In in Hin as (pre & X & post & -> & Hocc).
  exists pre, post. change ("{" +:+ ?s) with (String "{" s).
  by rewrite slice_1_m1_enclosed.
Qed.

Lemma extractIdComponentsFromPattern_nil (pattern : string) :
  extractIdComponentsFromPattern pattern = [] <-> noOccurrence "{" "}" pattern.
Proof.
  unfold extractIdComponentsFromPattern, regexMatchAll.
  rewrite <- regexExec_None. destruct pattern as [|c pattern]; [done|].
  cbn [String.length regexMatchAllFuel].
  destruct (regexExec "{" "}" (String c pattern)) as [[X rest]|]; [|done].
  split; discriminate.
Qed.

Lemma extractFieldNameFromPattern_hd (pattern : string) :
  extractFieldNameFromPattern pattern
  = hd pattern (extractIdComponentsFromPattern pattern).
Proof.
  unfold extractIdComponentsFromPattern, extractFieldNameFromPattern,
    placeholderRegex, regexCapture, regexMatchAll.
  destruct pattern as [|c pattern]; [done|].
  cbn [String.length regexMatchAllFuel].
  destruct (regexExec "{" "}" (String c pattern)) as [[X rest]|]; [|done].
  cbn [map hd]. change ("{" +:+ ?s) with (String "{" s).
  by rewrite slice_1_m1_enclosed.
Qed.

(** X3: every field that [extractIdComponentsFromPattern] returns stands
    between braces in the pattern, is not empty and holds no closing
    brace; the list is empty exactly when the pattern has no placeholder;
    and the field that [extractFieldNameFromPattern] returns is the first
    of the list, or the pattern itself when the list is empty. *)
Theorem placeholders_of_pattern (pattern : string) :
  (forall field, In field (extractIdComponentsFromPattern pattern) ->
     exists pre post, occursAt "{" "}" pattern pre field post)
  /\ (extractIdComponentsFromPattern pattern = []
      <-> noOccurrence "{" "}" pattern)
  /\ extractFieldNameFromPattern pattern
     = hd pattern (extractIdComponentsFromPattern pattern).
Proof.
  split; [apply extractIdComponentsFromPattern_In|].
  split; [apply extractIdComponentsFromPattern_nil|].
  apply extractFieldNameFromPattern_hd.
Qed.

(** ** The node of a node processor *)

Lemma filter_map_comm {A B : Type} (f : A -> B) (p : B -> bool) (l : list A) :
  List.filter p (map f l) = map f (List.filter (fun a => p (f a)) l).
Proof.
  induction l as [|a l IH]; [done|]. simpl. destruct (p (f a)); simpl; by rewrite IH.
Qed.

(** X4: the fields that a node processor extracts are the attributes of the
    rule in their order, without [dt.security_context] and with nothing
    else left out; each one refers to the first placeholder of the
    attribute's pattern; and when no attribute is left the processor has
    no [fieldsToExtract] at all, never an empty list. *)
Theorem fieldsToExtract_of_attributes (type : TopologyType) (newName : string)
  (source : Source) (rule : Rule) (extractNode : bool) (matcher : string)
  (counter : nat) :
  exists node,
    smartscapeNode
      (createSmartscapeNodeProcessor type newName source rule extractNode
         matcher counter) = Some node
    /\ fieldsToExtract node <> Some []
    /\ map fieldName (default [] (fieldsToExtract node))
       = List.filter (fun key => negb (String.eqb key "dt.security_context"))
           (map attr_key (default [] (attributes rule)))
    /\ forall field, In field (default [] (fieldsToExtract node)) ->
         exists attr,
           In attr (default [] (attributes rule))
           /\ fieldName field = attr_key attr
           /\ field_referencedFieldName field
              = hd (pattern attr) (extractIdComponentsFromPattern (pattern attr)).
Proof.
  eexists. split; [reflexivity|]. cbn [fieldsToExtract].
  set (kept := List.filter _ (default [] (attributes rule))).
  assert (forall fields : list FieldToExtract,
    default [] (match fields with [] => None | _ => Some fields end) = fields)
    as Hdefault by (by intros []).
  rewrite Hdefault. split; [by destruct (map _ kept)|]. split.
  - rewrite filter_map_comm, map_map. cbn [fieldName]. f_equal.
    subst kept. apply filter_ext. intros attr. unfold listIncludes, BLOCKED_FIELDS.
    cbn [existsb]. by rewrite orb_false_r.
  - intros field (attr & <- & Hin)%in_map_iff. exists attr.
    apply filter_In in Hin as [Hin _]. split; [done|]. split; [done|].
    cbn [field_referencedFieldName]. apply extractFieldNameFromPattern_hd.
Qed.

(** X5: the identity components of a node processor refer to the placeholders
    of the identity pattern; without any, to the keys of the required
    dimensions; without any again, to the one field made of the type name
    in lower case and [.id]. The name of each component is the sanitised
    name of the field it refers to. *)
Theorem idComponents_of_rule (type : TopologyType) (newName : string)
  (source : Source) (rule : Rule) (extractNode : bool) (matcher : string)
  (counter : nat) :
  let placeholders :=
    match idPattern rule with
    | Some idPattern => extractIdComponentsFromPattern idPattern
    | None => []
    end in
  let keys := map dim_key (default [] (requiredDimensions rule)) in
  exists node,
    smartscapeNode
      (createSmartscapeNodeProcessor type newName source rule extractNode
         matcher counter) = Some node
    /\ map referencedFieldName (idComponents node)
       = match placeholders, keys with
         | _ :: _, _ => placeholders
         | [], _ :: _ => keys
         | [], [] => [toLowerCase (name type) +:+ ".id"]
         end
    /\ Forall (fun component =>
         idComponent component
         = sanitizeIdComponentName (referencedFieldName component))
         (idComponents node).
Proof.
  intros placeholders keys. eexists. split; [reflexivity|].
  cbn [idComponents]. unfold buildIdComponents.
  assert (match idPattern rule with
          | Some (String _ _ as idPattern) =>
              map toIdComponent (extractIdComponentsFromPattern idPattern)
          | _ => []
          end = map toIdComponent placeholders) as ->.
  { subst placeholders. by destruct (idPattern rule) as [[|c p]|]. }
  assert (forall fields, map referencedFieldName (map toIdComponent fields) = fields)
    as Hfields.
  { intros fields. rewrite map_map. cbn [toIdComponent referencedFieldName].
    apply map_id. }
  assert (forall fields, Forall (fun component =>
            idComponent component
            = sanitizeIdComponentName (referencedFieldName component))
            (map toIdComponent fields)) as Hsane.
  { intros fields. apply List.Forall_forall.
    by intros component (field & <- & _)%in_map_iff. }
  assert (forall dims : list RequiredDimension,
            map (fun dim => toIdComponent (dim_key dim)) dims
            = map toIdComponent (map dim_key dims)) as Hdims
    by (intros dims; by rewrite map_map).
  subst keys. destruct placeholders as [|field placeholders].
  - cbn [map]. destruct (requiredDimensions rule) as [[|dim dims]|]; cbn [default].
    + split; [done|]. apply (Hsane [_]).
    + rewrite Hdims. split; [apply Hfields|apply Hsane].
    + split; [done|]. apply (Hsane [_]).
  - split; [apply (Hfields (_ :: _))|].
    destruct (requiredDimensions rule); apply (Hsane (_ :: _)).
Qed.

(** ** The metric found for a condition *)

(** X6: a key that [findMatchingMetric] returns is the key of a metric of the
    catalog, and the condition is not empty. When the condition has a
    [$prefix(...)] the key starts with its first argument; when it has
    none but has an [$eq(...)], the key is its first argument. *)
Theorem findMatchingMetric_found (condition : option string)
  (metrics : option (list MetricMetadata)) (key : string) :
  findMatchingMetric condition metrics = Some key ->
  exists c catalog metric,
    condition = Some c /\ c <> EmptyString
    /\ metrics = Some catalog /\ In metric catalog /\ metric_key metric = key
    /\ (forall prefix, firstOccurrence "$prefix(" ")" c prefix ->
          startsWith key prefix = true)
    /\ (noOccurrence "$prefix(" ")" c ->
        forall value, firstOccurrence "$eq(" ")" c value -> key = value).
Proof.
  unfold findMatchingMetric, prefixRegex, eqRegex.
  destruct condition as [[|c0 c]|]; try discriminate.
  destruct metrics as [[|m ms]|]; try discriminate.
  set (cond := String c0 c). set (catalog := m :: ms).
  destruct (regexCapture "$prefix(" ")" cond) as [prefix|] eqn:Eprefix.
  - destruct (List.find _ catalog) as [found|] eqn:Efind; [|discriminate].
    intros [= <-]. apply find_some in Efind as [Hin Hstarts].
    exists cond, catalog, found. repeat (split; [done|]). split.
    + intros prefix' Hfirst%regexCapture_Some. congruence.
    + intros Hnone%regexCapture_None. congruence.
  - destruct (regexCapture "$eq(" ")" cond) as [exactKey|] eqn:Eeq.
    + destruct (List.find _ catalog) as [found|] eqn:Efind; [|discriminate].
      intros [= <-]. apply find_some in Efind as [Hin Heq%String.eqb_eq].
      exists cond, catalog, found. repeat (split; [done|]). split.
      * intros prefix' Hfirst%regexCapture_Some. congruence.
      * intros _ value Hfirst%regexCapture_Some. congruence.
    + destruct (includes cond "$exists()"); [|discriminate].
      intros [= <-]. exists cond, catalog, m.
      split; [done|]. split; [done|]. split; [done|].
      split; [by left|]. split; [done|]. split.
      * intros prefix' Hfirst%regexCapture_Some. congruence.
      * intros _ value Hfirst%regexCapture_Some. congruence.
Qed.

(** X6, witness: a condition with a prefix and a catalog of two metrics. *)
Lemma findMatchingMetric_found_witness :
  findMatchingMetric (Some "$prefix(cloudhub.)")
    (Some [ {| metric_key := "mulesoft.api" |};
            {| metric_key := "cloudhub.cpu" |} ]) = Some "cloudhub.cpu"
  /\ exists c catalog metric,
       Some "$prefix(cloudhub.)" = Some c /\ c <> EmptyString
       /\ Some [ {| metric_key := "mulesoft.api" |};
                 {| metric_key := "cloudhub.cpu" |} ] = Some catalog
       /\ In metric catalog /\ metric_key metric = "cloudhub.cpu"
       /\ (forall prefix, firstOccurrence "$prefix(" ")" c prefix ->
             startsWith "cloudhub.cpu" prefix = true)
       /\ (noOccurrence "$prefix(" ")" c ->
           forall value, firstOccurrence "$eq(" ")" c value ->
           "cloudhub.cpu" = value).
Proof.
  split; [reflexivity|]. apply findMatchingMetric_found. reflexivity.
Defined.

(** ** The numbers in the identifiers of the processors *)

Lemma hasChar_append (c : ascii) (s t : string) :
  hasChar c (s +:+ t) = hasChar c s || hasChar c t.
Proof.
  induction s as [|x s IH]; [done|]. rewrite append_cons. simpl.
  by rewrite IH, orb_assoc.
Qed.

Lemma pretty_N_go_no_underscore (x : N) (s : string) :
  hasChar "_" s = false -> hasChar "_" (pretty_N_go x s) = false.
Proof.
  revert s. induction (N.lt_wf_0 x) as [x _ IH]; intros s Hs.
  assert (x = 0 \/ 0 < x)%N as [->|Hx] by lia.
  - by rewrite pretty_N_go_0.
  - rewrite pretty_N_go_step by done. apply IH; [by apply N.div_lt|].
    cbn [hasChar]. rewrite Hs, orb_false_r.
    unfold pretty_N_char. by repeat case_match.
Qed.

Lemma pretty_nat_no_underscore (n : nat) : hasChar "_" (pretty n) = false.
Proof.
  unfold pretty, pretty_nat, pretty, pretty_N. case_decide; [done|].
  by apply pretty_N_go_no_underscore.
Qed.

(** What follows the last [c] of a text is determined by the text. *)
Lemma after_last_char (c : ascii) (P P' d d' : string) :
  hasChar c d = false -> hasChar c d' = false ->
  P +:+ String c d = P' +:+ String c d' -> d = d'.
Proof.
  intros Hd Hd'. revert P'. induction P as [|x P IH]; intros [|x' P'].
  - by intros [= ->].
  - change (EmptyString +:+ ?s) with s. rewrite append_cons. intros [= <- ->].
    rewrite hasChar_append in Hd. cbn [hasChar] in Hd.
    rewrite Ascii.eqb_refl, orb_true_r in Hd. discriminate.
  - change (EmptyString +:+ ?s) with s. rewrite append_cons. intros [= -> <-].
    rewrite hasChar_append in Hd'. cbn [hasChar] in Hd'.
    rewrite Ascii.eqb_refl, orb_true_r in Hd'. discriminate.
  - rewrite !append_cons. intros [= _ H]. by apply IH in H.
Qed.

Lemma lookup_map_Some {A B : Type} (f : A -> B) (l : list A) (i : nat) (b : B) :
  map f l !! i = Some b -> exists a, l !! i = Some a /\ b = f a.
Proof.
  revert i. induction l as [|a l IH]; intros [|i]; simpl; try done.
  - intros [= <-]. by exists a.
  - apply IH.
Qed.

Lemma numbered_NoDup (l : list OpenPipelineProcessor) :
  numbered l -> NoDup (map id l).
Proof.
  intros Hl. apply NoDup_alt. intros i j x Hi Hj.
  apply lookup_map_Some in Hi as (p & Hp & ->).
  apply lookup_map_Some in Hj as (q & Hq & Heq).
  apply Hl in Hp as (prefix & Hp). apply Hl in Hq as (prefix' & Hq).
  rewrite Hp, Hq in Heq.
  apply after_last_char in Heq; try apply pretty_nat_no_underscore.
  by apply (inj pretty) in Heq.
Qed.

Lemma numbered_nil : numbered [].
Proof. intros i p. by rewrite lookup_nil. Qed.

Lemma numbered_app (l new : list OpenPipelineProcessor) :
  numbered l ->
  (forall k p, new !! k = Some p ->
     exists prefix, id p = prefix +:+ "_" +:+ pretty (length l + k)) ->
  numbered (l ++ new).
Proof.
  intros Hl Hnew i p Hi. apply lookup_app_Some in Hi as [Hi|[Hle Hi]].
  - by apply Hl.
  - apply Hnew in Hi. by replace (length l + (i - length l)) with i in Hi by lia.
Qed.

Lemma numbered_emitted type newName source rule withNodeExtraction
  entityMatcher nodeMatcher (l : list OpenPipelineProcessor) :
  numbered l ->
  numbered (l ++ emitted type newName source rule (length l) withNodeExtraction
                   entityMatcher nodeMatcher).
Proof.
  intros Hl. apply numbered_app; [done|]. unfold emitted.
  intros [|[|k]] p; cbn [lookup list_lookup].
  - intros [= <-]. rewrite Nat.add_0_r. cbn [createSmartscapeNodeProcessor id].
    eexists. by rewrite <- !append_assoc.
  - destruct (decide _); [done|]. intros [= <-]. rewrite Nat.add_1_r.
    cbn [createSmartscapeNodeProcessor id].
    eexists. by rewrite <- !append_assoc.
  - by destruct (decide _).
Qed.

Section FurtherRuns.

Context {PortState : Type}.
Variable callback : PortState -> string -> string -> option string * PortState.

Local Abbreviation World := (World PortState).
Local Abbreviation M := (M PortState).
Local Abbreviation asked := (asked callback).

Lemma sourcesLoop_counted type newName rule metrics sources st
  (w : World) st' w' :
  sourcesLoop callback type newName rule metrics sources st w = (Return st', w') ->
  counted st -> counted st'.
Proof.
  revert st w. induction sources as [|source sources IH]; intros st w; simpl.
  - by intros [= <- <-].
  - intros H (Hm & Hl & Hnm & Hnl).
    destruct (String.eqb (sourceType source) "Metrics");
      [|destruct (String.eqb (sourceType source) "Logs")].
    + apply bind_inv in H as [([processors seen] & w1 & H1 & H)|(? & _ & [=])].
      apply processMetricsSource_returns in H1 as ((em & nm & ->) & _).
      apply IH in H; [done|].
      repeat split;
        cbn [node_metricsProcessors node_logsProcessors metricsCounter logsCounter];
        try done.
      * rewrite length_app. lia.
      * rewrite Hm. by apply numbered_emitted.
    + apply bind_inv in H as [([processors seen] & w1 & H1 & H)|(? & _ & [=])].
      apply processLogsSource_returns in H1 as ((em & nm & ->) & _).
      apply IH in H; [done|].
      repeat split;
        cbn [node_metricsProcessors node_logsProcessors metricsCounter logsCounter];
        try done.
      * rewrite length_app. lia.
      * rewrite Hl. by apply numbered_emitted.
    + apply IH in H; [done|]. by repeat split.
Qed.

Lemma rulesLoop_counted type newName metrics rules st (w : World) st' w' :
  rulesLoop callback type newName metrics rules st w = (Return st', w') ->
  counted st -> counted st'.
Proof.
  revert st w. induction rules as [|rule rules IH]; intros st w; simpl.
  - by intros [= <- <-].
  - intros H Hst.
    apply bind_inv in H as [(st1 & w1 & H1 & H)|(? & _ & [=])].
    apply sourcesLoop_counted in H1; [|done]. by apply IH in H.
Qed.

Lemma typesLoop_counted metrics hasTypeNameMapping types st (w : World) st' w' :
  typesLoop callback metrics hasTypeNameMapping types st w = (Return st', w') ->
  counted st -> counted st'.
Proof.
  revert st w. induction types as [|type types IH]; intros st w; simpl.
  - by intros [= <- <-].
  - intros H Hst.
    apply bind_inv in H as [(st1 & w1 & H1 & H)|(? & _ & [=])].
    apply IH in H; [done|]. unfold typeStep in H1.
    apply ask_inv in H1 as [(newName & _ & _ & H1)|(_ & [=] & _)].
    apply bind_inv in H1 as [(? & w2 & _ & H1)|(? & _ & [=])].
    by apply rulesLoop_counted in H1.
Qed.

(** X7: in each of the two lists that the conversion of the topology types
    returns, the identifier of the processor at index [i] ends with an
    underscore and the number [i], so that no two processors of a list
    share an identifier. *)
Theorem node_processor_ids_numbered (types : list TopologyType)
  (metrics : option (list MetricMetadata)) (hasTypeNameMapping : bool)
  (w w' : World) (result : Processors) :
  createProcessorsFromTopology callback types metrics hasTypeNameMapping w
  = (Return result, w') ->
  (numbered (metricsProcessors result) /\ NoDup (map id (metricsProcessors result)))
  /\ (numbered (logsProcessors result) /\ NoDup (map id (logsProcessors result))).
Proof.
  unfold createProcessorsFromTopology. intros H.
  apply bind_inv in H as [(st & w1 & H1 & H)|(? & _ & [=])].
  injection H as <- <-. cbn [metricsProcessors logsProcessors].
  apply typesLoop_counted in H1 as (_ & _ & Hm & Hl).
  - split; (split; [done|by apply numbered_NoDup]).
  - repeat split; apply numbered_nil.
Qed.

(** *** The calls of the callback *)

Lemma asked_calls (w : World) (prompt suggestedValue : string) :
  length (calls (asked w prompt suggestedValue)) = S (length (calls w)).
Proof. unfold asked. cbn [calls]. rewrite length_app. simpl. lia. Qed.

Lemma processMetricsSource_calls type newName source rule metrics counter
  withNodeExtraction (w : World) processors withNodeExtraction' w' :
  processMetricsSource callback type newName source rule metrics counter
    withNodeExtraction w = (Return (processors, withNodeExtraction'), w') ->
  length (calls w') = length (calls w) + length processors.
Proof.
  unfold processMetricsSource. intros H.
  apply ask_inv in H as [(em & _ & _ & H)|(_ & [=] & _)].
  destruct (decide (newName ∈ withNodeExtraction)) as [Hin|Hin].
  - injection H as <- <- <-. rewrite asked_calls. simpl. lia.
  - apply ask_inv in H as [(nm & _ & _ & H)|(_ & [=] & _)].
    injection H as <- <- <-. rewrite !asked_calls. simpl. lia.
Qed.

Lemma processLogsSource_calls type newName source rule counter
  withNodeExtraction (w : World) processors withNodeExtraction' w' :
  processLogsSource callback type newName source rule counter
    withNodeExtraction w = (Return (processors, withNodeExtraction'), w') ->
  length (calls w') = length (calls w) + length processors.
Proof.
  unfold processLogsSource. intros H.
  apply ask_inv in H as [(em & _ & _ & H)|(_ & [=] & _)].
  destruct (decide (newName ∈ withNodeExtraction)) as [Hin|Hin].
  - injection H as <- <- <-. rewrite asked_calls. simpl. lia.
  - apply ask_inv in H as [(nm & _ & _ & H)|(_ & [=] & _)].
    injection H as <- <- <-. rewrite !asked_calls. simpl. lia.
Qed.

Lemma sourcesLoop_calls type newName rule metrics sources st (w : World) st' w' :
  sourcesLoop callback type newName rule metrics sources st w = (Return st', w') ->
  length (calls w') + nodeProcessorCount st
  = length (calls w) + nodeProcessorCount st'.
Proof.
  revert st w. induction sources as [|source sources IH]; intros st w; simpl.
  - by intros [= <- <-].
  - intros H.
    destruct (String.eqb (sourceType source) "Metrics");
      [|destruct (String.eqb (sourceType source) "Logs")].
    + apply bind_inv in H as [([processors seen] & w1 & H1 & H)|(? & _ & [=])].
      apply processMetricsSource_calls in H1. apply IH in H.
      unfold nodeProcessorCount in *.
      cbn [node_metricsProcessors node_logsProcessors] in H.
      rewrite length_app in H. lia.
    + apply bind_inv in H as [([processors seen] & w1 & H1 & H)|(? & _ & [=])].
      apply processLogsSource_calls in H1. apply IH in H.
      unfold nodeProcessorCount in *.
      cbn [node_metricsProcessors node_logsProcessors] in H.
      rewrite length_app in H. lia.
    + by apply IH in H.
Qed.

Lemma rulesLoop_calls type newName metrics rules st (w : World) st' w' :
  rulesLoop callback type newName metrics rules st w = (Return st', w') ->
  length (calls w') + nodeProcessorCount st
  = length (calls w) + nodeProcessorCount st'.
Proof.
  revert st w. induction rules as [|rule rules IH]; intros st w; simpl.
  - by intros [= <- <-].
  - intros H.
    apply bind_inv in H as [(st1 & w1 & H1 & H)|(? & _ & [=])].
    apply sourcesLoop_calls in H1. apply IH in H. lia.
Qed.

Lemma typesLoop_calls metrics hasTypeNameMapping types st (w : World) st' w' :
  typesLoop callback metrics hasTypeNameMapping types st w = (Return st', w') ->
  length (calls w') + nodeProcessorCount st
  = length (calls w) + length types + nodeProcessorCount st'.
Proof.
  revert st w. induction types as [|type types IH]; intros st w; simpl.
  - intros [= <- <-]. lia.
  - intros H.
    apply bind_inv in H as [(st1 & w1 & H1 & H)|(? & _ & [=])].
    apply IH in H. unfold typeStep in H1.
    apply ask_inv in H1 as [(newName & _ & _ & H1)|(_ & [=] & _)].
    apply bind_inv in H1 as [(? & w2 & H2 & H1)|(? & _ & [=])].
    apply rulesLoop_calls in H1.
    assert (length (calls w2) = S (length (calls w))) as Hw2.
    { rewrite <- (asked_calls w ("Enter new name for type " +:+ dq +:+ name type +:+ dq)
                   (suggestNewTypeName (name type))).
      destruct hasTypeNameMapping; injection H2 as _ <-; reflexivity. }
    lia.
Qed.

(** X8: a run of the conversion of the topology types that returns has
    called the callback once for every listed type and once for every
    processor it returns, and no more. *)
Theorem node_prompts_counted (types : list TopologyType)
  (metrics : option (list MetricMetadata)) (hasTypeNameMapping : bool)
  (w w' : World) (result : Processors) :
  createProcessorsFromTopology callback types metrics hasTypeNameMapping w
  = (Return result, w') ->
  length (calls w')
  = length (calls w) + length types
    + length (metricsProcessors result) + length (logsProcessors result).
Proof.
  unfold createProcessorsFromTopology. intros H.
  apply bind_inv in H as [(st & w1 & H1 & H)|(? & _ & [=])].
  injection H as <- <-. cbn [metricsProcessors logsProcessors].
  apply typesLoop_calls in H1. unfold nodeProcessorCount in H1.
  cbn [node_metricsProcessors node_logsProcessors length] in H1. lia.
Qed.

(** *** Runs over the relationships *)

Lemma processMetricsRelationship_returns relationship fromTypeName toTypeName
  edgeType source counter (w : World) p w' :
  processMetricsRelationship callback relationship fromTypeName toTypeName
    edgeType source counter w = (Return p, w') ->
  (exists matcher,
     p = createSmartscapeEdgeProcessor fromTypeName toTypeName edgeType matcher
           source counter)
  /\ length (calls w') = S (length (calls w))
  /\ writes w' = writes w /\ typeNameMapping w' = typeNameMapping w.
Proof.
  unfold processMetricsRelationship. intros H.
  apply ask_inv in H as [(matcher & _ & _ & H)|(_ & [=] & _)].
  injection H as <- <-. split; [by eexists|]. by rewrite asked_calls.
Qed.

Lemma processLogsRelationship_returns relationship fromTypeName toTypeName
  edgeType source counter (w : World) p w' :
  processLogsRelationship callback relationship fromTypeName toTypeName
    edgeType source counter w = (Return p, w') ->
  (exists matcher,
     p = createSmartscapeEdgeProcessor fromTypeName toTypeName edgeType matcher
           source counter)
  /\ length (calls w') = S (length (calls w))
  /\ writes w' = writes w /\ typeNameMapping w' = typeNameMapping w.
Proof.
  unfold processLogsRelationship. intros H.
  apply ask_inv in H as [(matcher & _ & _ & H)|(_ & [=] & _)].
  injection H as <- <-. split; [by eexists|]. by rewrite asked_calls.
Qed.

Lemma edgesOf_nil fromTypeName toTypeName edgeType counter :
  edgesOf fromTypeName toTypeName edgeType counter [].
Proof. intros k p. by rewrite lookup_nil. Qed.

Lemma edgesOf_cons fromTypeName toTypeName edgeType counter matcher source new :
  edgesOf fromTypeName toTypeName edgeType (S counter) new ->
  edgesOf fromTypeName toTypeName edgeType counter
    (createSmartscapeEdgeProcessor fromTypeName toTypeName edgeType matcher
       source counter :: new).
Proof.
  intros Hnew [|k] p; cbn [lookup list_lookup].
  - intros [= <-]. rewrite Nat.add_0_r. by eexists _, _.
  - intros Hk. apply Hnew in Hk. by rewrite Nat.add_succ_r.
Qed.

Lemma relationshipSourcesLoop_returns relationship fromTypeName toTypeName
  edgeType sources st (w : World) st' w' :
  relationshipSourcesLoop callback relationship fromTypeName toTypeName
    edgeType sources st w = (Return st', w') ->
  exists newMetrics newLogs,
    edge_metricsProcessors st' = edge_metricsProcessors st ++ newMetrics
    /\ edge_logsProcessors st' = edge_logsProcessors st ++ newLogs
    /\ edge_metricsCounter st' = edge_metricsCounter st + length newMetrics
    /\ edge_logsCounter st' = edge_logsCounter st + length newLogs
    /\ edgesOf fromTypeName toTypeName edgeType (edge_metricsCounter st) newMetrics
    /\ edgesOf fromTypeName toTypeName edgeType (edge_logsCounter st) newLogs
    /\ length newMetrics
       = countIf (fun s => String.eqb (sourceType s) "Metrics") sources
    /\ length newLogs
       = countIf (fun s => String.eqb (sourceType s) "Logs") sources
    /\ length (calls w') = length (calls w) + length newMetrics + length newLogs.
Proof.
  revert st w. induction sources as [|source sources IH]; intros st w;
    cbn [relationshipSourcesLoop].
  - intros [= <- <-]. exists [], []. rewrite !app_nil_r.
    repeat split; try apply edgesOf_nil; simpl; lia.
  - intros H. unfold countIf in *. cbn [List.filter].
    destruct (String.eqb (sourceType source) "Metrics") eqn:Em;
      [|destruct (String.eqb (sourceType source) "Logs") eqn:El].
    + apply String.eqb_eq in Em as Em'. rewrite Em'.
      change (String.eqb "Metrics" "Logs") with false.
      apply bind_inv in H as [(p & w1 & H1 & H)|(? & _ & [=])].
      apply processMetricsRelationship_returns in H1 as ((matcher & ->) & Hc & _).
      apply IH in H as (newMetrics & newLogs & H).
      cbn [edge_metricsProcessors edge_logsProcessors edge_metricsCounter
           edge_logsCounter] in H.
      destruct H as (-> & -> & -> & -> & Hm & Hl & Hcm & Hcl & Hcalls).
      eexists (_ :: newMetrics), newLogs. rewrite <- app_assoc.
      split; [reflexivity|]. split; [reflexivity|]. cbn [length].
      split; [lia|]. split; [lia|]. split; [by apply edgesOf_cons|].
      split; [done|]. repeat split; lia.
    + apply bind_inv in H as [(p & w1 & H1 & H)|(? & _ & [=])].
      apply processLogsRelationship_returns in H1 as ((matcher & ->) & Hc & _).
      apply IH in H as (newMetrics & newLogs & H).
      cbn [edge_metricsProcessors edge_logsProcessors edge_metricsCounter
           edge_logsCounter] in H.
      destruct H as (-> & -> & -> & -> & Hm & Hl & Hcm & Hcl & Hcalls).
      eexists newMetrics, (_ :: newLogs). rewrite <- app_assoc.
      split; [reflexivity|]. split; [reflexivity|]. cbn [length].
      split; [lia|]. split; [lia|]. split; [done|].
      split; [by apply edgesOf_cons|]. repeat split; lia.
    + by apply IH in H.
Qed.

Lemma resolveEndName_returns role typeName (w : World) v w' :
  resolveEndName callback role typeName w = (Return v, w') ->
  length (calls w') + length (writes w) = length (calls w) + length (writes w')
  /\ (namesNotEmpty (typeNameMapping w) ->
      namesNotEmpty (typeNameMapping w')
      /\ typeNameMapping w ⊆ typeNameMapping w'
      /\ typeNameMapping w' !! typeName = Some v).
Proof.
  destruct (typeNameMapping w !! typeName) as [[|c mapped]|] eqn:Hm.
  - rewrite resolveEndName_unmapped by (by rewrite Hm). intros H.
    split; [|intros Hw; by apply Hw in Hm].
    apply ask_inv in H as [(answer & _ & _ & H)|(_ & [=] & _)].
    unfold bind, mapSet, ret in H. injection H as <- <-.
    cbn [calls writes]. rewrite !length_app. simpl. lia.
  - rewrite (resolveEndName_mapped _ _ _ (String c mapped) _ Hm) by done.
    by intros [= <- <-].
  - rewrite resolveEndName_unmapped by (by rewrite Hm). intros H.
    apply ask_inv in H as [(answer & _ & Hne & H)|(_ & [=] & _)].
    unfold bind, mapSet, ret in H. injection H as <- <-.
    cbn [calls writes typeNameMapping].
    split; [rewrite !length_app; simpl; lia|].
    intros Hw. split; [by apply map_Forall_insert_2|].
    split; [by apply insert_subseteq|]. by rewrite lookup_insert_eq.
Qed.

(** The text the engine gives to a member inherited from [Object.prototype]. *)
Variable memberText : string -> string.

Lemma relationshipStep_returns relationship st (w : World) st' w' :
  relationshipStep callback memberText relationship st w = (Return st', w') ->
  exists fromTypeName toTypeName edgeType newMetrics newLogs,
    edge_metricsProcessors st' = edge_metricsProcessors st ++ newMetrics
    /\ edge_logsProcessors st' = edge_logsProcessors st ++ newLogs
    /\ edge_metricsCounter st' = edge_metricsCounter st + length newMetrics
    /\ edge_logsCounter st' = edge_logsCounter st + length newLogs
    /\ edgesOf fromTypeName toTypeName edgeType (edge_metricsCounter st) newMetrics
    /\ edgesOf fromTypeName toTypeName edgeType (edge_logsCounter st) newLogs
    /\ length newMetrics
       = countIf (fun s => String.eqb (sourceType s) "Metrics")
           (rel_sources relationship)
    /\ length newLogs
       = countIf (fun s => String.eqb (sourceType s) "Logs")
           (rel_sources relationship)
    /\ length (calls w') + length (writes w)
       = length (calls w) + length (writes w') + 1
         + length newMetrics + length newLogs
    /\ (namesNotEmpty (typeNameMapping w) ->
        namesNotEmpty (typeNameMapping w')
        /\ typeNameMapping w ⊆ typeNameMapping w'
        /\ typeNameMapping w' !! fromType relationship = Some fromTypeName
        /\ typeNameMapping w' !! toType relationship = Some toTypeName).
Proof.
  unfold relationshipStep. intros H.
  apply bind_inv in H as [(fromTypeName & w1 & H1 & H)|(? & _ & [=])].
  apply bind_inv in H as [(toTypeName & w2 & H2 & H)|(? & _ & [=])].
  apply bind_inv in H as [(suggested & w3 & H3 & H)|(? & _ & [=])].
  assert (w3 = w2) as ->.
  { destruct (getProperty _ _) as [[|c v]|member|]; by injection H3 as _ <-. }
  apply ask_inv in H as [(edgeType & _ & _ & H)|(_ & [=] & _)].
  lazymatch type of H with
  | relationshipSourcesLoop _ _ _ _ _ _ _ ?asking = _ =>
      pose proof (silent_relationshipSourcesLoop callback relationship
                    fromTypeName toTypeName edgeType (rel_sources relationship)
                    st asking) as [Hwrites Hmapping]
  end.
  rewrite H in Hwrites, Hmapping. cbn [snd asked writes typeNameMapping] in *.
  apply relationshipSourcesLoop_returns in H
    as (newMetrics & newLogs & Hm & Hl & Hcm & Hcl & Hem & Hel & Hnm & Hnl & Hcalls).
  rewrite asked_calls in Hcalls.
  apply resolveEndName_returns in H1 as [Hc1 Hw1].
  apply resolveEndName_returns in H2 as [Hc2 Hw2].
  exists fromTypeName, toTypeName, edgeType, newMetrics, newLogs.
  do 8 (split; [done|]). split; [rewrite Hwrites; lia|].
  intros Hw. destruct (Hw1 Hw) as (Hne1 & Hsub1 & Hfrom).
  destruct (Hw2 Hne1) as (Hne2 & Hsub2 & Hto). rewrite Hmapping.
  split; [done|]. split; [by etrans|]. split; [|done].
  by eapply lookup_weaken.
Qed.

Lemma edgesOf_numbered fromTypeName toTypeName edgeType new
  (l : list OpenPipelineProcessor) :
  numbered l -> edgesOf fromTypeName toTypeName edgeType (length l) new ->
  numbered (l ++ new).
Proof.
  intros Hl Hnew. apply numbered_app; [done|].
  intros k p (matcher & source & ->)%Hnew.
  cbn [createSmartscapeEdgeProcessor id]. eexists. by rewrite <- !append_assoc.
Qed.

Lemma edgesOf_connects fromTypeName toTypeName edgeType counter new
  (m : gmap string string) relationship relationships :
  edgesOf fromTypeName toTypeName edgeType counter new ->
  m !! fromType relationship = Some fromTypeName ->
  m !! toType relationship = Some toTypeName ->
  In relationship relationships ->
  Forall (connects m relationships) new.
Proof.
  intros Hnew Hfrom Hto Hin. apply Forall_lookup.
  intros k p (matcher & source & ->)%Hnew.
  eexists relationship, _. split; [done|]. split; [reflexivity|]. by split.
Qed.

Lemma connects_weaken (m m' : gmap string string) relationships relationships' p :
  m ⊆ m' -> (forall r, In r relationships -> In r relationships') ->
  connects m relationships p -> connects m' relationships' p.
Proof.
  intros Hsub Hin (relationship & edge & Hr & Hp & Hfrom & Hto).
  exists relationship, edge. split; [by apply Hin|]. split; [done|].
  split; by eapply lookup_weaken.
Qed.

Lemma relationshipsLoop_returns relationships st (w : World) st' w' :
  relationshipsLoop callback memberText relationships st w = (Return st', w') ->
  exists newMetrics newLogs,
    edge_metricsProcessors st' = edge_metricsProcessors st ++ newMetrics
    /\ edge_logsProcessors st' = edge_logsProcessors st ++ newLogs
    /\ (edgesCounted st -> edgesCounted st')
    /\ length newMetrics = edgeSourceCount "Metrics" relationships
    /\ length newLogs = edgeSourceCount "Logs" relationships
    /\ length (calls w') + length (writes w)
       = length (calls w) + length (writes w') + length relationships
         + length newMetrics + length newLogs
    /\ (namesNotEmpty (typeNameMapping w) ->
        namesNotEmpty (typeNameMapping w')
        /\ typeNameMapping w ⊆ typeNameMapping w'
        /\ Forall (connects (typeNameMapping w') relationships)
             (newMetrics ++ newLogs)).
Proof.
  revert st w. induction relationships as [|r relationships IH]; intros st w;
    cbn [relationshipsLoop].
  - intros [= <- <-]. exists [], []. rewrite !app_nil_r.
    do 5 (split; [done|]). split; [simpl; lia|].
    intros Hw. split; [done|]. split; [done|]. constructor.
  - intros H. apply bind_inv in H as [(st1 & w1 & H1 & H)|(? & _ & [=])].
    apply relationshipStep_returns in H1
      as (fromTypeName & toTypeName & edgeType & newMetrics & newLogs
          & Hm & Hl & Hcm & Hcl & Hem & Hel & Hnm & Hnl & Hcalls & Hnames).
    apply IH in H
      as (newMetrics' & newLogs' & Hm' & Hl' & Hcounted & Hnm' & Hnl' & Hcalls'
          & Hnames').
    exists (newMetrics ++ newMetrics'), (newLogs ++ newLogs').
    split; [by rewrite Hm', Hm, app_assoc|].
    split; [by rewrite Hl', Hl, app_assoc|]. split.
    { intros (Ecm & Ecl & Hnumm & Hnuml). apply Hcounted.
      split; [rewrite Hcm, Hm, length_app; lia|].
      split; [rewrite Hcl, Hl, length_app; lia|].
      rewrite Hm, Hl. rewrite Ecm in Hem. rewrite Ecl in Hel.
      split; by eapply edgesOf_numbered. }
    unfold edgeSourceCount in *. cbn [List.map length].
    change (list_sum (?a :: ?l)) with (a + list_sum l).
    rewrite !length_app. split; [lia|]. split; [lia|]. split; [lia|].
    intros Hw. destruct (Hnames Hw) as (Hne1 & Hsub1 & Hfrom & Hto).
    destruct (Hnames' Hne1) as (Hne' & Hsub' & Hconn').
    split; [done|]. split; [by etrans|].
    apply Forall_app in Hconn' as [Hcm' Hcl'].
    assert (forall new counter,
              edgesOf fromTypeName toTypeName edgeType counter new ->
              Forall (connects (typeNameMapping w') (r :: relationships)) new)
      as Hhere.
    { intros new counter Hnew. eapply edgesOf_connects; [exact Hnew|..].
      - by eapply lookup_weaken.
      - by eapply lookup_weaken.
      - by left. }
    assert (forall new,
              Forall (connects (typeNameMapping w') relationships) new ->
              Forall (connects (typeNameMapping w') (r :: relationships)) new)
      as Hlater.
    { intros new Hnew. eapply Forall_impl; [exact Hnew|]. intros p.
      apply connects_weaken; [done|]. intros; by right. }
    repeat (apply Forall_app; split); eauto.
Qed.

(** X9: in each of the two lists that the conversion of the relationships
    returns, the identifier of the processor at index [i] ends with an
    underscore and the number [i], so that no two processors of a list
    share an identifier. *)
Theorem edge_processor_ids_numbered (relationships : list Relationship)
  (w w' : World) (result : Processors) :
  createProcessorsFromRelationships callback memberText relationships w
  = (Return result, w') ->
  (numbered (metricsProcessors result) /\ NoDup (map id (metricsProcessors result)))
  /\ (numbered (logsProcessors result) /\ NoDup (map id (logsProcessors result))).
Proof.
  unfold createProcessorsFromRelationships. intros H.
  apply bind_inv in H as [(st & w1 & H1 & H)|(? & _ & [=])].
  injection H as <- <-. cbn [metricsProcessors logsProcessors].
  apply relationshipsLoop_returns in H1 as (_ & _ & _ & _ & Hcounted & _).
  destruct Hcounted as (_ & _ & Hm & Hl).
  - repeat split; apply numbered_nil.
  - split; (split; [done|by apply numbered_NoDup]).
Qed.

(** X10: the conversion of the relationships returns one Metrics processor
    for every source of kind [Metrics] of the relationships and one Logs
    processor for every source of kind [Logs]; a source of another kind
    gives no processor. *)
Theorem edge_processor_per_source (relationships : list Relationship)
  (w w' : World) (result : Processors) :
  createProcessorsFromRelationships callback memberText relationships w
  = (Return result, w') ->
  length (metricsProcessors result) = edgeSourceCount "Metrics" relationships
  /\ length (logsProcessors result) = edgeSourceCount "Logs" relationships.
Proof.
  unfold createProcessorsFromRelationships. intros H.
  apply bind_inv in H as [(st & w1 & H1 & H)|(? & _ & [=])].
  injection H as <- <-. cbn [metricsProcessors logsProcessors].
  apply relationshipsLoop_returns in H1
    as (newMetrics & newLogs & -> & -> & _ & <- & <- & _).
  done.
Qed.

(** X11: a run of the conversion of the relationships that returns has
    called the callback once for every name it wrote to the mapping, once
    for every relationship (its edge type) and once for every processor it
    returns, and no more. *)
Theorem edge_prompts_counted (relationships : list Relationship)
  (w w' : World) (result : Processors) :
  createProcessorsFromRelationships callback memberText relationships w
  = (Return result, w') ->
  length (calls w') + length (writes w)
  = length (calls w) + length (writes w') + length relationships
    + length (metricsProcessors result) + length (logsProcessors result).
Proof.
  unfold createProcessorsFromRelationships. intros H.
  apply bind_inv in H as [(st & w1 & H1 & H)|(? & _ & [=])].
  injection H as <- <-. cbn [metricsProcessors logsProcessors].
  apply relationshipsLoop_returns in H1
    as (newMetrics & newLogs & -> & -> & _ & _ & _ & Hcalls & _).
  done.
Qed.

(** X12: when no name of the mapping is empty at the start, a run of the
    conversion of the relationships that returns keeps every binding of
    the mapping, leaves no empty name in it, and every processor it
    returns is an edge between the names that the mapping has at the end
    for the two ends of one of the relationships. *)
Theorem edge_ends_are_mapped (relationships : list Relationship)
  (w w' : World) (result : Processors) :
  namesNotEmpty (typeNameMapping w) ->
  createProcessorsFromRelationships callback memberText relationships w
  = (Return result, w') ->
  namesNotEmpty (typeNameMapping w')
  /\ typeNameMapping w ⊆ typeNameMapping w'
  /\ Forall (connects (typeNameMapping w') relationships)
       (metricsProcessors result ++ logsProcessors result).
Proof.
  unfold createProcessorsFromRelationships. intros Hw H.
  apply bind_inv in H as [(st & w1 & H1 & H)|(? & _ & [=])].
  injection H as <- <-. cbn [metricsProcessors logsProcessors].
  apply relationshipsLoop_returns in H1
    as (newMetrics & newLogs & -> & -> & _ & _ & _ & _ & Hnames).
  by apply Hnames.
Qed.

End FurtherRuns.

(** X7, witness: the example types, with the suggestions taken. *)
Lemma node_processor_ids_numbered_witness :
  exists result w',
    createProcessorsFromTopology autoInputCallback exampleTypes None true
      (startWorld tt) = (Return result, w')
    /\ (numbered (metricsProcessors result)
        /\ NoDup (map id (metricsProcessors result)))
    /\ (numbered (logsProcessors result)
        /\ NoDup (map id (logsProcessors result))).
Proof.
  assert (exists result w',
            createProcessorsFromTopology autoInputCallback exampleTypes None true
              (startWorld tt) = (Return result, w')) as (result & w' & E)
    by (eexists _, _; vm_compute; reflexivity).
  exists result, w'.
  exact (conj E (node_processor_ids_numbered autoInputCallback exampleTypes None
                   true (startWorld tt) w' result E)).
Defined.

(** X8, witness: the example types, with the suggestions taken. *)
Lemma node_prompts_counted_witness :
  exists result w',
    createProcessorsFromTopology autoInputCallback exampleTypes None true
      (startWorld tt) = (Return result, w')
    /\ length (calls w')
       = length (calls (startWorld tt)) + length exampleTypes
         + length (metricsProcessors result) + length (logsProcessors result).
Proof.
  assert (exists result w',
            createProcessorsFromTopology autoInputCallback exampleTypes None true
              (startWorld tt) = (Return result, w')) as (result & w' & E)
    by (eexists _, _; vm_compute; reflexivity).
  exists result, w'.
  exact (conj E (node_prompts_counted autoInputCallback exampleTypes None
                   true (startWorld tt) w' result E)).
Defined.

(** X9, witness: the example relationships, with the suggestions taken. *)
Lemma edge_processor_ids_numbered_witness :
  exists result w',
    createProcessorsFromRelationships autoInputCallback exampleMemberText
      exampleRelationships (startWorld tt) = (Return result, w')
    /\ (numbered (metricsProcessors result)
        /\ NoDup (map id (metricsProcessors result)))
    /\ (numbered (logsProcessors result)
        /\ NoDup (map id (logsProcessors result))).
Proof.
  assert (exists result w',
            createProcessorsFromRelationships autoInputCallback exampleMemberText
              exampleRelationships (startWorld tt) = (Return result, w'))
    as (result & w' & E) by (eexists _, _; vm_compute; reflexivity).
  exists result, w'.
  exact (conj E (edge_processor_ids_numbered autoInputCallback exampleMemberText
                   exampleRelationships (startWorld tt) w' result E)).
Defined.

(** X10, witness: the example relationships, with the suggestions taken. *)
Lemma edge_processor_per_source_witness :
  exists result w',
    createProcessorsFromRelationships autoInputCallback exampleMemberText
      exampleRelationships (startWorld tt) = (Return result, w')
    /\ length (metricsProcessors result)
       = edgeSourceCount "Metrics" exampleRelationships
    /\ length (logsProcessors result)
       = edgeSourceCount "Logs" exampleRelationships.
Proof.
  assert (exists result w',
            createProcessorsFromRelationships autoInputCallback exampleMemberText
              exampleRelationships (startWorld tt) = (Return result, w'))
    as (result & w' & E) by (eexists _, _; vm_compute; reflexivity).
  exists result, w'.
  exact (conj E (edge_processor_per_source autoInputCallback exampleMemberText
                   exampleRelationships (startWorld tt) w' result E)).
Defined.

(** X11, witness: the example relationships, with the suggestions taken. *)
Lemma edge_prompts_counted_witness :
  exists result w',
    createProcessorsFromRelationships autoInputCallback exampleMemberText
      exampleRelationships (startWorld tt) = (Return result, w')
    /\ length (calls w') + length (writes (startWorld tt))
       = length (calls (startWorld tt)) + length (writes w')
         + length exampleRelationships
         + length (metricsProcessors result) + length (logsProcessors result).
Proof.
  assert (exists result w',
            createProcessorsFromRelationships autoInputCallback exampleMemberText
              exampleRelationships (startWorld tt) = (Return result, w'))
    as (result & w' & E) by (eexists _, _; vm_compute; reflexivity).
  exists result, w'.
  exact (conj E (edge_prompts_counted autoInputCallback exampleMemberText
                   exampleRelationships (startWorld tt) w' result E)).
Defined.

(** X12, witness: the example relationships from the empty mapping, with
    the suggestions taken. *)
Lemma edge_ends_are_mapped_witness :
  namesNotEmpty (typeNameMapping (startWorld tt))
  /\ exists result w',
       createProcessorsFromRelationships autoInputCallback exampleMemberText
         exampleRelationships (startWorld tt) = (Return result, w')
       /\ namesNotEmpty (typeNameMapping w')
       /\ typeNameMapping (startWorld tt) ⊆ typeNameMapping w'
       /\ Forall (connects (typeNameMapping w') exampleRelationships)
            (metricsProcessors result ++ logsProcessors result).
Proof.
  assert (namesNotEmpty (typeNameMapping (startWorld tt))) as Hw
    by apply map_Forall_empty.
  split; [exact Hw|].
  assert (exists result w',
            createProcessorsFromRelationships autoInputCallback exampleMemberText
              exampleRelationships (startWorld tt) = (Return result, w'))
    as (result & w' & E) by (eexists _, _; vm_compute; reflexivity).
  exists result, w'.
  exact (conj E (edge_ends_are_mapped autoInputCallback exampleMemberText
                   exampleRelationships (startWorld tt) w' result Hw E)).
Defined.

(** ** Runs with the suggestions taken *)

Lemma append_eq_empty (s t : string) :
  s +:+ t = EmptyString -> s = EmptyString /\ t = EmptyString.
Proof. destruct s; [done|]. by rewrite append_cons. Qed.

Lemma convertConditionToMatcher_not_empty (condition : option string) :
  convertConditionToMatcher condition <> EmptyString.
Proof.
  unfold convertConditionToMatcher.
  destruct condition as [[|c condition]|]; [done| |done].
  repeat case_match; try done; by intros [[=] _]%append_eq_empty.
Qed.

Lemma dimensionCondition_not_empty (dim : RequiredDimension) :
  dimensionCondition dim <> EmptyString.
Proof.
  unfold dimensionCondition.
  repeat case_match;
    first [ by intros [[=] _]%append_eq_empty
          | by intros [_ [[=] _]%append_eq_empty]%append_eq_empty ].
Qed.

Lemma convertRequiredDimensionsToMatcher_not_empty
  (requiredDimensions : option (list RequiredDimension)) :
  convertRequiredDimensionsToMatcher requiredDimensions <> EmptyString.
Proof.
  unfold convertRequiredDimensionsToMatcher.
  destruct requiredDimensions as [[|dim dims]|]; [done| |done].
  cbn [map String.concat]. destruct (map dimensionCondition dims).
  - apply dimensionCondition_not_empty.
  - intros [H _]%append_eq_empty. by apply dimensionCondition_not_empty in H.
Qed.

Lemma truthy_Some_false (s : string) : truthy (Some s) = false -> s = EmptyString.
Proof. by destruct s. Qed.

Lemma auto_processMetricsSource type newName source rule metrics counter
  withNodeExtraction (w : World unit) :
  exists r w',
    processMetricsSource autoInputCallback type newName source rule metrics
      counter withNodeExtraction w = (Return r, w').
Proof.
  destruct (processMetricsSource _ _ _ _ _ _ _ _ w) as [[r|message] w'] eqn:E;
    [by eexists _, _|exfalso].
  unfold processMetricsSource in E.
  apply ask_inv in E as [(v & _ & _ & E)|(Hf%truthy_Some_false & _)];
    [|by apply convertConditionToMatcher_not_empty in Hf].
  destruct (decide _); [discriminate|].
  apply ask_inv in E as [(v' & _ & _ & [=])|(Hf%truthy_Some_false & _)].
  destruct (findMatchingMetric _ _) as [[|c key]|];
    try (by apply convertConditionToMatcher_not_empty in Hf).
  by apply append_eq_empty in Hf as [[=] _].
Qed.

Lemma auto_processLogsSource type newName source rule counter
  withNodeExtraction (w : World unit) :
  exists r w',
    processLogsSource autoInputCallback type newName source rule counter
      withNodeExtraction w = (Return r, w').
Proof.
  destruct (processLogsSource _ _ _ _ _ _ _ w) as [[r|message] w'] eqn:E;
    [by eexists _, _|exfalso].
  unfold processLogsSource in E.
  apply ask_inv in E as [(v & _ & _ & E)|(Hf%truthy_Some_false & _)];
    [|by apply convertRequiredDimensionsToMatcher_not_empty in Hf].
  destruct (decide _); [discriminate|].
  apply ask_inv in E as [(v' & _ & _ & [=])|(Hf%truthy_Some_false & _)].
  by apply convertRequiredDimensionsToMatcher_not_empty in Hf.
Qed.

Lemma auto_sourcesLoop type newName rule metrics sources st (w : World unit) :
  exists st' w',
    sourcesLoop autoInputCallback type newName rule metrics sources st w
    = (Return st', w').
Proof.
  revert st w. induction sources as [|source sources IH]; intros st w;
    cbn [sourcesLoop]; [by eexists _, _|].
  destruct (String.eqb (sourceType source) "Metrics");
    [|destruct (String.eqb (sourceType source) "Logs")]; [| |apply IH].
  - destruct (auto_processMetricsSource type newName source rule metrics
                (metricsCounter st) (entityTypesWithNodeExtraction st) w)
      as ([processors seen] & w1 & E).
    rewrite (bind_return _ _ _ _ _ E). apply IH.
  - destruct (auto_processLogsSource type newName source rule
                (logsCounter st) (entityTypesWithNodeExtraction st) w)
      as ([processors seen] & w1 & E).
    rewrite (bind_return _ _ _ _ _ E). apply IH.
Qed.

Lemma auto_rulesLoop type newName metrics rules st (w : World unit) :
  exists st' w',
    rulesLoop autoInputCallback type newName metrics rules st w = (Return st', w').
Proof.
  revert st w. induction rules as [|rule rules IH]; intros st w;
    cbn [rulesLoop]; [by eexists _, _|].
  destruct (auto_sourcesLoop type newName rule metrics (sources rule) st w)
    as (st1 & w1 & E).
  rewrite (bind_return _ _ _ _ _ E). apply IH.
Qed.

Lemma auto_typeStep metrics hasTypeNameMapping type st (w : World unit) :
  match fst (typeStep autoInputCallback metrics hasTypeNameMapping type st w) with
  | Return _ => name type <> EmptyString
  | Throw message => message = userCancelled /\ name type = EmptyString
  end.
Proof.
  destruct (typeStep _ _ _ _ _ w) as [r w'] eqn:E. unfold typeStep in E.
  apply ask_inv in E as [(v & [= <-] & Hne & E)|(Hf%truthy_Some_false & -> & _)].
  - apply bind_inv in E as [([] & w2 & _ & E)|(message & E & _)].
    + destruct (auto_rulesLoop type (suggestNewTypeName (name type)) metrics
                  (rules type) st w2) as (st' & w3 & E').
      rewrite E' in E. injection E as <- _. cbn [fst].
      intros Hname. by rewrite Hname in Hne.
    + by destruct hasTypeNameMapping.
  - cbn [fst]. split; [done|]. by apply suggestNewTypeName_empty.
Qed.

Lemma auto_typesLoop metrics hasTypeNameMapping types st (w : World unit) :
  match fst (typesLoop autoInputCallback metrics hasTypeNameMapping types st w) with
  | Return _ => Forall (fun type => name type <> EmptyString) types
  | Throw message =>
      message = userCancelled
      /\ Exists (fun type => name type = EmptyString) types
  end.
Proof.
  revert st w. induction types as [|type types IH]; intros st w;
    cbn [typesLoop]; [by constructor|].
  pose proof (auto_typeStep metrics hasTypeNameMapping type st w) as Hstep.
  unfold bind.
  destruct (typeStep _ _ _ _ _ w) as [[st1|message] w1]; cbn [fst] in *.
  - specialize (IH st1 w1).
    destruct (fst (typesLoop _ _ _ _ _ w1)) as [st'|message].
    + by constructor.
    + destruct IH as [-> IH]. split; [done|]. by apply Exists_cons_tl.
  - destruct Hstep as [-> Hname]. split; [done|]. by apply Exists_cons_hd.
Qed.

(** X13: with [autoInputCallback], which answers every prompt with the
    suggested value, the conversion of the topology types returns when no
    listed type has an empty name. When one has, the suggested name is
    empty, the conversion takes it for no answer and ends with the
    cancellation error. It ends in no other way. *)
Theorem suggestions_taken_for_types (types : list TopologyType)
  (metrics : option (list MetricMetadata)) (hasTypeNameMapping : bool)
  (w : World unit) :
  match fst (createProcessorsFromTopology autoInputCallback types metrics
               hasTypeNameMapping w) with
  | Return _ => Forall (fun type => name type <> EmptyString) types
  | Throw message =>
      message = userCancelled
      /\ Exists (fun type => name type = EmptyString) types
  end.
Proof.
  unfold createProcessorsFromTopology.
  match goal with
  | |- context [typesLoop _ _ _ _ ?st0] =>
      pose proof (auto_typesLoop metrics hasTypeNameMapping types st0 w) as Hloop
  end.
  unfold bind.
  by destruct (typesLoop _ _ _ _ _ w) as [[st|message] w1].
Qed.

Lemma auto_resolveEndName role typeName (w : World unit) :
  typeName <> EmptyString ->
  exists v w', resolveEndName autoInputCallback role typeName w = (Return v, w').
Proof.
  intros Hname.
  destruct (typeNameMapping w !! typeName) as [mapped|] eqn:Hm;
    [destruct mapped as [|c mapped]|].
  - rewrite resolveEndName_unmapped by (by rewrite Hm).
    rewrite (ask_answered autoInputCallback _ _ (suggestNewTypeName typeName) _ w
               eq_refl); [by eexists _, _|].
    by rewrite suggestNewTypeName_empty.
  - eexists _, _. by apply resolveEndName_mapped.
  - rewrite resolveEndName_unmapped by (by rewrite Hm).
    rewrite (ask_answered autoInputCallback _ _ (suggestNewTypeName typeName) _ w
               eq_refl); [by eexists _, _|].
    by rewrite suggestNewTypeName_empty.
Qed.

Lemma auto_processMetricsRelationship relationship fromTypeName toTypeName
  edgeType source counter (w : World unit) :
  exists p w',
    processMetricsRelationship autoInputCallback relationship fromTypeName
      toTypeName edgeType source counter w = (Return p, w').
Proof.
  unfold processMetricsRelationship.
  rewrite (ask_answered autoInputCallback _ _
             (convertConditionToMatcher (condition source)) _ w eq_refl)
    by apply convertConditionToMatcher_not_empty.
  by eexists _, _.
Qed.

Lemma auto_processLogsRelationship relationship fromTypeName toTypeName
  edgeType source counter (w : World unit) :
  exists p w',
    processLogsRelationship autoInputCallback relationship fromTypeName
      toTypeName edgeType source counter w = (Return p, w').
Proof.
  unfold processLogsRelationship.
  rewrite (ask_answered autoInputCallback _ _
             (if truthy (condition source)
              then convertConditionToMatcher (condition source)
              else "isNotNull(content)") _ w eq_refl).
  - by eexists _, _.
  - destruct (truthy (condition source)); [|done].
    apply convertConditionToMatcher_not_empty.
Qed.

Lemma auto_relationshipSourcesLoop relationship fromTypeName toTypeName
  edgeType sources st (w : World unit) :
  exists st' w',
    relationshipSourcesLoop autoInputCallback relationship fromTypeName
      toTypeName edgeType sources st w = (Return st', w').
Proof.
  revert st w. induction sources as [|source sources IH]; intros st w;
    cbn [relationshipSourcesLoop]; [by eexists _, _|].
  destruct (String.eqb (sourceType source) "Metrics");
    [|destruct (String.eqb (sourceType source) "Logs")]; [| |apply IH].
  - destruct (auto_processMetricsRelationship relationship fromTypeName
                toTypeName edgeType source (edge_metricsCounter st) w)
      as (p & w1 & E).
    rewrite (bind_return _ _ _ _ _ E). apply IH.
  - destruct (auto_processLogsRelationship relationship fromTypeName
                toTypeName edgeType source (edge_logsCounter st) w)
      as (p & w1 & E).
    rewrite (bind_return _ _ _ _ _ E). apply IH.
Qed.

Lemma relationshipTable_own (kind : string) :
  In kind (objectKeys RELATIONSHIP_TYPE_MAPPING) ->
  exists c v, ownProperty RELATIONSHIP_TYPE_MAPPING kind = Some (String c v).
Proof.
  simpl. intros H.
  repeat (destruct H as [<-|H]; [by eexists _, _|]). destruct H.
Qed.

Lemma edgesOf_tableEdge fromTypeName toTypeName edgeType counter new
  relationship relationships :
  edgesOf fromTypeName toTypeName edgeType counter new ->
  In relationship relationships ->
  ownProperty RELATIONSHIP_TYPE_MAPPING (typeOfRelation relationship)
  = Some edgeType ->
  Forall (tableEdge relationships) new.
Proof.
  intros Hnew Hin Hown. apply Forall_lookup.
  intros k p (matcher & source & ->)%Hnew.
  eexists relationship, _. split; [done|]. by split.
Qed.

Lemma auto_relationshipStep (memberText : string -> string) all relationship st
  (w : World unit) :
  enumerated relationship -> In relationship all ->
  Forall (tableEdge all) (edge_metricsProcessors st ++ edge_logsProcessors st) ->
  exists st' w',
    relationshipStep autoInputCallback memberText relationship st w
    = (Return st', w')
    /\ Forall (tableEdge all)
         (edge_metricsProcessors st' ++ edge_logsProcessors st').
Proof.
  intros (Hfrom & Hto & Hkind) Hin Hst.
  destruct (auto_resolveEndName "source" _ w Hfrom) as (fromTypeName & w1 & E1).
  destruct (auto_resolveEndName "target" _ w1 Hto) as (toTypeName & w2 & E2).
  destruct (relationshipTable_own _ Hkind) as (c & v & Hown).
  unfold relationshipStep.
  rewrite (bind_return _ _ _ _ _ E1), (bind_return _ _ _ _ _ E2).
  unfold getProperty. rewrite Hown.
  rewrite (bind_return _ _ w2 w2 (String c v) eq_refl).
  rewrite (ask_answered autoInputCallback _ _ (String c v) _ w2 eq_refl) by done.
  match goal with
  | |- context [relationshipSourcesLoop _ _ _ _ _ _ _ ?asking] =>
      destruct (auto_relationshipSourcesLoop relationship fromTypeName
                  toTypeName (String c v) (rel_sources relationship) st asking)
        as (st' & w' & E)
  end.
  exists st', w'. split; [exact E|].
  apply relationshipSourcesLoop_returns in E
    as (newMetrics & newLogs & -> & -> & _ & _ & Hm & Hl & _).
  apply Forall_app in Hst as [Hstm Hstl].
  repeat (apply Forall_app; split); try done; by eapply edgesOf_tableEdge.
Qed.

Lemma auto_relationshipsLoop (memberText : string -> string) all relationships
  st (w : World unit) :
  Forall enumerated relationships ->
  (forall r, In r relationships -> In r all) ->
  Forall (tableEdge all) (edge_metricsProcessors st ++ edge_logsProcessors st) ->
  exists st' w',
    relationshipsLoop autoInputCallback memberText relationships st w
    = (Return st', w')
    /\ Forall (tableEdge all)
         (edge_metricsProcessors st' ++ edge_logsProcessors st').
Proof.
  revert st w. induction relationships as [|r relationships IH]; intros st w;
    cbn [relationshipsLoop]; [by eexists _, _|].
  intros [Hr Hrest]%Forall_cons Hin Hst.
  destruct (auto_relationshipStep memberText all r st w Hr) as (st1 & w1 & E & Hst1);
    [apply Hin; by left|done|].
  rewrite (bind_return _ _ _ _ _ E). apply IH; [done| |done].
  intros; apply Hin; by right.
Qed.

(** X14: with [autoInputCallback], the conversion of relationships that
    have a name at both ends and a kind of the enumeration returns, and
    every processor it returns is an edge whose type is the one that the
    table has for the kind of one of the relationships. *)
Theorem suggestions_taken_for_relationships (memberText : string -> string)
  (relationships : list Relationship) (w : World unit) :
  Forall enumerated relationships ->
  exists result w',
    createProcessorsFromRelationships autoInputCallback memberText
      relationships w = (Return result, w')
    /\ Forall (tableEdge relationships)
         (metricsProcessors result ++ logsProcessors result).
Proof.
  intros Hall. unfold createProcessorsFromRelationships.
  match goal with
  | |- context [relationshipsLoop _ _ _ ?st0] =>
      destruct (auto_relationshipsLoop memberText relationships relationships
                  st0 w Hall)
        as (st & w' & E & Hst); [done|constructor|]
  end.
  rewrite (bind_return _ _ _ _ _ E). by eexists _, _.
Qed.

(** X14, witness: the example relationships. *)
Lemma suggestions_taken_for_relationships_witness :
  Forall enumerated exampleRelationships
  /\ exists result w',
       createProcessorsFromRelationships autoInputCallback exampleMemberText
         exampleRelationships (startWorld tt) = (Return result, w')
       /\ Forall (tableEdge exampleRelationships)
            (metricsProcessors result ++ logsProcessors result).
Proof.
  assert (Forall enumerated exampleRelationships) as Hall.
  { repeat constructor; simpl; try discriminate; tauto. }
  split; [exact Hall|].
  exact (suggestions_taken_for_relationships exampleMemberText
           exampleRelationships (startWorld tt) Hall).
Defined.

(** ** The names of the node processors and the mapping *)

Section MappedNames.

Context {PortState : Type}.
Variable callback : PortState -> string -> string -> option string * PortState.

Local Abbreviation World := (World PortState).

Lemma emitted_nodeFor type newName source rule counter withNodeExtraction
  entityMatcher nodeMatcher :
  Forall (nodeFor newName)
    (emitted type newName source rule counter withNodeExtraction entityMatcher
       nodeMatcher).
Proof.
  unfold emitted. constructor; [by eexists|].
  destruct (decide _); constructor; [by eexists|constructor].
Qed.

Lemma sourcesLoop_nodeFor type newName rule metrics sources st (w : World) st' w' :
  sourcesLoop callback type newName rule metrics sources st w = (Return st', w') ->
  exists newMetrics newLogs,
    node_metricsProcessors st' = node_metricsProcessors st ++ newMetrics
    /\ node_logsProcessors st' = node_logsProcessors st ++ newLogs
    /\ Forall (nodeFor newName) (newMetrics ++ newLogs).
Proof.
  revert st w. induction sources as [|source sources IH]; intros st w;
    cbn [sourcesLoop].
  - intros [= <- <-]. exists [], []. rewrite !app_nil_r. by repeat split.
  - intros H.
    destruct (String.eqb (sourceType source) "Metrics");
      [|destruct (String.eqb (sourceType source) "Logs")]; [| |by apply IH in H].
    + apply bind_inv in H as [([processors seen] & w1 & H1 & H)|(? & _ & [=])].
      apply processMetricsSource_returns in H1 as ((em & nm & ->) & _).
      apply IH in H as (newMetrics & newLogs & -> & -> & [Hm Hl]%Forall_app).
      cbn [node_metricsProcessors node_logsProcessors].
      eexists (_ ++ newMetrics), newLogs. rewrite <- app_assoc.
      split; [done|]. split; [done|].
      repeat (apply Forall_app; split); try done. apply emitted_nodeFor.
    + apply bind_inv in H as [([processors seen] & w1 & H1 & H)|(? & _ & [=])].
      apply processLogsSource_returns in H1 as ((em & nm & ->) & _).
      apply IH in H as (newMetrics & newLogs & -> & -> & [Hm Hl]%Forall_app).
      cbn [node_metricsProcessors node_logsProcessors].
      eexists newMetrics, (_ ++ newLogs). rewrite <- app_assoc.
      split; [done|]. split; [done|].
      repeat (apply Forall_app; split); try done. apply emitted_nodeFor.
Qed.

Lemma rulesLoop_nodeFor type newName metrics rules st (w : World) st' w' :
  rulesLoop callback type newName metrics rules st w = (Return st', w') ->
  exists newMetrics newLogs,
    node_metricsProcessors st' = node_metricsProcessors st ++ newMetrics
    /\ node_logsProcessors st' = node_logsProcessors st ++ newLogs
    /\ Forall (nodeFor newName) (newMetrics ++ newLogs).
Proof.
  revert st w. induction rules as [|rule rules IH]; intros st w; cbn [rulesLoop].
  - intros [= <- <-]. exists [], []. rewrite !app_nil_r. by repeat split.
  - intros H. apply bind_inv in H as [(st1 & w1 & H1 & H)|(? & _ & [=])].
    apply sourcesLoop_nodeFor in H1
      as (newMetrics & newLogs & Hm & Hl & [Hfm Hfl]%Forall_app).
    apply IH in H
      as (newMetrics' & newLogs' & -> & -> & [Hfm' Hfl']%Forall_app).
    exists (newMetrics ++ newMetrics'), (newLogs ++ newLogs').
    rewrite Hm, Hl, <- !app_assoc. split; [done|]. split; [done|].
    by repeat (apply Forall_app; split).
Qed.

Lemma typeStep_nodeFor metrics type st (w : World) st' w' :
  typeStep callback metrics true type st w = (Return st', w') ->
  exists newName newMetrics newLogs,
    newName <> EmptyString
    /\ node_metricsProcessors st' = node_metricsProcessors st ++ newMetrics
    /\ node_logsProcessors st' = node_logsProcessors st ++ newLogs
    /\ Forall (nodeFor newName) (newMetrics ++ newLogs)
    /\ typeNameMapping w' = <[name type := newName]> (typeNameMapping w).
Proof.
  unfold typeStep. intros H.
  apply ask_inv in H as [(newName & _ & Hne & H)|(_ & [=] & _)].
  unfold bind at 1, mapSet in H.
  match type of H with
  | ?m ?w1 = _ =>
      destruct (silent_rulesLoop callback type newName metrics (rules type) st w1)
        as [_ Hmapping];
      rewrite H in Hmapping; cbn [snd typeNameMapping asked] in Hmapping
  end.
  apply rulesLoop_nodeFor in H as (newMetrics & newLogs & Hm & Hl & Hfor).
  by exists newName, newMetrics, newLogs.
Qed.

Lemma namedByMapping_weaken (m : gmap string string) types types' p :
  (forall type, In type types -> In type types') ->
  namedByMapping m types p -> namedByMapping m types' p.
Proof.
  intros Hin (type & node & Htype & Hp & Hm). exists type, node.
  split; [by apply Hin|done].
Qed.

Lemma typesLoop_named metrics types st (w : World) st' w' :
  typesLoop callback metrics true types st w = (Return st', w') ->
  NoDup (map name types) ->
  exists newMetrics newLogs,
    node_metricsProcessors st' = node_metricsProcessors st ++ newMetrics
    /\ node_logsProcessors st' = node_logsProcessors st ++ newLogs
    /\ Forall (namedByMapping (typeNameMapping w') types) (newMetrics ++ newLogs)
    /\ (forall k, ~ In k (map name types) ->
          typeNameMapping w' !! k = typeNameMapping w !! k)
    /\ (forall type, In type types ->
          exists newName,
            typeNameMapping w' !! name type = Some newName
            /\ newName <> EmptyString).
Proof.
  revert st w. induction types as [|type types IH]; intros st w; cbn [typesLoop].
  - intros [= <- <-] _. exists [], []. rewrite !app_nil_r.
    split; [done|]. split; [done|]. split; [constructor|]. split; [done|].
    intros type [].
  - intros H [Hfresh Hnodup]%NoDup_cons.
    apply bind_inv in H as [(st1 & w1 & H1 & H)|(? & _ & [=])].
    apply typeStep_nodeFor in H1
      as (newName & newMetrics & newLogs & Hne & Hm & Hl & [Hfm Hfl]%Forall_app
          & Hmapping).
    apply IH in H
      as (newMetrics' & newLogs' & -> & -> & [Hfm' Hfl']%Forall_app & Hsame
          & Hlisted); [|done].
    assert (typeNameMapping w' !! name type = Some newName) as Hhere.
    { rewrite Hsame, Hmapping; [by rewrite lookup_insert_eq|].
      by rewrite <- list_elem_of_In. }
    assert (forall new, Forall (nodeFor newName) new ->
              Forall (namedByMapping (typeNameMapping w') (type :: types)) new)
      as Hhead.
    { intros new Hnew. eapply Forall_impl; [exact Hnew|].
      intros p (node & Hp & <-). exists type, node. split; [by left|done]. }
    assert (forall new,
              Forall (namedByMapping (typeNameMapping w') types) new ->
              Forall (namedByMapping (typeNameMapping w') (type :: types)) new)
      as Htail.
    { intros new Hnew. eapply Forall_impl; [exact Hnew|].
      intros p. apply namedByMapping_weaken. intros; by right. }
    exists (newMetrics ++ newMetrics'), (newLogs ++ newLogs').
    rewrite Hm, Hl, <- !app_assoc. split; [done|]. split; [done|].
    split; [repeat (apply Forall_app; split); eauto|]. split.
    + intros k Hk. rewrite Hsame, Hmapping by (intros ?; apply Hk; by right).
      apply lookup_insert_ne. intros <-. apply Hk. by left.
    + intros type' [<-|Hin]; [by exists newName|by apply Hlisted].
Qed.

(** X15: in a run, over topology types with pairwise different names, of
    the conversion of the types with the mapping that returns, the mapping
    has at the end a name that is not empty for every listed type, every
    processor returned is a node processor for the name that the mapping
    has for one of the listed types, and the bindings of the other keys
    of the mapping are as they were. *)
Theorem node_types_are_mapped (types : list TopologyType)
  (metrics : option (list MetricMetadata)) (w w' : World) (result : Processors) :
  NoDup (map name types) ->
  createProcessorsFromTopology callback types metrics true w
  = (Return result, w') ->
  (forall type, In type types ->
     exists newName,
       typeNameMapping w' !! name type = Some newName /\ newName <> EmptyString)
  /\ Forall (namedByMapping (typeNameMapping w') types)
       (metricsProcessors result ++ logsProcessors result)
  /\ (forall k, ~ In k (map name types) ->
        typeNameMapping w' !! k = typeNameMapping w !! k).
Proof.
  unfold createProcessorsFromTopology. intros Hnodup H.
  apply bind_inv in H as [(st & w1 & H1 & H)|(? & _ & [=])].
  injection H as <- <-. cbn [metricsProcessors logsProcessors].
  apply typesLoop_named in H1
    as (newMetrics & newLogs & -> & -> & Hfor & Hsame & Hlisted); [|done].
  done.
Qed.

End MappedNames.

(** X15, witness: the example types, with the suggestions taken. *)
Lemma node_types_are_mapped_witness :
  NoDup (map name exampleTypes)
  /\ exists result w',
       createProcessorsFromTopology autoInputCallback exampleTypes None true
         (startWorld tt) = (Return result, w')
       /\ (forall type, In type exampleTypes ->
             exists newName,
               typeNameMapping w' !! name type = Some newName
               /\ newName <> EmptyString)
       /\ Forall (namedByMapping (typeNameMapping w') exampleTypes)
            (metricsProcessors result ++ logsProcessors result)
       /\ (forall k, ~ In k (map name exampleTypes) ->
             typeNameMapping w' !! k = typeNameMapping (startWorld tt) !! k).
Proof.
  assert (NoDup (map name exampleTypes)) as Hnodup.
  { apply (bool_decide_unpack _). vm_compute. exact I. }
  split; [exact Hnodup|].
  assert (exists result w',
            createProcessorsFromTopology autoInputCallback exampleTypes None true
              (startWorld tt) = (Return result, w')) as (result & w' & E)
    by (eexists _, _; vm_compute; reflexivity).
  exists result, w'.
  exact (conj E (node_types_are_mapped autoInputCallback exampleTypes None
                   (startWorld tt) w' result Hnodup E)).
Defined.

(** ** The pipeline documents, the manifest and the files *)

Lemma convertTopologyToOpenPipeline_returns {PortState : Type}
  (callback : PortState -> string -> string -> option string * PortState)
  (memberText : string -> string) (extension : ExtensionStub)
  (w w' : World PortState) (conversion : Conversion) :
  convertTopologyToOpenPipeline callback memberText extension w
  = (Return conversion, w') ->
  exists nodes edges, conversion = assemble (ext_name extension) nodes edges.
Proof.
  unfold convertTopologyToOpenPipeline.
  destruct (topology extension) as [t|]; [|discriminate]. intros H.
  apply bind_inv in H as [([] & w1 & _ & H)|(? & _ & [=])].
  apply bind_inv in H as [(nodes & w2 & _ & H)|(? & _ & [=])].
  apply bind_inv in H as [(edges & w3 & _ & H)|(? & _ & [=])].
  injection H as <- _. by exists nodes, edges.
Qed.

Lemma extraction_not_empty (l : list OpenPipelineProcessor) :
  extraction l <> Some {| processors := [] |}.
Proof. by destruct l. Qed.


Lemma assemble_manifest (extension : ExtensionStub) (nodes edges : Processors) :
  let conversion := assemble (ext_name extension) nodes edges in
  let manifest := pipelineExtensionYaml conversion in
  let docs := pipelineDocs conversion in
  map pipeline_configScope (pipelines manifest) = scopesWritten docs
  /\ map source_configScope (pipeline_sources manifest) = scopesWritten docs
  /\ Forall (fun entry =>
        pipelinePath entry
        = "openpipeline/" +:+ pipelineFileName (pipeline_configScope entry)
        /\ entry_displayName entry
           = pipelineSource_displayName
               (pipelineSource extension (pipeline_configScope entry)))
       (pipelines manifest)
  /\ Forall (fun entry =>
        sourcePath entry
        = "openpipeline/" +:+ sourceFileName (source_configScope entry)
        /\ source_displayName entry
           = pipelineSource_displayName
               (pipelineSource extension (source_configScope entry)))
       (pipeline_sources manifest)
  /\ (forall document, metricPipeline docs = Some document ->
        customId document
        = pipelineId (staticRouting (pipelineSource extension "metrics"))
        /\ pipeline_displayName document
           = pipelineSource_displayName (pipelineSource extension "metrics"))
  /\ (forall document, logPipeline docs = Some document ->
        customId document
        = pipelineId (staticRouting (pipelineSource extension "logs"))
        /\ pipeline_displayName document
           = pipelineSource_displayName (pipelineSource extension "logs")).
Proof.
  unfold assemble, scopePipeline, scopesWritten, pipelineSource.
  set (cleaned := cleanExtensionName (ext_name extension)).
  destruct (metricsProcessors nodes) as [|p1 l1], (metricsProcessors edges) as [|p2 l2],
    (logsProcessors nodes) as [|p3 l3], (logsProcessors edges) as [|p4 l4];
    cbn -[cleaned String.append];
    (split; [done|]); (split; [done|]);
    (split; [by repeat constructor|]); (split; [by repeat constructor|]);
    split; intros document H;
    first [discriminate H | injection H as <-; by split].
Qed.

Section Documents.

Context {PortState : Type}.
Variable callback : PortState -> string -> string -> option string * PortState.
Variable memberText : string -> string.


(** X17: the manifest that the conversion returns lists, in the order in
    which the workflow writes them, a pipeline and a source for every scope
    that has a pipeline document, and for no other scope; their paths are
    the files that [writePipelineToFile] and [writePipelineSourceToFile]
    choose for the scope, under [openpipeline/]; and the source written
    for a scope routes to the identifier of the pipeline document of the
    scope, under the same display name. *)
Theorem manifest_matches_written_files (extension : ExtensionStub)
  (w w' : World PortState) (conversion : Conversion) :
  convertTopologyToOpenPipeline callback memberText extension w
  = (Return conversion, w') ->
  let manifest := pipelineExtensionYaml conversion in
  let docs := pipelineDocs conversion in
  map pipeline_configScope (pipelines manifest) = scopesWritten docs
  /\ map source_configScope (pipeline_sources manifest) = scopesWritten docs
  /\ Forall (fun entry =>
        pipelinePath entry
        = "openpipeline/" +:+ pipelineFileName (pipeline_configScope entry)
        /\ entry_displayName entry
           = pipelineSource_displayName
               (pipelineSource extension (pipeline_configScope entry)))
       (pipelines manifest)
  /\ Forall (fun entry =>
        sourcePath entry
        = "openpipeline/" +:+ sourceFileName (source_configScope entry)
        /\ source_displayName entry
           = pipelineSource_displayName
               (pipelineSource extension (source_configScope entry)))
       (pipeline_sources manifest)
  /\ (forall document, metricPipeline docs = Some document ->
        customId document
        = pipelineId (staticRouting (pipelineSource extension "metrics"))
        /\ pipeline_displayName document
           = pipelineSource_displayName (pipelineSource extension "metrics"))
  /\ (forall document, logPipeline docs = Some document ->
        customId document
        = pipelineId (staticRouting (pipelineSource extension "logs"))
        /\ pipeline_displayName document
           = pipelineSource_displayName (pipelineSource extension "logs")).
Proof.
  intros (nodes & edges & ->)%convertTopologyToOpenPipeline_returns.
  apply assemble_manifest.
Qed.

End Documents.


(** X17, witness: the example extension, with the suggestions taken. *)
Lemma manifest_matches_written_files_witness :
  exists conversion w',
    convertTopologyToOpenPipeline autoInputCallback exampleMemberText
      exampleExtension (startWorld tt) = (Return conversion, w')
    /\ map pipeline_configScope (pipelines (pipelineExtensionYaml conversion))
       = scopesWritten (pipelineDocs conversion).
Proof.
  assert (exists conversion w',
            convertTopologyToOpenPipeline autoInputCallback exampleMemberText
              exampleExtension (startWorld tt) = (Return conversion, w'))
    as (conversion & w' & E) by (eexists _, _; vm_compute; reflexivity).
  exists conversion, w'.
  exact (conj E (proj1 (manifest_matches_written_files autoInputCallback
                          exampleMemberText exampleExtension (startWorld tt) w'
                          conversion E))).
Defined.

(** * Properties of the schema formatter *)

Module SchemaFormatterFacts.

Import SchemaFormatter.

Section Facts.

Context {Value Number : Type}.

Local Abbreviation SchemaProperty := (SchemaProperty Value Number).

(** Induction on a schema: a property of the items and of every entry of
    the properties is a property of the schema. *)
Lemma SchemaProperty_induction (P : SchemaProperty -> Prop) :
  (forall p,
     (forall i, items p = Some i -> P i) ->
     (forall entries key nested,
        properties p = Some entries -> In (key, nested) entries -> P nested) ->
     P p) ->
  forall p, P p.
Proof.
  intros H. fix F 1. intros p. apply H.
  - intros i Hi. destruct p as [t d e [i'|] ps r pa mi ma mn mx]; cbn in Hi;
      [injection Hi as <-; apply F|discriminate].
  - intros entries key nested Hp Hin.
    destruct p as [t d e i [ps|] r pa mi ma mn mx]; cbn in Hp;
      [injection Hp as <-|discriminate].
    induction ps as [|[k n] ps IH]; [destruct Hin|].
    destruct Hin as [[= <- <-]|Hin]; [apply F|by apply IH].
Qed.

Lemma extractEnums_eq (property : SchemaProperty) (propertyPath : string) :
  extractEnums property propertyPath
  = (match enum property with
     | Some values =>
         [ {| enum_path := propertyPath;
              enum_values := values;
              enum_description := description property |} ]
     | None => []
     end)
    ++ (match properties property with
        | Some entries =>
            flat_map (fun entry =>
                        extractEnums entry.2 (propertyPath +:+ "." +:+ entry.1))
              entries
        | None => []
        end)
    ++ (match items property with
        | Some itemsProperty => extractEnums itemsProperty (propertyPath +:+ "[]")
        | None => []
        end).
Proof.
  destruct property as [t d e i ps r pa mi ma mn mx].
  cbn [extractEnums enum properties items description]. do 2 f_equal.
  destruct ps as [entries|]; [|done].
  induction entries as [|[key nested] entries IH]; [done|].
  cbn [flat_map fst snd]. by rewrite <- IH.
Qed.

Lemma reaches_prefix (property q : SchemaProperty) (path path' : string) :
  reaches property path q path' -> exists suffix, path' = path +:+ suffix.
Proof.
  induction 1 as [property path|property path entries key nested q path' _ _ _ IH
                 |property path itemsProperty q path' _ _ IH].
  - exists EmptyString. by rewrite append_nil_r.
  - destruct IH as (suffix & ->). eexists. by rewrite !append_assoc.
  - destruct IH as (suffix & ->). eexists. by rewrite !append_assoc.
Qed.

Lemma extractEnums_sound (property : SchemaProperty) :
  forall propertyPath info,
    In info (extractEnums property propertyPath) ->
    exists q,
      reaches property propertyPath q (enum_path info)
      /\ enum q = Some (enum_values info)
      /\ enum_description info = description q.
Proof.
  induction property as [property IHitems IHentries] using SchemaProperty_induction.
  intros propertyPath info. rewrite extractEnums_eq, !in_app_iff.
  intros [Hown|[Hnested|Hitems]].
  - destruct (enum property) as [values|] eqn:He; [|destruct Hown].
    destruct Hown as [<-|[]]. exists property. split; [constructor|done].
  - destruct (properties property) as [entries|] eqn:Hp; [|destruct Hnested].
    apply in_flat_map in Hnested as ([key nested] & Hin & Hnested).
    apply (IHentries _ _ _ eq_refl Hin) in Hnested as (q & Hq & Hrest).
    exists q. split; [by eapply reaches_property|done].
  - destruct (items property) as [itemsProperty|] eqn:Hi; [|destruct Hitems].
    apply (IHitems _ eq_refl) in Hitems as (q & Hq & Hrest).
    exists q. split; [by eapply reaches_items|done].
Qed.

Lemma extractEnums_complete (property q : SchemaProperty)
  (propertyPath path' : string) (values : list Value) :
  reaches property propertyPath q path' ->
  enum q = Some values ->
  In {| enum_path := path'; enum_values := values;
        enum_description := description q |}
    (extractEnums property propertyPath).
Proof.
  induction 1 as [property path|property path entries key nested q path' Hp Hin _ IH
                 |property path itemsProperty q path' Hi _ IH];
    intros He; rewrite extractEnums_eq, !in_app_iff.
  - left. rewrite He. by left.
  - right. left. rewrite Hp. apply in_flat_map. exists (key, nested).
    split; [done|by apply IH].
  - right. right. rewrite Hi. by apply IH.
Qed.

(** X18: [extractEnums] reports exactly the enumerations of the schemas
    that its walk reaches, through the properties and the items of a
    schema, each with its values and its description under the path of
    the walk; every reported path starts with the path given for the
    root. *)
Theorem extractEnums_reaches (property : SchemaProperty) (propertyPath : string)
  (info : EnumInfo Value) :
  (In info (extractEnums property propertyPath)
   <-> exists q,
         reaches property propertyPath q (enum_path info)
         /\ enum q = Some (enum_values info)
         /\ enum_description info = description q)
  /\ (In info (extractEnums property propertyPath) ->
      startsWith (enum_path info) propertyPath = true).
Proof.
  split; [split|].
  - apply extractEnums_sound.
  - intros (q & Hq & He & Hd). destruct info as [path values d].
    cbn [enum_path enum_values enum_description] in *. subst d.
    by apply extractEnums_complete.
  - intros (q & Hq & _)%extractEnums_sound.
    apply reaches_prefix in Hq as (suffix & ->).
    apply startsWith_true. by exists suffix.
Qed.

Lemma extractConstraints_eq (property : SchemaProperty) (propertyPath : string) :
  extractConstraints property propertyPath
  = (match constraintInfo property with
     | [] => []
     | info =>
         [ {| constraint_path := propertyPath;
              constraint_type := typeText property;
              constraints := info |} ]
     end)
    ++ (match properties property with
        | Some entries =>
            flat_map (fun entry =>
                        extractConstraints entry.2
                          (propertyPath +:+ "." +:+ entry.1))
              entries
        | None => []
        end)
    ++ (match items property with
        | Some itemsProperty =>
            extractConstraints itemsProperty (propertyPath +:+ "[]")
        | None => []
        end).
Proof.
  destruct property as [t d e i ps r pa mi ma mn mx].
  cbn [extractConstraints properties items]. do 2 f_equal.
  destruct ps as [entries|]; [|done].
  induction entries as [|[key nested] entries IH]; [done|].
  cbn [flat_map fst snd]. by rewrite <- IH.
Qed.

Lemma extractConstraints_sound (property : SchemaProperty) :
  forall propertyPath entry,
    In entry (extractConstraints property propertyPath) ->
    exists q,
      reaches property propertyPath q (constraint_path entry)
      /\ constraintInfo q <> []
      /\ constraints entry = constraintInfo q
      /\ constraint_type entry = typeText q.
Proof.
  induction property as [property IHitems IHentries] using SchemaProperty_induction.
  intros propertyPath entry. rewrite extractConstraints_eq, !in_app_iff.
  intros [Hown|[Hnested|Hitems]].
  - destruct (constraintInfo property) as [|c info] eqn:Hc; [destruct Hown|].
    destruct Hown as [<-|[]]. exists property. rewrite Hc.
    split; [constructor|done].
  - destruct (properties property) as [entries|] eqn:Hp; [|destruct Hnested].
    apply in_flat_map in Hnested as ([key nested] & Hin & Hnested).
    apply (IHentries _ _ _ eq_refl Hin) in Hnested as (q & Hq & Hrest).
    exists q. split; [by eapply reaches_property|done].
  - destruct (items property) as [itemsProperty|] eqn:Hi; [|destruct Hitems].
    apply (IHitems _ eq_refl) in Hitems as (q & Hq & Hrest).
    exists q. split; [by eapply reaches_items|done].
Qed.

Lemma extractConstraints_complete (property q : SchemaProperty)
  (propertyPath path' : string) :
  reaches property propertyPath q path' ->
  constraintInfo q <> [] ->
  In {| constraint_path := path'; constraint_type := typeText q;
        constraints := constraintInfo q |}
    (extractConstraints property propertyPath).
Proof.
  induction 1 as [property path|property path entries key nested q path' Hp Hin _ IH
                 |property path itemsProperty q path' Hi _ IH];
    intros Hc; rewrite extractConstraints_eq, !in_app_iff.
  - left. destruct (constraintInfo property); [done|by left].
  - right. left. rewrite Hp. apply in_flat_map. exists (key, nested).
    split; [done|by apply IH].
  - right. right. rewrite Hi. by apply IH.
Qed.

Lemma constraintInfo_keys (property : SchemaProperty) :
  map fst (constraintInfo property)
    `sublist_of` ["pattern"; "minLength"; "maxLength"; "minimum"; "maximum"].
Proof.
  unfold constraintInfo. rewrite !map_app.
  change ["pattern"; "minLength"; "maxLength"; "minimum"; "maximum"]
    with (["pattern"] ++ ["minLength"] ++ ["maxLength"] ++ ["minimum"]
          ++ ["maximum"]).
  repeat apply sublist_app.
  - destruct (pattern property) as [[|c p]|]; by repeat constructor.
  - destruct (minLength property); by repeat constructor.
  - destruct (maxLength property); by repeat constructor.
  - destruct (minimum property); by repeat constructor.
  - destruct (maximum property); by repeat constructor.
Qed.

(** X19: [extractConstraints] reports exactly the schemas that its walk
    reaches and that have a constraint, each with its constraints and the
    text of its type under the path of the walk. No entry is without a
    constraint; the constraints of an entry are named [pattern],
    [minLength], [maxLength], [minimum] and [maximum], in that order and
    each once at most. *)
Theorem extractConstraints_reaches (property : SchemaProperty)
  (propertyPath : string) (entry : ConstraintEntry Number) :
  (In entry (extractConstraints property propertyPath)
   <-> exists q,
         reaches property propertyPath q (constraint_path entry)
         /\ constraintInfo q <> []
         /\ constraints entry = constraintInfo q
         /\ constraint_type entry = typeText q)
  /\ (In entry (extractConstraints property propertyPath) ->
      constraints entry <> []
      /\ map fst (constraints entry)
           `sublist_of` ["pattern"; "minLength"; "maxLength"; "minimum"; "maximum"]).
Proof.
  split; [split|].
  - apply extractConstraints_sound.
  - intros (q & Hq & Hc & Hi & Ht). destruct entry as [path t info].
    cbn [constraint_path constraint_type constraints] in *. subst t info.
    by apply extractConstraints_complete.
  - intros (q & _ & Hc & -> & _)%extractConstraints_sound.
    split; [done|apply constraintInfo_keys].
Qed.

Lemma ownEntry_In (entries : list (string * SchemaProperty)) (fieldName : string)
  (property : SchemaProperty) :
  ownEntry entries fieldName = Some property -> In (fieldName, property) entries.
Proof.
  induction entries as [|[key p] entries IH]; [done|]. cbn [ownEntry].
  destruct (String.eqb_spec key fieldName) as [->|_].
  - intros [= ->]. by left.
  - intros H. right. by apply IH.
Qed.

Lemma extractRequiredFields_eq (schema : SchemaProperty) (parentPath : string) :
  extractRequiredFields schema parentPath
  = match properties schema with
    | None => []
    | Some entries =>
        (match required schema with
         | Some names =>
             flat_map
               (fun fieldName =>
                  match ownEntry entries fieldName with
                  | Some property =>
                      {| field_path := fieldPathOf parentPath fieldName;
                         field_description := description property |}
                      :: match properties property with
                         | Some _ =>
                             extractRequiredFields property
                               (fieldPathOf parentPath fieldName)
                         | None => []
                         end
                  | None =>
                      [ {| field_path := fieldPathOf parentPath fieldName;
                           field_description := None |} ]
                  end)
               names
         | None => []
         end)
        ++ flat_map
             (fun entry =>
                match properties entry.2 with
                | Some _ =>
                    if negb (requiredIncludes schema entry.1)
                    then extractRequiredFields entry.2
                           (fieldPathOf parentPath entry.1)
                    else []
                | None => []
                end)
             entries
    end.
Proof.
  destruct schema as [t d e i ps r pa mi ma mn mx].
  cbn [extractRequiredFields properties required].
  destruct ps as [entries|]; [|done]. f_equal.
  - destruct r as [names|]; [|done]. apply flat_map_ext. intros fieldName.
    induction entries as [|[key property] entries IH]; [done|].
    cbn [ownEntry]. by destruct (String.eqb key fieldName).
  - unfold requiredIncludes. cbn [required].
    induction entries as [|[key property] entries IH]; [done|].
    cbn [flat_map fst snd]. by rewrite <- IH.
Qed.

Lemma extractRequiredFields_sound (schema : SchemaProperty) :
  forall parentPath field,
    In field (extractRequiredFields schema parentPath) ->
    exists q parent entries names fieldName,
      descends schema parentPath q parent
      /\ properties q = Some entries
      /\ required q = Some names
      /\ In fieldName names
      /\ field_path field = fieldPathOf parent fieldName
      /\ field_description field
         = match ownEntry entries fieldName with
           | Some property => description property
           | None => None
           end.
Proof.
  induction schema as [schema _ IHentries] using SchemaProperty_induction.
  intros parentPath field. rewrite extractRequiredFields_eq.
  destruct (properties schema) as [entries|] eqn:Hp; [|intros []].
  rewrite in_app_iff. intros [Hfirst|Hsecond].
  - destruct (required schema) as [names|] eqn:Hr; [|destruct Hfirst].
    apply in_flat_map in Hfirst as (fieldName & Hname & Hfield).
    destruct (ownEntry entries fieldName) as [property|] eqn:Hown.
    + destruct Hfield as [<-|Hfield].
      * exists schema, parentPath, entries, names, fieldName. rewrite Hown.
        split; [constructor|done].
      * destruct (properties property) eqn:Hpp; [|destruct Hfield].
        apply ownEntry_In in Hown.
        apply (IHentries _ _ _ eq_refl Hown) in Hfield
          as (q & parent & entries' & names' & fieldName' & Hq & Hrest).
        exists q, parent, entries', names', fieldName'.
        split; [by eapply descends_property|done].
    + destruct Hfield as [<-|[]].
      exists schema, parentPath, entries, names, fieldName. rewrite Hown.
      split; [constructor|done].
  - apply in_flat_map in Hsecond as ([key property] & Hin & Hfield).
    cbn [fst snd] in Hfield.
    destruct (properties property) eqn:Hpp; [|destruct Hfield].
    destruct (negb (requiredIncludes schema key)); [|destruct Hfield].
    apply (IHentries _ _ _ eq_refl Hin) in Hfield
      as (q & parent & entries' & names' & fieldName' & Hq & Hrest).
    exists q, parent, entries', names', fieldName'.
    split; [by eapply descends_property|done].
Qed.

(** X20: every field that [extractRequiredFields] reports is a required
    name of a schema that has properties and that is the root or is
    reached from it through properties only, never through items; its
    path is the path of that schema and the name, joined by a dot, or the
    name alone under the empty path; its description is the one of the
    property of that name, if there is one. A schema without properties
    gives no field, whatever it requires, and every required name of a
    root with properties is reported. *)
Theorem extractRequiredFields_descends (schema : SchemaProperty)
  (parentPath : string) :
  (forall field,
     In field (extractRequiredFields schema parentPath) ->
     exists q parent entries names fieldName,
       descends schema parentPath q parent
       /\ properties q = Some entries
       /\ required q = Some names
       /\ In fieldName names
       /\ field_path field = fieldPathOf parent fieldName
       /\ field_description field
          = match ownEntry entries fieldName with
            | Some property => description property
            | None => None
            end)
  /\ (properties schema = None -> extractRequiredFields schema parentPath = [])
  /\ (forall entries names fieldName,
        properties schema = Some entries ->
        required schema = Some names ->
        In fieldName names ->
        In {| field_path := fieldPathOf parentPath fieldName;
              field_description :=
                match ownEntry entries fieldName with
                | Some property => description property
                | None => None
                end |}
          (extractRequiredFields schema parentPath)).
Proof.
  split; [apply extractRequiredFields_sound|]. split.
  - intros Hp. by rewrite extractRequiredFields_eq, Hp.
  - intros entries names fieldName Hp Hr Hin.
    rewrite extractRequiredFields_eq, Hp, Hr, in_app_iff. left.
    apply in_flat_map. exists fieldName. split; [done|].
    destruct (ownEntry entries fieldName); by left.
Qed.

End Facts.

End SchemaFormatterFacts.
